(** * The ANSI text renderer of the debug console (src/dbg/console.h)

    A shallow embedding of [FastAnsiParser]: the SGR escape-sequence
    tokenizer and the line-layout cursor of [RenderAnsiText], with the
    properties of its specification.

    Conventions of the embedding.
    - The buffer [[text, text + length)] is a [list byte]; the pointers
      [ptr], [segmentStart], [segStart], [current] are offsets into it and
      [end] is its length.  [text] is the buffer the body of the function
      works on, after [if (length == 0) length = strlen(text)] (see
      [buffer_of_call]); a null [text] returns before anything happens.
    - [int] is a 32-bit signed integer: values are in [Z] and every
      arithmetic operation is followed by its two's-complement wrap-around.
      (C++ leaves signed overflow undefined; the wrap is what the compiled
      code does.  It needs an SGR parameter of ten digits or more.)
    - [float] coordinates are exact rationals [Q]: rounding, infinities and
      NaN are outside the model.
    - ImGui is an interface: the colour packer [IM_COL32], the text
      measurement [CalcTextSize], the line height and the cursor origin are
      the fields of the class [ImGui]; the draw list is the list of the
      [AddText] calls made so far. *)

From Stdlib Require Import Strings.String Strings.Byte.
From Stdlib Require Import ZArith QArith Qminmax List Bool Lia Lqa Arith.
Import ListNotations.

(** ** Characters *)

(** [(unsigned char)c], as an [int]. *)
Definition uchar (c : byte) : Z := Z.of_N (Byte.to_N c).

Definition ESC : byte := x1b.       (* '\033' *)
Definition LF : byte := x0a.        (* '\n' *)
Definition CR : byte := x0d.        (* '\r' *)
Definition TAB : byte := x09.       (* '\t' *)
Definition BS : byte := x08.        (* '\b' *)
Definition LBRACKET : byte := x5b.  (* '[' *)
Definition SEMI : byte := x3b.      (* ';' *)
Definition LOWER_M : byte := x6d.   (* 'm' *)
Definition UPPER_A : byte := x41.   (* 'A' *)

(** [c >= '0' && c <= '9'], the same for a signed and for an unsigned
    [char]: a byte from 0x80 on is no digit either way. *)
Definition is_digit (c : byte) : bool :=
  ((48 <=? uchar c) && (uchar c <=? 57))%Z.

(** [text[i]]; the source reads it only for [i < length]. *)
Definition char_at (text : list byte) (i : nat) : byte := nth i text x00.

(** The bytes of the span [[first, last)] of the buffer. *)
Definition span (text : list byte) (first last : nat) : list byte :=
  firstn (last - first) (skipn first text).

(** ** [int] arithmetic *)

Definition INT_MIN : Z := (-2147483648)%Z.
Definition INT_MAX : Z := 2147483647%Z.

Definition wrap_int (z : Z) : Z := ((z + 2 ^ 31) mod 2 ^ 32 - 2 ^ 31)%Z.

Definition int_add (a b : Z) : Z := wrap_int (a + b).
Definition int_sub (a b : Z) : Z := wrap_int (a - b).
Definition int_mul (a b : Z) : Z := wrap_int (a * b).
(** [/] and [%] of C++ truncate toward zero. *)
Definition int_div (a b : Z) : Z := wrap_int (Z.quot a b).
Definition int_rem (a b : Z) : Z := wrap_int (Z.rem a b).

(** ** The ImGui interface *)

Definition ImU32 : Type := Z.

Module ImVec2.
Record t : Type := make { x : Q; y : Q }.
End ImVec2.
Abbreviation ImVec2 := ImVec2.t.

(** [(int)q] for a [float] [q]: truncation toward zero, to a 32-bit [int].
    The conversion is undefined in C++ when the integer part does not fit
    an [int]; the model takes what the conversion instruction of x86-64
    answers then, [INT_MIN]. *)
Definition float_to_int (q : Q) : Z :=
  let z := Z.quot (Qnum q) (Z.pos (Qden q)) in
  if ((INT_MIN <=? z) && (z <=? INT_MAX))%Z then z else INT_MIN.

(** What the renderer takes from outside its source: from ImGui, whose
    imgui.h is not among the sources of the repository, and from the
    memory around its table of colours. *)
Class ImGui : Type := {
  (** the macro [IM_COL32(R, G, B, A)] of imgui.h, applied to [int]s *)
  IM_COL32 : Z -> Z -> Z -> Z -> ImU32;
  (** [ImGui::CalcTextSize(first, last)] on the bytes of the span *)
  CalcTextSize : list byte -> ImVec2;
  (** [ImGui::GetTextLineHeight()] *)
  GetTextLineHeight : Q;
  (** [ImGui::GetCursorScreenPos()] at the start of the call *)
  GetCursorScreenPos : ImVec2;
  (** what a read of [ANSI_COLORS[i]] finds when [i] is not within 0..15:
      the index is not checked and the read is undefined in C++; it finds
      what the memory holds there, or ends the process, which is no
      outcome of the model *)
  out_of_bounds : Z -> ImU32
}.

(** One call [drawList->AddText(pos, col, text_begin, text_end)]; the two
    pointers are offsets into the buffer.  [AddText] has no parameter for
    bold. *)
Record DrawCmd : Type := AddText {
  cmd_pos : ImVec2;
  cmd_col : ImU32;
  text_begin : nat;
  text_end : nat
}.

(** [struct TextSegment]: declared by [FastAnsiParser], used nowhere in
    it. *)
Module TextSegment.
Record t : Type := make {
  text : nat;
  length : nat;
  color : ImU32;
  bold : bool
}.
End TextSegment.

Section FastAnsiParser.

Context {gui : ImGui}.

(** ** FastAnsiParser: constants *)

Definition ANSI_COLORS : list ImU32 := [
  IM_COL32 40 40 40 255;
  IM_COL32 220 80 80 255;
  IM_COL32 80 220 80 255;
  IM_COL32 220 220 80 255;
  IM_COL32 80 80 220 255;
  IM_COL32 220 80 220 255;
  IM_COL32 80 220 220 255;
  IM_COL32 220 220 220 255;
  IM_COL32 160 160 160 255;
  IM_COL32 255 120 120 255;
  IM_COL32 120 255 120 255;
  IM_COL32 255 255 120 255;
  IM_COL32 120 120 255 255;
  IM_COL32 255 120 255 255;
  IM_COL32 120 255 255 255;
  IM_COL32 255 255 255 255
]%Z.

Definition DEFAULT_COLOR : ImU32 := IM_COL32 255 255 255 255.

(** [ANSI_COLORS[i]].  [std::array::operator[]] does not check bounds; the
    index is within 0..15 at every use except in [ansi256ToRgb] at a
    negative [code], which only an overflow in [parseAnsiCode] produces:
    there the source reads out of bounds. *)
Definition ANSI_COLORS_at (i : Z) : ImU32 :=
  if ((0 <=? i) && (i <? 16))%Z
  then nth (Z.to_nat i) ANSI_COLORS (IM_COL32 0 0 0 0)
  else out_of_bounds i.

(** ** parseAnsiCode *)

(** The [while] loop of [parseAnsiCode]; [rest] holds the bytes of
    [[ptr, end)], so [ptr < end] is [rest <> []]. *)
Fixpoint parseAnsiCode_loop (rest : list byte) (ptr : nat) (result : Z)
  : Z * nat :=
  match rest with
  | c :: rest' =>
      if is_digit c
      then parseAnsiCode_loop rest' (S ptr)
             (int_add (int_mul result 10) (int_sub (uchar c) 48))
      else (result, ptr)
  | [] => (result, ptr)
  end.

(** Returns [result] and the advanced [ptr] (a reference parameter in the
    source). *)
Definition parseAnsiCode (text : list byte) (ptr : nat) : Z * nat :=
  parseAnsiCode_loop (skipn ptr text) ptr 0%Z.

(** ** ansi256ToRgb *)

Definition ansi256ToRgb (code : Z) : ImU32 :=
  if (code <? 16)%Z then ANSI_COLORS_at code
  else if (code <? 232)%Z then
    let code := int_sub code 16 in
    let r := int_mul (int_div code 36) 51 in
    let g := int_mul (int_div (int_rem code 36) 6) 51 in
    let b := int_mul (int_rem code 6) 51 in
    IM_COL32 r g b 255
  else
    let gray := int_add 8 (int_mul (int_sub code 232) 10) in
    IM_COL32 gray gray gray 255.

(** ** RenderAnsiText: the local variables *)

(** [availableWidth] is computed by the source and never read. *)
Record State : Type := mkState {
  ptr : nat;
  segmentStart : nat;
  currentColor : ImU32;
  currentBold : bool;
  pos : ImVec2;
  drawList : list DrawCmd
}.

Definition startPos : ImVec2 := GetCursorScreenPos.
Definition lineHeight : Q := GetTextLineHeight.

Definition set_ptr (p : nat) (st : State) : State :=
  mkState p (segmentStart st) (currentColor st) (currentBold st) (pos st)
    (drawList st).

Definition set_segmentStart (p : nat) (st : State) : State :=
  mkState (ptr st) p (currentColor st) (currentBold st) (pos st)
    (drawList st).

Definition set_currentColor (c : ImU32) (st : State) : State :=
  mkState (ptr st) (segmentStart st) c (currentBold st) (pos st)
    (drawList st).

Definition set_currentBold (b : bool) (st : State) : State :=
  mkState (ptr st) (segmentStart st) (currentColor st) b (pos st)
    (drawList st).

Definition set_pos (p : ImVec2) (st : State) : State :=
  mkState (ptr st) (segmentStart st) (currentColor st) (currentBold st) p
    (drawList st).

(** [drawList->AddText(pos, currentColor, first, last)] *)
Definition draw (first last : nat) (st : State) : State :=
  mkState (ptr st) (segmentStart st) (currentColor st) (currentBold st)
    (pos st)
    (drawList st ++ [AddText (pos st) (currentColor st) first last]).

(** ** renderTextSegment *)

(** The block every branch of the lambda opens with:
    [if (current > segStart) { AddText(...); pos.x += CalcTextSize(...).x; }] *)
Definition emit_pending (text : list byte) (segStart current : nat)
  (st : State) : State :=
  if (segStart <? current)%nat then
    let st := draw segStart current st in
    set_pos (ImVec2.make
               (ImVec2.x (pos st)
                + ImVec2.x (CalcTextSize (span text segStart current)))
               (ImVec2.y (pos st))) st
  else st.

(** Move to next line *)
Definition newline (st : State) : State :=
  set_pos (ImVec2.make (ImVec2.x startPos) (ImVec2.y (pos st) + lineHeight)) st.

(** Carriage return - move cursor to start of current line *)
Definition carriage_return (st : State) : State :=
  set_pos (ImVec2.make (ImVec2.x startPos) (ImVec2.y (pos st))) st.

(** Tab - move to next tab stop (8 characters).  The [+ 1] is an addition
    of [int]s.  When ["A"] has no width the quotient is a division by
    zero: an infinity or not a number in the source, which the conversion
    to [int] of x86-64 answers with [INT_MIN].  The [float]s are exact
    rationals here: the source rounds the pen and the quotient before it
    converts, so that next to a tab stop it can select another stop than
    the one computed here. *)
Definition tab (st : State) : State :=
  let charWidth := ImVec2.x (CalcTextSize [UPPER_A]) in
  let tabWidth := charWidth * 8 in
  let currentColumn := ImVec2.x (pos st) - ImVec2.x startPos in
  let quotient :=
    if Qeq_bool tabWidth 0 then INT_MIN
    else float_to_int (currentColumn / tabWidth) in
  let nextTabStop := inject_Z (int_add quotient 1) * tabWidth in
  set_pos (ImVec2.make (ImVec2.x startPos + nextTabStop)
             (ImVec2.y (pos st))) st.

(** Backspace - move cursor back one character; [Qmax a b] is [b] when
    [a < b] and [a] otherwise, as [std::max]. *)
Definition backspace (st : State) : State :=
  let charWidth := ImVec2.x (CalcTextSize [UPPER_A]) in
  set_pos (ImVec2.make
             (Qmax (ImVec2.x startPos) (ImVec2.x (pos st) - charWidth))
             (ImVec2.y (pos st))) st.

(** The inner [while (current < segEnd)] loop and the block after it;
    [rest] holds the bytes of [[current, segEnd)]. *)
Fixpoint renderTextSegment_loop (text rest : list byte)
  (segStart current : nat) (st : State) : State :=
  match rest with
  | c :: rest' =>
      if Byte.eqb c LF then
        let st := newline (emit_pending text segStart current st) in
        renderTextSegment_loop text rest' (S current) (S current) st
      else if Byte.eqb c CR then
        let st := carriage_return (emit_pending text segStart current st) in
        renderTextSegment_loop text rest' (S current) (S current) st
      else if Byte.eqb c TAB then
        let st := tab (emit_pending text segStart current st) in
        renderTextSegment_loop text rest' (S current) (S current) st
      else if Byte.eqb c BS then
        let st := backspace (emit_pending text segStart current st) in
        renderTextSegment_loop text rest' (S current) (S current) st
      else if (uchar c <? 32)%Z && negb (Byte.eqb c ESC) then
        let st := emit_pending text segStart current st in
        renderTextSegment_loop text rest' (S current) (S current) st
      else
        renderTextSegment_loop text rest' segStart (S current) st
  | [] =>
      (* Render any remaining text *)
      emit_pending text segStart current st
  end.

(** The outer [while (segStart < segEnd)] runs its body once: the body
    ends in [break]. *)
Definition renderTextSegment (text : list byte) (segStart segEnd : nat)
  (st : State) : State :=
  if (segStart <? segEnd)%nat
  then renderTextSegment_loop text (span text segStart segEnd)
         segStart segStart st
  else st.

(** ** RenderAnsiText: the escape-sequence loop *)

(** [ptr < end && *ptr == c] *)
Definition looking_at (text : list byte) (p : nat) (c : byte) : bool :=
  (p <? length text)%nat && Byte.eqb (char_at text p) c.

(** The [38;2;R;G;B] branch, entered with [ptr] after the digits of [type]. *)
Definition truecolor (text : list byte) (st : State) : State :=
  if looking_at text (ptr st) SEMI then
    let '(r, p) := parseAnsiCode text (S (ptr st)) in
    let st := set_ptr p st in
    if looking_at text (ptr st) SEMI then
      let '(g, p) := parseAnsiCode text (S (ptr st)) in
      let st := set_ptr p st in
      if looking_at text (ptr st) SEMI then
        let '(b, p) := parseAnsiCode text (S (ptr st)) in
        let st := set_ptr p st in
        set_currentColor (IM_COL32 r g b 255) st
      else st
    else st
  else st.

(** The [if]/[else if] chain on [code], entered with [ptr] after the digits
    of [code]. *)
Definition apply_code (text : list byte) (code : Z) (st : State) : State :=
  if (code =? 0)%Z then
    set_currentBold false (set_currentColor DEFAULT_COLOR st)
  else if (code =? 1)%Z then
    set_currentBold true st
  else if (code =? 22)%Z then
    set_currentBold false st
  else if ((30 <=? code) && (code <=? 37))%Z then
    set_currentColor (ANSI_COLORS_at (int_sub code 30)) st
  else if ((90 <=? code) && (code <=? 97))%Z then
    set_currentColor (ANSI_COLORS_at (int_add (int_sub code 90) 8)) st
  else if (code =? 38)%Z && looking_at text (ptr st) SEMI then
    let '(type, p) := parseAnsiCode text (S (ptr st)) in
    let st := set_ptr p st in
    if (type =? 5)%Z && looking_at text (ptr st) SEMI then
      let '(colorCode, p) := parseAnsiCode text (S (ptr st)) in
      let st := set_ptr p st in
      set_currentColor (ansi256ToRgb colorCode) st
    else if (type =? 2)%Z then
      truecolor text st
    else st
  else st.

(** One iteration of [while (ptr < end && *ptr != 'm')]. *)
Definition escape_iteration (text : list byte) (st : State) : State :=
  let '(code, p) := parseAnsiCode text (ptr st) in
  let st := apply_code text code (set_ptr p st) in
  (* Skip semicolon *)
  if looking_at text (ptr st) SEMI then set_ptr (S (ptr st)) st else st.

(** ** RenderAnsiText: the two loops as one machine

    [Literal]: control is at the head of the outer [while (ptr < end)].
    [InEscape]: control is at the head of the inner
    [while (ptr < end && *ptr != 'm')]. *)
Inductive Mode : Type := Literal | InEscape.

(** One loop iteration, or [None] when the outer loop has ended. *)
Definition step (text : list byte) (cfg : Mode * State)
  : option (Mode * State) :=
  let '(mode, st) := cfg in
  match mode with
  | Literal =>
      if (ptr st <? length text)%nat then
        if Byte.eqb (char_at text (ptr st)) ESC
           && looking_at text (S (ptr st)) LBRACKET
        then
          (* Render text segment before escape sequence *)
          let st :=
            if (segmentStart st <? ptr st)%nat
            then renderTextSegment text (segmentStart st) (ptr st) st
            else st in
          Some (InEscape, set_ptr (ptr st + 2) st)
        else
          Some (Literal, set_ptr (S (ptr st)) st)
      else None
  | InEscape =>
      if (ptr st <? length text)%nat
         && negb (Byte.eqb (char_at text (ptr st)) LOWER_M)
      then Some (InEscape, escape_iteration text st)
      else
        (* Skip 'm' *)
        let st :=
          if looking_at text (ptr st) LOWER_M
          then set_ptr (S (ptr st)) st else st in
        Some (Literal, set_segmentStart (ptr st) st)
  end.

(** Runs the loops for at most [fuel] iterations; [None] when they have
    not ended by then. *)
Fixpoint run (fuel : nat) (text : list byte) (cfg : Mode * State)
  : option State :=
  match step text cfg with
  | None => Some (snd cfg)
  | Some cfg' =>
      match fuel with
      | O => None
      | S fuel' => run fuel' text cfg'
      end
  end.

(** The configuration after [n] iterations, when there are that many. *)
Fixpoint iterate (n : nat) (text : list byte) (cfg : Mode * State)
  : option (Mode * State) :=
  match n with
  | O => Some cfg
  | S n' =>
      match step text cfg with
      | None => None
      | Some cfg' => iterate n' text cfg'
      end
  end.

(** ** RenderAnsiText *)

Definition initial : State :=
  mkState 0 0 DEFAULT_COLOR false startPos [].

(** [if (length > 0) { ... }] after the final segment: the cursor handed to
    [SetCursorScreenPos]. *)
Definition end_of_text (text : list byte) (st : State) : State :=
  let length := length text in
  if (0 <? length)%nat then
    if Byte.eqb (char_at text (length - 1)) LF then
      let st :=
        set_pos (ImVec2.make (ImVec2.x startPos) (ImVec2.y (pos st))) st in
      if (length =? 1)%nat || negb (Byte.eqb (char_at text (length - 2)) CR)
      then set_pos (ImVec2.make (ImVec2.x (pos st))
                      (ImVec2.y (pos st) + lineHeight)) st
      else st
    else if Byte.eqb (char_at text (length - 1)) CR then
      set_pos (ImVec2.make (ImVec2.x startPos) (ImVec2.y (pos st))) st
    else st
  else st.

(** Render final segment *)
Definition final_segment (text : list byte) (st : State) : State :=
  if (segmentStart st <? ptr st)%nat
  then renderTextSegment text (segmentStart st) (ptr st) st
  else st.

(** The body of [FastAnsiParser::RenderAnsiText] on the buffer [text]: the
    local variables when the function returns, [pos] being the argument of
    [ImGui::SetCursorScreenPos]; [None] when the loops are still running
    after [fuel] iterations. *)
Definition RenderAnsiText (fuel : nat) (text : list byte) : option State :=
  match run fuel text (Literal, initial) with
  | Some st => Some (end_of_text text (final_segment text st))
  | None => None
  end.

End FastAnsiParser.

(** ** The buffer of a call

    [RenderAnsiText(text, length)] with a non-null [text] works on
    [[text, text + length)], where a [length] of 0 stands for
    [strlen(text)].  [mem] holds the memory from [text] on. *)
Fixpoint strlen (mem : list byte) : nat :=
  match mem with
  | [] => 0
  | c :: mem' => if Byte.eqb c x00 then 0 else S (strlen mem')
  end.

Definition buffer_of_call (mem : list byte) (length : nat) : list byte :=
  firstn (if (length =? 0)%nat then strlen mem else length) mem.

Section Callers.

Context {gui : ImGui}.

(** ** The callers of FastAnsiParser::RenderAnsiText *)

(** [void RenderAnsiText(const char* text)] calls
    [FastAnsiParser::RenderAnsiText(text)], the length left at its default
    0; [mem] holds the memory from [text] on. *)
Definition RenderAnsiText_cstr (fuel : nat) (mem : list byte)
  : option State :=
  RenderAnsiText fuel (buffer_of_call mem 0).

(** [void RenderAnsiText(const std::string& text)] calls
    [FastAnsiParser::RenderAnsiText(text.c_str(), text.length())]. *)
Definition RenderAnsiText_string (fuel : nat) (text : list byte)
  : option State :=
  RenderAnsiText fuel (buffer_of_call (text ++ [x00]) (length text)).

(** [show_console], for one logger, between [ImGui::Begin] and
    [ImGui::End]: [strLogs += log.message] for every log, then
    [RenderAnsiText(strLogs.c_str())]. *)
Definition show_logs (fuel : nat) (logs : list (list byte)) : option State :=
  let strLogs := fold_left (fun acc message => acc ++ message) logs [] in
  RenderAnsiText_cstr fuel (strLogs ++ [x00]).

End Callers.

(** ** A concrete ImGui, for running the renderer

    The packing of [IM_COL32] is that of imgui.h (R in the low byte, then
    G, B, A, each argument converted to [ImU32]); the font is 8 units wide
    and 16 high, every byte counted as one glyph. *)
Definition pack_IM_COL32 (r g b a : Z) : ImU32 :=
  Z.lor (Z.shiftl (a mod 2 ^ 32) 24 mod 2 ^ 32)
    (Z.lor (Z.shiftl (b mod 2 ^ 32) 16 mod 2 ^ 32)
       (Z.lor (Z.shiftl (g mod 2 ^ 32) 8 mod 2 ^ 32) (r mod 2 ^ 32))).

#[export] Instance monospace : ImGui := {|
  IM_COL32 := pack_IM_COL32;
  CalcTextSize := fun s => ImVec2.make (inject_Z (8 * Z.of_nat (length s))) 16;
  GetTextLineHeight := 16;
  GetCursorScreenPos := ImVec2.make 100 50;
  out_of_bounds := fun _ => 0%Z
|}.

(** A measurement with wide text and a narrow ['A']: every span is 2^24
    units wide, the span ["A"] alone 2^-10. *)
Definition wide_text : ImGui := {|
  IM_COL32 := pack_IM_COL32;
  CalcTextSize := fun s =>
    match s with
    | [c] => if Byte.eqb c UPPER_A then ImVec2.make (1 # 1024) 16
             else ImVec2.make (inject_Z (2 ^ 24)) 16
    | _ => ImVec2.make (inject_Z (2 ^ 24)) 16
    end;
  GetTextLineHeight := 16;
  GetCursorScreenPos := ImVec2.make 100 50;
  out_of_bounds := fun _ => 0%Z
|}.

Definition bytes_of_string (s : string) : list byte :=
  list_byte_of_string s.

Arguments bytes_of_string s%_string_scope.

(** * The vocabulary of the properties *)

(** The number a run of digits denotes. *)
Definition decimal_value (ds : list byte) : Z :=
  fold_left (fun r c => r * 10 + (uchar c - 48))%Z ds 0%Z.

(** [rest] is empty or starts with a byte that is not a digit. *)
Definition no_digit_ahead (rest : list byte) : Prop :=
  match rest with
  | [] => True
  | c :: _ => is_digit c = false
  end.

(** A byte the escape loop passes: a digit or [;]. *)
Definition sgr_byte (c : byte) : Prop := is_digit c = true \/ c = SEMI.

(** A byte that [renderTextSegment] keeps in a span: not below 0x20, or
    [ESC]. *)
Definition kept (c : byte) : Prop := (32 <= uchar c)%Z \/ c = ESC.

(** The two-byte marker [ESC '['] starts at offset [i]. *)
Definition esc_startb (text : list byte) (i : nat) : bool :=
  Byte.eqb (char_at text i) ESC && looking_at text (S i) LBRACKET.

(** What the escape-sequence code leaves alone: it never draws and never
    moves the pen; it moves [ptr] forward and not beyond [end]. *)
Definition frame (text : list byte) (st st' : State) : Prop :=
  segmentStart st' = segmentStart st /\
  pos st' = pos st /\
  drawList st' = drawList st /\
  (ptr st <= ptr st' <= Nat.max (ptr st) (length text))%nat.

(** What [renderTextSegment] leaves alone: the scan position and the
    style. *)
Definition same_scan (st st' : State) : Prop :=
  ptr st' = ptr st /\ segmentStart st' = segmentStart st /\
  currentColor st' = currentColor st /\ currentBold st' = currentBold st.

(** Two states that differ at most in [currentBold]. *)
Definition same_but_bold (st st' : State) : Prop :=
  ptr st' = ptr st /\ segmentStart st' = segmentStart st /\
  currentColor st' = currentColor st /\ pos st' = pos st /\
  drawList st' = drawList st.

(** The head of the escape loop on a byte that is neither a digit, nor
    [;], nor [m]. *)
Definition stuck (text : list byte) (cfg : Mode * State) : Prop :=
  fst cfg = InEscape /\
  (ptr (snd cfg) < length text)%nat /\
  is_digit (char_at text (ptr (snd cfg))) = false /\
  char_at text (ptr (snd cfg)) <> SEMI /\
  char_at text (ptr (snd cfg)) <> LOWER_M.

(** The variant of the two loops. *)
Definition measure (text : list byte) (cfg : Mode * State) : nat :=
  2 * (length text - ptr (snd cfg))
  + match fst cfg with Literal => 0 | InEscape => 1 end.

(** The span of an [AddText]: non-empty, inside the buffer, of kept bytes
    only, and without the marker [ESC '[']. *)
Definition span_ok (text : list byte) (cmd : DrawCmd) : Prop :=
  (text_begin cmd < text_end cmd <= length text)%nat /\
  forall i, (text_begin cmd <= i < text_end cmd)%nat ->
    kept (char_at text i) /\ esc_startb text i = false.

(** The span of an [AddText] lies inside [[first, last)]. *)
Definition span_within (first last : nat) (cmd : DrawCmd) : Prop :=
  (first <= text_begin cmd)%nat /\ (text_end cmd <= last)%nat.

(** The invariant of the two loops: [ptr] is in the buffer, the spans drawn
    so far are well formed, and the pending literal segment
    [[segmentStart, ptr)] holds no marker. *)
Definition scan_ok (text : list byte) (cfg : Mode * State) : Prop :=
  (ptr (snd cfg) <= length text)%nat /\
  Forall (span_ok text) (drawList (snd cfg)) /\
  (fst cfg = Literal ->
   (segmentStart (snd cfg) <= ptr (snd cfg))%nat /\
   forall i, (segmentStart (snd cfg) <= i < ptr (snd cfg))%nat ->
     esc_startb text i = false).

(** Every byte of [[first, last)] satisfies [P]. *)
Definition all_bytes (P : byte -> Prop) (text : list byte)
  (first last : nat) : Prop :=
  forall i, (first <= i < last)%nat -> P (char_at text i).

(** The spans of a draw list come in the order of the buffer, without
    overlap, from [lo] on and up to [hi]. *)
Fixpoint ordered (lo : nat) (dl : list DrawCmd) (hi : nat) : Prop :=
  match dl with
  | [] => (lo <= hi)%nat
  | cmd :: dl' =>
      (lo <= text_begin cmd)%nat /\
      (text_begin cmd < text_end cmd)%nat /\
      ordered (text_end cmd) dl' hi
  end.

(** Offset [i] lies in a span of the draw list. *)
Definition drawn (dl : list DrawCmd) (i : nat) : Prop :=
  exists cmd, In cmd dl /\ (text_begin cmd <= i < text_end cmd)%nat.

(** A control character [renderTextSegment] splits on. *)
Definition control (c : byte) : Prop := (uchar c < 32)%Z /\ c <> ESC.

(** A byte of the syntax of an escape sequence. *)
Definition sgr_syntax (c : byte) : Prop :=
  c = ESC \/ c = LBRACKET \/ sgr_byte c \/ c = LOWER_M.

(** The number of ['\n'] among the first [k] bytes. *)
Definition newlines_before (text : list byte) (k : nat) : nat :=
  count_occ Byte.byte_eq_dec (firstn k text) LF.

(** The buffer ends in ['\n'] and not in ["\r\n"]. *)
Definition ends_in_bare_newline (text : list byte) : bool :=
  (0 <? length text)%nat
  && Byte.eqb (char_at text (length text - 1)) LF
  && ((length text =? 1)%nat
      || negb (Byte.eqb (char_at text (length text - 2)) CR)).

(** The parameters of an escape sequence: the digits of its codes, joined
    by [;]. *)
Fixpoint join_codes (dss : list (list byte)) : list byte :=
  match dss with
  | [] => []
  | ds :: dss' =>
      match dss' with
      | [] => ds
      | _ :: _ => ds ++ SEMI :: join_codes dss'
      end
  end.

(** No run of digits of the buffer denotes a number above [INT_MAX]: on
    such a buffer [parseAnsiCode] does not overflow. *)
Definition no_overflow (text : list byte) : Prop :=
  forall a b, (a <= b <= length text)%nat ->
    all_bytes (fun c => is_digit c = true) text a b ->
    (decimal_value (span text a b) <= INT_MAX)%Z.

(** The scan is at [q], having moved from [p] over digits and [;] only. *)
Definition passes (text : list byte) (p q : nat) : Prop :=
  (p <= q)%nat /\ all_bytes sgr_byte text p q.

(** Every marker [ESC '['] of the buffer is followed by digits and [;] only,
    up to an [m] or up to the end of the buffer. *)
Definition sgr_closed (text : list byte) : Prop :=
  forall i, esc_startb text i = true ->
  exists j,
    (i + 2 <= j <= length text)%nat /\
    all_bytes sgr_byte text (i + 2) j /\
    ((j < length text)%nat -> char_at text j = LOWER_M).

(** In the escape loop, [ptr] has come from behind a marker over digits
    and [;] only. *)
Definition in_sequence (text : list byte) (cfg : Mode * State) : Prop :=
  fst cfg = InEscape ->
  exists i, esc_startb text i = true /\ passes text (i + 2) (ptr (snd cfg)).

(** From [ptr] on every marker is closed, and so is the sequence the
    escape loop is in. *)
Definition closed_from (text : list byte) (cfg : Mode * State) : Prop :=
  (forall i, (ptr (snd cfg) <= i)%nat -> esc_startb text i = true ->
   exists j,
     (i + 2 <= j <= length text)%nat /\
     all_bytes sgr_byte text (i + 2) j /\
     ((j < length text)%nat -> char_at text j = LOWER_M)) /\
  (fst cfg = InEscape ->
   exists j,
     (ptr (snd cfg) <= j <= length text)%nat /\
     all_bytes sgr_byte text (ptr (snd cfg)) j /\
     ((j < length text)%nat -> char_at text j = LOWER_M)).

(** The offset up to which the buffer has been dealt with: the start of
    the pending literal segment, or [ptr] in the escape loop. *)
Definition settled (cfg : Mode * State) : nat :=
  match fst cfg with
  | Literal => segmentStart (snd cfg)
  | InEscape => ptr (snd cfg)
  end.

(** The byte at offset [i] is drawn, or it is a control character, or it is
    a byte of the syntax of escape sequences. *)
Definition accounted (text : list byte) (dl : list DrawCmd) (i : nat)
  : Prop :=
  drawn dl i \/ control (char_at text i) \/ sgr_syntax (char_at text i).

(** The invariant of the two loops on the draw list: its spans are in the
    order of the buffer and end at or before the settled offset, and every
    byte before that offset is accounted for. *)
Definition layout_ok (text : list byte) (cfg : Mode * State) : Prop :=
  (settled cfg <= ptr (snd cfg) <= length text)%nat /\
  ordered 0 (drawList (snd cfg)) (settled cfg) /\
  forall i, (i < settled cfg)%nat -> accounted text (drawList (snd cfg)) i.

(** The escape sequence of the marker at [m] ends at [j]: behind the
    marker come digits and [;] only, up to an [m] at [j] or up to the end
    of the buffer. *)
Definition closing (text : list byte) (m j : nat) : Prop :=
  esc_startb text m = true /\
  (m + 2 <= j <= length text)%nat /\
  all_bytes sgr_byte text (m + 2) j /\
  ((j < length text)%nat -> char_at text j = LOWER_M).

(** Offset [i] lies in an escape sequence, from its [ESC] to its [m]. *)
Definition escaped (text : list byte) (i : nat) : Prop :=
  exists m j, closing text m j /\ (m <= i <= j)%nat.

(** Before offset [s] the draw list and the buffer agree: the spans are in
    order and end at or before [s]; every byte before [s] is drawn, or is
    a control character, or lies in an escape sequence; no drawn byte lies
    in an escape sequence; and the escape sequences that start before [s]
    end before [s]. *)
Definition covered_upto (text : list byte) (dl : list DrawCmd) (s : nat)
  : Prop :=
  ordered 0 dl s /\
  (forall i, (i < s)%nat ->
     drawn dl i \/ control (char_at text i) \/ escaped text i) /\
  (forall i, drawn dl i -> ~ escaped text i) /\
  (forall m j i, closing text m j -> (m < s)%nat -> (m <= i <= j)%nat ->
     (i < length text)%nat -> (i < s)%nat).

(** The invariant of the two loops on what is drawn: the buffer is covered
    up to the start of the pending literal segment, which holds no marker,
    or up to the marker of the escape sequence the loop is in. *)
Definition cover_ok (text : list byte) (cfg : Mode * State) : Prop :=
  exists s,
    (s <= ptr (snd cfg) <= length text)%nat /\
    covered_upto text (drawList (snd cfg)) s /\
    match fst cfg with
    | Literal =>
        s = segmentStart (snd cfg) /\
        forall i, (s <= i < ptr (snd cfg))%nat -> esc_startb text i = false
    | InEscape =>
        esc_startb text s = true /\
        (s + 2 <= ptr (snd cfg))%nat /\
        all_bytes sgr_byte text (s + 2) (ptr (snd cfg))
    end.

Section Vocabulary.

Context {gui : ImGui}.

(** The y of the line that offset [k] is on: one line height down from the
    origin for every ['\n'] before [k]. *)
Definition line_y (text : list byte) (k : nat) : Q :=
  ImVec2.y startPos
  + inject_Z (Z.of_nat (newlines_before text k)) * lineHeight.

(** A run is drawn on the line its first byte is on. *)
Definition on_line (text : list byte) (cmd : DrawCmd) : Prop :=
  ImVec2.y (cmd_pos cmd) == line_y text (text_begin cmd).

(** The invariant of the two loops on the lines: the pen is on the line of
    the settled offset, and every run so far is on the line of its first
    byte. *)
Definition lines_ok (text : list byte) (cfg : Mode * State) : Prop :=
  (settled cfg <= ptr (snd cfg) <= length text)%nat /\
  ImVec2.y (pos (snd cfg)) == line_y text (settled cfg) /\
  Forall (on_line text) (drawList (snd cfg)).

(** Offset [k] is the first of the buffer, or comes right behind a ['\n']
    or a ['\r']. *)
Definition line_start (text : list byte) (k : nat) : Prop :=
  k = 0%nat \/ char_at text (k - 1) = LF \/ char_at text (k - 1) = CR.

(** A run that begins at a line start is drawn at the left margin. *)
Definition at_margin (text : list byte) (cmd : DrawCmd) : Prop :=
  line_start text (text_begin cmd) ->
  ImVec2.x (cmd_pos cmd) = ImVec2.x startPos.

(** The invariant of the two loops on the left margin. *)
Definition margin_ok (text : list byte) (cfg : Mode * State) : Prop :=
  (settled cfg <= ptr (snd cfg) <= length text)%nat /\
  (fst cfg = Literal -> (settled cfg < length text)%nat ->
   line_start text (settled cfg) ->
   ImVec2.x (pos (snd cfg)) = ImVec2.x startPos) /\
  Forall (at_margin text) (drawList (snd cfg)).

(** Where the pen is when the run [cmd] has been drawn: right of its
    position by the measured width of its span, on its line. *)
Definition pen_after (text : list byte) (cmd : DrawCmd) : ImVec2 :=
  ImVec2.make
    (ImVec2.x (cmd_pos cmd)
     + ImVec2.x (CalcTextSize (span text (text_begin cmd) (text_end cmd))))
    (ImVec2.y (cmd_pos cmd)).

(** The run [c2] is drawn right behind the run [c1] when no control
    character lies between their spans. *)
Definition follows (text : list byte) (c1 c2 : DrawCmd) : Prop :=
  all_bytes (fun c => ~ control c) text (text_end c1) (text_begin c2) ->
  cmd_pos c2 = pen_after text c1.

(** The draw list [dl] and the pen [p] when the buffer has been dealt with
    up to [bound]: neighbours in the draw list follow each other, the
    spans end at or before [bound], and the pen is behind the last run
    when no control character lies between that run and [bound]. *)
Definition flow_at (text : list byte) (dl : list DrawCmd) (p : ImVec2)
  (bound : nat) : Prop :=
  (forall l1 c1 c2 l2, dl = l1 ++ c1 :: c2 :: l2 -> follows text c1 c2) /\
  Forall (fun cmd => (text_end cmd <= bound)%nat) dl /\
  (forall l c, dl = l ++ [c] ->
     all_bytes (fun c => ~ control c) text (text_end c) bound ->
     p = pen_after text c).

(** The invariant of the two loops on the flow of the runs. *)
Definition flow_ok (text : list byte) (cfg : Mode * State) : Prop :=
  (settled cfg <= ptr (snd cfg) <= length text)%nat /\
  flow_at text (drawList (snd cfg)) (pos (snd cfg)) (settled cfg).

(** No marker [ESC '['] starts in [[first, last)]. *)
Definition marker_free (text : list byte) (first last : nat) : Prop :=
  forall i, (first <= i < last)%nat -> esc_startb text i = false.

(** The draw list [dl] and the colour [col] when the buffer has been dealt
    with up to [bound]: neighbours in the draw list with no marker between
    them have one colour, the first run has the default colour when no
    marker precedes it, the spans end at or before [bound], and [col] is
    the colour of the last run when no marker lies between that run and
    [bound] (the default colour when nothing is drawn and no marker lies
    before [bound]). *)
Definition colour_at (text : list byte) (dl : list DrawCmd) (col : ImU32)
  (bound : nat) : Prop :=
  (forall l1 c1 c2 l2, dl = l1 ++ c1 :: c2 :: l2 ->
     marker_free text (text_end c1) (text_begin c2) ->
     cmd_col c2 = cmd_col c1) /\
  (forall c l, dl = c :: l ->
     marker_free text 0 (text_begin c) -> cmd_col c = DEFAULT_COLOR) /\
  Forall (fun cmd => (text_end cmd <= bound)%nat) dl /\
  (forall l c, dl = l ++ [c] ->
     marker_free text (text_end c) bound -> col = cmd_col c) /\
  (dl = [] -> marker_free text 0 bound -> col = DEFAULT_COLOR).

(** The invariant of the two loops on the colours: in the escape loop the
    colour is free. *)
Definition colour_ok (text : list byte) (cfg : Mode * State) : Prop :=
  (settled cfg <= ptr (snd cfg) <= length text)%nat /\
  match fst cfg with
  | Literal =>
      colour_at text (drawList (snd cfg)) (currentColor (snd cfg))
        (segmentStart (snd cfg))
  | InEscape =>
      forall col, colour_at text (drawList (snd cfg)) col (ptr (snd cfg))
  end.

(** Code 0: the default colour, not bold. *)
Definition reset_style (st : State) : State :=
  set_currentBold false (set_currentColor DEFAULT_COLOR st).

(** The pen, and the position of every [AddText] so far, are at or right
    of [startPos.x]. *)
Definition pen_ok (st : State) : Prop :=
  ImVec2.x startPos <= ImVec2.x (pos st) /\
  Forall (fun cmd => ImVec2.x startPos <= ImVec2.x (cmd_pos cmd))
    (drawList st).

(** The width of a tab: 8 glyphs ['A']. *)
Definition tab_width : Q := ImVec2.x (CalcTextSize [UPPER_A]) * 8.

(** How far right of the line start the pen can be when [k] bytes have
    been dealt with, every span being at most [Wmax] wide: a span or a
    tab takes at least one byte. *)
Definition reach (Wmax : Q) (k : nat) : Q :=
  inject_Z (Z.of_nat k) * (Wmax + tab_width).

(** [pen_ok], and in a buffer with a tab the pen within reach. *)
Definition pen_within (text : list byte) (Wmax : Q) (k : nat) (st : State)
  : Prop :=
  pen_ok st /\
  (In TAB text -> ImVec2.x (pos st) - ImVec2.x startPos <= reach Wmax k).

(** The invariant of the two loops on the pen. *)
Definition pen_bounded (text : list byte) (Wmax : Q) (cfg : Mode * State)
  : Prop :=
  (settled cfg <= ptr (snd cfg) <= length text)%nat /\
  pen_within text Wmax (settled cfg) (snd cfg).

End Vocabulary.

(** * Lemmas *)

(** ** Every list of bytes is the buffer of a call

    [RenderAnsiText(const std::string& text)] passes [text.c_str()] and
    [text.length()]: the bytes of the string, a NUL behind them. *)
Lemma buffer_of_string (s : list byte) :
  buffer_of_call (s ++ [x00]) (length s) = s.
Proof.
  unfold buffer_of_call. destruct s as [|c s]; [reflexivity|].
  change (length (c :: s) =? 0)%nat with false. cbv iota.
  rewrite firstn_app, firstn_all, Nat.sub_diag.
  cbn [firstn]. apply app_nil_r.
Qed.

(** ** [int] arithmetic within range *)

Lemma wrap_int_small (z : Z) :
  (INT_MIN <= z <= INT_MAX)%Z -> wrap_int z = z.
Proof.
  unfold INT_MIN, INT_MAX, wrap_int. intros H.
  rewrite Z.mod_small; lia.
Qed.

Lemma is_digit_range (c : byte) :
  is_digit c = true -> (0 <= uchar c - 48 <= 9)%Z.
Proof.
  unfold is_digit. rewrite andb_true_iff, !Z.leb_le. lia.
Qed.

(** ** What [parseAnsiCode] returns on a run of digits *)

Lemma decimal_fold_le (ds : list byte) (r : Z) :
  Forall (fun c => is_digit c = true) ds -> (0 <= r)%Z ->
  (r <= fold_left (fun r c => r * 10 + (uchar c - 48)) ds r)%Z.
Proof.
  intros Hds. revert r.
  induction Hds as [|c ds Hc _ IH]; intros r Hr; simpl; [lia|].
  apply is_digit_range in Hc.
  specialize (IH (r * 10 + (uchar c - 48))%Z). lia.
Qed.

Lemma parseAnsiCode_loop_digits (ds rest : list byte) (p : nat) (r : Z) :
  Forall (fun c => is_digit c = true) ds ->
  no_digit_ahead rest ->
  (0 <= r)%Z ->
  (fold_left (fun r c => r * 10 + (uchar c - 48)) ds r <= INT_MAX)%Z ->
  parseAnsiCode_loop (ds ++ rest) p r
  = (fold_left (fun r c => r * 10 + (uchar c - 48))%Z ds r,
     (p + length ds)%nat).
Proof.
  intros Hds Hrest. revert p r.
  induction Hds as [|c ds Hc Hds IH]; intros p r Hr Hmax;
    cbn [parseAnsiCode_loop app fold_left length].
  - rewrite Nat.add_0_r. destruct rest as [|c rest]; [reflexivity|].
    cbn [parseAnsiCode_loop]. simpl in Hrest. now rewrite Hrest.
  - rewrite Hc.
    pose proof (is_digit_range _ Hc) as Hd.
    assert (Hstep : (0 <= r * 10 + (uchar c - 48))%Z) by lia.
    pose proof (decimal_fold_le ds (r * 10 + (uchar c - 48))%Z Hds Hstep)
      as Hle.
    cbn [fold_left] in Hmax.
    assert (Hbound : (r * 10 + (uchar c - 48) <= INT_MAX)%Z) by lia.
    unfold int_add, int_mul, int_sub.
    rewrite (wrap_int_small (uchar c - 48))
      by (unfold INT_MIN, INT_MAX in *; lia).
    rewrite (wrap_int_small (r * 10))
      by (unfold INT_MIN, INT_MAX in *; lia).
    rewrite (wrap_int_small (r * 10 + (uchar c - 48)))
      by (unfold INT_MIN, INT_MAX in *; lia).
    rewrite IH by assumption.
    f_equal. lia.
Qed.

Section Parsing.

Context {gui : ImGui}.

Lemma parseAnsiCode_digits (text ds rest : list byte) (p : nat) :
  skipn p text = ds ++ rest ->
  Forall (fun c => is_digit c = true) ds ->
  no_digit_ahead rest ->
  (decimal_value ds <= INT_MAX)%Z ->
  parseAnsiCode text p = (decimal_value ds, (p + length ds)%nat).
Proof.
  intros Hskip Hds Hrest Hmax. unfold parseAnsiCode. rewrite Hskip.
  apply parseAnsiCode_loop_digits; auto. lia.
Qed.

End Parsing.

(** ** Reading the buffer through a suffix *)

Lemma skipn_cons_bound (text : list byte) (p : nat) (c : byte)
  (l : list byte) :
  skipn p text = c :: l -> (p < length text)%nat.
Proof.
  intros H. destruct (Nat.lt_ge_cases p (length text)) as [Hlt|Hge]; auto.
  rewrite skipn_all2 in H by assumption. discriminate.
Qed.

Lemma skipn_cons_char_at (text : list byte) (p : nat) (c : byte)
  (l : list byte) :
  skipn p text = c :: l -> char_at text p = c.
Proof.
  intros H. unfold char_at.
  rewrite <- (firstn_skipn p text) at 1. rewrite H.
  pose proof (skipn_cons_bound _ _ _ _ H) as Hlt.
  rewrite app_nth2; rewrite length_firstn, Nat.min_l by lia; [|lia].
  now rewrite Nat.sub_diag.
Qed.

Lemma skipn_cons_S (text : list byte) (p : nat) (c : byte) (l : list byte) :
  skipn p text = c :: l -> skipn (S p) text = l.
Proof.
  intros H. replace (S p) with (1 + p)%nat by lia.
  now rewrite <- skipn_skipn, H.
Qed.

Lemma skipn_app_add (text l1 l2 : list byte) (p : nat) :
  skipn p text = l1 ++ l2 -> skipn (p + length l1) text = l2.
Proof.
  intros H. rewrite Nat.add_comm, <- skipn_skipn, H.
  now rewrite skipn_app, skipn_all, Nat.sub_diag.
Qed.

Lemma looking_at_cons (text : list byte) (p : nat) (c c' : byte)
  (l : list byte) :
  skipn p text = c :: l -> looking_at text p c' = Byte.eqb c c'.
Proof.
  intros H. unfold looking_at.
  rewrite (skipn_cons_char_at _ _ _ _ H).
  apply skipn_cons_bound in H. apply Nat.ltb_lt in H. now rewrite H.
Qed.

Lemma byte_eqb_refl (c : byte) : Byte.eqb c c = true.
Proof. now apply Byte.byte_dec_lb. Qed.

Lemma byte_eqb_neq (c c' : byte) : c <> c' -> Byte.eqb c c' = false.
Proof.
  intros H. destruct (Byte.eqb c c') eqn:E; [|reflexivity].
  apply Byte.byte_dec_bl in E. contradiction.
Qed.

Section Palette.

Context {gui : ImGui}.

(** ** The 256-colour palette *)

Lemma ANSI_COLORS_at_inside (i : Z) :
  (0 <= i < 16)%Z ->
  ANSI_COLORS_at i = nth (Z.to_nat i) ANSI_COLORS (IM_COL32 0 0 0 0).
Proof.
  intros H. unfold ANSI_COLORS_at.
  destruct (Z.leb_spec 0 i) as [_|Hlt]; [|lia].
  destruct (Z.ltb_spec i 16) as [_|Hge]; [reflexivity|lia].
Qed.

Lemma ansi256ToRgb_table (N : Z) :
  (0 <= N < 16)%Z ->
  ansi256ToRgb N = nth (Z.to_nat N) ANSI_COLORS (IM_COL32 0 0 0 0).
Proof.
  intros H. unfold ansi256ToRgb.
  destruct (Z.ltb_spec N 16) as [_|Hge]; [|lia].
  now apply ANSI_COLORS_at_inside.
Qed.

Lemma ansi256ToRgb_cube (N : Z) :
  (16 <= N < 232)%Z ->
  ansi256ToRgb N
  = IM_COL32 ((N - 16) / 36 * 51) ((N - 16) mod 36 / 6 * 51)
      ((N - 16) mod 6 * 51) 255.
Proof.
  intros H. unfold ansi256ToRgb.
  destruct (Z.ltb_spec N 16) as [Hlt|_]; [lia|].
  destruct (Z.ltb_spec N 232) as [_|Hge]; [|lia].
  cbv zeta. unfold int_sub, int_div, int_rem, int_mul.
  assert (H0 : (0 <= N - 16 < 216)%Z) by lia.
  rewrite (wrap_int_small (N - 16)) by (unfold INT_MIN, INT_MAX; lia).
  rewrite !Z.quot_div_nonneg, !Z.rem_mod_nonneg by lia.
  pose proof (Z.mod_pos_bound (N - 16) 36 ltac:(lia)) as H36.
  pose proof (Z.mod_pos_bound (N - 16) 6 ltac:(lia)) as H6.
  assert (Hq : (0 <= (N - 16) / 36 < 6)%Z)
    by (split; [apply Z.div_pos; lia | apply Z.div_lt_upper_bound; lia]).
  rewrite (wrap_int_small ((N - 16) / 36))
    by (unfold INT_MIN, INT_MAX; lia).
  rewrite (wrap_int_small ((N - 16) mod 36))
    by (unfold INT_MIN, INT_MAX; lia).
  rewrite (wrap_int_small ((N - 16) mod 6))
    by (unfold INT_MIN, INT_MAX; lia).
  rewrite !Z.quot_div_nonneg by lia.
  assert (Hq6 : (0 <= (N - 16) mod 36 / 6 < 6)%Z)
    by (split; [apply Z.div_pos; lia | apply Z.div_lt_upper_bound; lia]).
  rewrite (wrap_int_small ((N - 16) mod 36 / 6))
    by (unfold INT_MIN, INT_MAX; lia).
  rewrite !wrap_int_small by (unfold INT_MIN, INT_MAX; lia).
  reflexivity.
Qed.

Lemma ansi256ToRgb_gray (N : Z) :
  (232 <= N)%Z ->
  ansi256ToRgb N
  = let gray := int_add 8 (int_mul (int_sub N 232) 10) in
    IM_COL32 gray gray gray 255.
Proof.
  intros H. unfold ansi256ToRgb.
  destruct (Z.ltb_spec N 16) as [Hlt|_]; [lia|].
  destruct (Z.ltb_spec N 232) as [Hlt|_]; [lia|].
  reflexivity.
Qed.

Lemma gray_exact (N : Z) :
  (232 <= N)%Z -> (8 + (N - 232) * 10 <= INT_MAX)%Z ->
  int_add 8 (int_mul (int_sub N 232) 10) = (8 + (N - 232) * 10)%Z.
Proof.
  intros H Hmax. unfold int_add, int_mul, int_sub.
  rewrite (wrap_int_small (N - 232))
    by (unfold INT_MIN, INT_MAX in *; lia).
  rewrite (wrap_int_small ((N - 232) * 10))
    by (unfold INT_MIN, INT_MAX in *; lia).
  apply wrap_int_small. unfold INT_MIN, INT_MAX in *; lia.
Qed.

(** One iteration of the escape loop on [38;5;N], the digits of [N] followed
    by a byte that is not a digit or by the end of the buffer: the colour
    becomes [ansi256ToRgb N], and nothing else changes but [ptr]. *)
Lemma escape_iteration_256 (text ds rest : list byte) (st : State) :
  skipn (ptr st) text = bytes_of_string "38;5;" ++ ds ++ rest ->
  Forall (fun d => is_digit d = true) ds ->
  no_digit_ahead rest ->
  (decimal_value ds <= INT_MAX)%Z ->
  exists p,
    (ptr st + 5 + length ds <= p)%nat /\
    escape_iteration text st
    = set_currentColor (ansi256ToRgb (decimal_value ds)) (set_ptr p st).
Proof.
  intros Hskip Hds Hrest Hmax.
  unfold escape_iteration.
  change (bytes_of_string "38;5;") with ([x33; x38] ++ [SEMI; x35; SEMI])
    in Hskip.
  rewrite <- app_assoc in Hskip.
  rewrite (parseAnsiCode_digits text [x33; x38] _ _ Hskip);
    [ | repeat constructor | reflexivity | unfold INT_MAX; cbv; discriminate ].
  apply skipn_app_add in Hskip. cbn [length app] in Hskip.
  change (decimal_value [x33; x38]) with 38%Z.
  unfold apply_code.
  cbn [Z.eqb Pos.eqb Z.leb Z.compare Pos.compare Pos.compare_cont andb
       ptr set_ptr length].
  rewrite (looking_at_cons _ _ _ SEMI _ Hskip), byte_eqb_refl.
  apply skipn_cons_S in Hskip.
  assert (H5 : skipn (S (ptr st + 2)) text = [x35] ++ SEMI :: ds ++ rest)
    by exact Hskip.
  rewrite (parseAnsiCode_digits text [x35] _ _ H5);
    [ | repeat constructor | reflexivity | unfold INT_MAX; cbv; discriminate ].
  apply skipn_app_add in H5. cbn [length] in H5.
  change (decimal_value [x35]) with 5%Z.
  cbn [Z.eqb Pos.eqb andb ptr set_ptr length].
  rewrite (looking_at_cons _ _ _ SEMI _ H5), byte_eqb_refl.
  apply skipn_cons_S in H5.
  rewrite (parseAnsiCode_digits text ds _ _ H5); auto.
  cbn [ptr set_ptr set_currentColor].
  destruct (looking_at text (S (S (ptr st + 2) + 1) + length ds) SEMI).
  - exists (S (S (S (ptr st + 2) + 1) + length ds)). split; [lia|].
    reflexivity.
  - exists (S (S (ptr st + 2) + 1) + length ds)%nat. split; [lia|].
    reflexivity.
Qed.

End Palette.

(** ** How far the parsing functions move [ptr] *)

Lemma skipn_char_at (text : list byte) (p : nat) :
  (p < length text)%nat ->
  skipn p text = char_at text p :: skipn (S p) text.
Proof.
  revert p. induction text as [|c text IH]; intros p Hp; simpl in Hp.
  - lia.
  - destruct p as [|p]; [reflexivity|].
    cbn [skipn]. rewrite IH by lia. reflexivity.
Qed.

Lemma looking_at_true (text : list byte) (p : nat) (c : byte) :
  looking_at text p c = true ->
  (p < length text)%nat /\ char_at text p = c.
Proof.
  unfold looking_at. rewrite andb_true_iff, Nat.ltb_lt.
  intros [Hlt Heq]. split; [assumption|]. now apply Byte.byte_dec_bl.
Qed.

Lemma parseAnsiCode_loop_bounds (rest : list byte) (p : nat) (r : Z) :
  (p <= snd (parseAnsiCode_loop rest p r) <= p + length rest)%nat.
Proof.
  revert p r. induction rest as [|c rest IH]; intros p r;
    cbn [parseAnsiCode_loop length snd].
  - lia.
  - destruct (is_digit c); cbn [snd]; [|lia].
    specialize (IH (S p) (int_add (int_mul r 10) (int_sub (uchar c) 48))).
    lia.
Qed.

Lemma parseAnsiCode_bounds (text : list byte) (p : nat) :
  (p <= snd (parseAnsiCode text p) <= Nat.max p (length text))%nat.
Proof.
  unfold parseAnsiCode.
  pose proof (parseAnsiCode_loop_bounds (skipn p text) p 0) as H.
  rewrite length_skipn in H. lia.
Qed.

Lemma parseAnsiCode_progress (text : list byte) (p : nat) :
  (p < length text)%nat -> is_digit (char_at text p) = true ->
  (p < snd (parseAnsiCode text p))%nat.
Proof.
  intros Hp Hd. unfold parseAnsiCode. rewrite (skipn_char_at text p Hp).
  cbn [parseAnsiCode_loop]. rewrite Hd.
  pose proof (parseAnsiCode_loop_bounds (skipn (S p) text) (S p)
                (int_add (int_mul 0 10) (int_sub (uchar (char_at text p)) 48))).
  lia.
Qed.

Lemma parseAnsiCode_no_digit (text : list byte) (p : nat) :
  (p < length text)%nat -> is_digit (char_at text p) = false ->
  parseAnsiCode text p = (0%Z, p).
Proof.
  intros Hp Hd. unfold parseAnsiCode. rewrite (skipn_char_at text p Hp).
  cbn [parseAnsiCode_loop]. now rewrite Hd.
Qed.

Section Frame.

Context {gui : ImGui}.

Ltac split_code :=
  repeat match goal with
    | |- context [parseAnsiCode ?t ?p] =>
        let H := fresh "Hparse" in
        pose proof (parseAnsiCode_bounds t p) as H;
        destruct (parseAnsiCode t p) as [? ?];
        cbn [snd fst] in H
    | |- context [looking_at ?t ?p ?c] =>
        let H := fresh "Hlook" in
        destruct (looking_at t p c) eqn:H;
        [apply looking_at_true in H; destruct H as [H _]|];
        cbn [andb]
    | |- context [if ?b then _ else _] => destruct b
    | _ => progress cbn [ptr segmentStart currentColor currentBold pos
                           drawList set_ptr set_currentColor set_currentBold]
                        in *
    end.

Lemma truecolor_frame (text : list byte) (st : State) :
  frame text st (truecolor text st).
Proof.
  unfold frame, truecolor. destruct st as [p ss col b ps dl].
  split_code; repeat split; lia.
Qed.

Lemma apply_code_frame (text : list byte) (code : Z) (st : State) :
  frame text st (apply_code text code st).
Proof.
  unfold apply_code.
  destruct (code =? 0)%Z; [unfold frame; cbn; repeat split; lia|].
  destruct (code =? 1)%Z; [unfold frame; cbn; repeat split; lia|].
  destruct (code =? 22)%Z; [unfold frame; cbn; repeat split; lia|].
  destruct ((30 <=? code) && (code <=? 37))%Z;
    [unfold frame; cbn; repeat split; lia|].
  destruct ((90 <=? code) && (code <=? 97))%Z;
    [unfold frame; cbn; repeat split; lia|].
  destruct (code =? 38)%Z; cbn [andb];
    [|unfold frame; cbn; repeat split; lia].
  destruct (looking_at text (ptr st) SEMI) eqn:Hsemi;
    [|unfold frame; cbn; repeat split; lia].
  apply looking_at_true in Hsemi. destruct Hsemi as [Hlt _].
  pose proof (parseAnsiCode_bounds text (S (ptr st))) as Htype.
  destruct (parseAnsiCode text (S (ptr st))) as [type p]. cbn [snd] in Htype.
  destruct ((type =? 5)%Z && looking_at text (ptr (set_ptr p st)) SEMI)
    eqn:H5.
  - apply andb_true_iff in H5. destruct H5 as [_ H5].
    apply looking_at_true in H5. destruct H5 as [H5 _]. cbn [ptr set_ptr] in *.
    pose proof (parseAnsiCode_bounds text (S p)) as Hcolor.
    destruct (parseAnsiCode text (S p)) as [colorCode q].
    cbn [snd] in Hcolor.
    unfold frame; cbn; repeat split; lia.
  - destruct (type =? 2)%Z.
    + pose proof (truecolor_frame text (set_ptr p st)) as Htc.
      unfold frame in *. cbn [ptr segmentStart pos drawList set_ptr] in Htc.
      destruct Htc as (H1 & H2 & H3 & H4). repeat split; auto; lia.
    + unfold frame; cbn; repeat split; lia.
Qed.

Lemma escape_iteration_frame (text : list byte) (st : State) :
  frame text st (escape_iteration text st).
Proof.
  unfold escape_iteration.
  pose proof (parseAnsiCode_bounds text (ptr st)) as Hcode.
  destruct (parseAnsiCode text (ptr st)) as [code p]. cbn [snd] in Hcode.
  pose proof (apply_code_frame text code (set_ptr p st)) as Hf.
  unfold frame in *. cbn [ptr segmentStart pos drawList set_ptr] in Hf.
  destruct Hf as (H1 & H2 & H3 & H4).
  destruct (looking_at text (ptr (apply_code text code (set_ptr p st))) SEMI)
    eqn:Hsemi.
  - apply looking_at_true in Hsemi. destruct Hsemi as [Hlt _].
    cbn [ptr segmentStart pos drawList set_ptr]. repeat split; auto; lia.
  - repeat split; auto; lia.
Qed.

(** An iteration that starts at a digit or at [;] moves [ptr]. *)
Lemma escape_iteration_progress (text : list byte) (st : State) :
  (ptr st < length text)%nat ->
  is_digit (char_at text (ptr st)) = true \/ char_at text (ptr st) = SEMI ->
  (ptr st < ptr (escape_iteration text st))%nat.
Proof.
  intros Hlt [Hd|Hs].
  - unfold escape_iteration.
    pose proof (parseAnsiCode_progress text (ptr st) Hlt Hd) as Hcode.
    destruct (parseAnsiCode text (ptr st)) as [code p]. cbn [snd] in Hcode.
    pose proof (apply_code_frame text code (set_ptr p st)) as Hf.
    unfold frame in Hf. cbn [ptr set_ptr] in Hf.
    destruct Hf as (_ & _ & _ & H4).
    destruct (looking_at text _ SEMI); cbn [ptr set_ptr]; lia.
  - unfold escape_iteration.
    rewrite parseAnsiCode_no_digit by (auto; now rewrite Hs).
    unfold apply_code. cbn [Z.eqb ptr set_ptr set_currentBold
      set_currentColor].
    unfold looking_at. apply Nat.ltb_lt in Hlt. rewrite Hlt, Hs.
    cbn. lia.
Qed.

End Frame.

Section Machine.

Context {gui : ImGui}.

(** ** What [renderTextSegment] leaves alone *)

Lemma same_scan_refl (st : State) : same_scan st st.
Proof. unfold same_scan. auto. Qed.

Lemma same_scan_trans (st1 st2 st3 : State) :
  same_scan st1 st2 -> same_scan st2 st3 -> same_scan st1 st3.
Proof. unfold same_scan. intuition congruence. Qed.

Lemma emit_pending_same_scan (text : list byte) (a b : nat) (st : State) :
  same_scan st (emit_pending text a b st).
Proof.
  unfold emit_pending, same_scan. destruct (a <? b)%nat; cbn; auto.
Qed.

Lemma renderTextSegment_loop_same_scan (text rest : list byte)
  (segStart current : nat) (st : State) :
  same_scan st (renderTextSegment_loop text rest segStart current st).
Proof.
  revert segStart current st.
  induction rest as [|c rest IH]; intros segStart current st;
    cbn [renderTextSegment_loop].
  - apply emit_pending_same_scan.
  - repeat match goal with
      | |- context [if ?b then _ else _] => destruct b
      end;
      (eapply same_scan_trans; [|apply IH]);
      try apply same_scan_refl;
      (eapply same_scan_trans; [apply emit_pending_same_scan|]);
      unfold same_scan; cbn; auto.
Qed.

Lemma renderTextSegment_same_scan (text : list byte) (a b : nat)
  (st : State) :
  same_scan st (renderTextSegment text a b st).
Proof.
  unfold renderTextSegment. destruct (a <? b)%nat.
  - apply renderTextSegment_loop_same_scan.
  - apply same_scan_refl.
Qed.

Lemma final_segment_same_scan (text : list byte) (st : State) :
  same_scan st (final_segment text st).
Proof.
  unfold final_segment. destruct (segmentStart st <? ptr st)%nat.
  - apply renderTextSegment_same_scan.
  - apply same_scan_refl.
Qed.

(** ** Where the escape loop cannot leave

    At the head of the escape loop, on a byte that is neither a digit, nor
    [;], nor [m]: [parseAnsiCode] reads nothing, code 0 resets the style,
    no semicolon is skipped, and the loop is at its head again, [ptr]
    unchanged. *)
Lemma step_stuck (text : list byte) (st : State) :
  stuck text (InEscape, st) ->
  step text (InEscape, st) = Some (InEscape, reset_style st).
Proof.
  intros (_ & Hlt & Hd & Hs & Hm). cbn [fst snd] in *.
  cbn [step]. apply Nat.ltb_lt in Hlt. rewrite Hlt.
  rewrite (byte_eqb_neq _ _ Hm). cbn [andb negb].
  unfold escape_iteration.
  rewrite parseAnsiCode_no_digit by (auto; now apply Nat.ltb_lt).
  unfold apply_code. cbn [Z.eqb].
  unfold looking_at. cbn [ptr set_ptr set_currentBold set_currentColor].
  rewrite Hlt, (byte_eqb_neq _ _ Hs). cbn [andb].
  destruct st; reflexivity.
Qed.

Lemma reset_style_stuck (text : list byte) (st : State) :
  stuck text (InEscape, st) -> stuck text (InEscape, reset_style st).
Proof. unfold stuck. destruct st; cbn. auto. Qed.

Lemma run_stuck (text : list byte) (fuel : nat) (st : State) :
  stuck text (InEscape, st) -> run fuel text (InEscape, st) = None.
Proof.
  revert st. induction fuel as [|fuel IH]; intros st Hst;
    cbn [run]; rewrite (step_stuck text st Hst); [reflexivity|].
  apply IH. now apply reset_style_stuck.
Qed.

(** [run] and [iterate] *)
Lemma run_iterate (text : list byte) (n : nat) (cfg cfg' : Mode * State) :
  iterate n text cfg = Some cfg' ->
  forall fuel, run (n + fuel) text cfg = run fuel text cfg'.
Proof.
  revert cfg. induction n as [|n IH]; intros cfg Hit fuel; cbn in Hit.
  - now inversion Hit.
  - cbn [Nat.add run]. destruct (step text cfg) as [cfg1|]; [|discriminate].
    now apply IH.
Qed.

Lemma run_more_fuel (text : list byte) (fuel : nat) (cfg : Mode * State)
  (st : State) :
  run fuel text cfg = Some st ->
  forall fuel', (fuel <= fuel')%nat -> run fuel' text cfg = Some st.
Proof.
  revert cfg. induction fuel as [|fuel IH]; intros cfg Hrun fuel' Hle.
  - cbn [run] in Hrun. destruct (step text cfg) eqn:Hstep; [discriminate|].
    destruct fuel'; cbn [run]; now rewrite Hstep.
  - destruct fuel' as [|fuel']; [lia|]. cbn [run] in *.
    destruct (step text cfg) as [cfg1|]; [|assumption].
    apply IH; [assumption|lia].
Qed.

(** Once a reachable configuration is stuck, no amount of fuel ends the
    loops. *)
Lemma run_reaches_stuck (text : list byte) (n : nat)
  (cfg cfg' : Mode * State) :
  iterate n text cfg = Some cfg' -> stuck text cfg' ->
  forall fuel, run fuel text cfg = None.
Proof.
  intros Hit Hstuck fuel.
  destruct (run fuel text cfg) as [st|] eqn:Hrun; [|reflexivity].
  pose proof (run_more_fuel text fuel cfg st Hrun (n + fuel) ltac:(lia)) as H.
  rewrite (run_iterate text n cfg cfg' Hit) in H.
  destruct cfg' as [mode st']. destruct Hstuck as [Hmode Hrest].
  cbn [fst] in Hmode. subst mode.
  rewrite run_stuck in H; [discriminate|].
  split; auto.
Qed.

(** ** The loops end when no configuration is stuck *)

Lemma step_decreases (text : list byte) (cfg cfg' : Mode * State) :
  (ptr (snd cfg) <= length text)%nat ->
  ~ stuck text cfg ->
  step text cfg = Some cfg' ->
  (ptr (snd cfg') <= length text)%nat /\
  (measure text cfg' < measure text cfg)%nat.
Proof.
  destruct cfg as [[|] st]; cbn [step fst snd]; intros Hle Hns Hstep.
  - destruct (Nat.ltb_spec (ptr st) (length text)) as [Hlt|]; [|discriminate].
    destruct (Byte.eqb (char_at text (ptr st)) ESC
              && looking_at text (S (ptr st)) LBRACKET) eqn:Hesc.
    + apply andb_true_iff in Hesc. destruct Hesc as [_ Hlb].
      apply looking_at_true in Hlb. destruct Hlb as [Hlb _].
      inversion Hstep; subst cfg'; clear Hstep.
      assert (Hp : ptr (if (segmentStart st <? ptr st)%nat
                        then renderTextSegment text (segmentStart st)
                               (ptr st) st
                        else st) = ptr st).
      { destruct (segmentStart st <? ptr st)%nat; [|reflexivity].
        apply renderTextSegment_same_scan. }
      unfold measure. cbn [fst snd ptr set_ptr]. rewrite Hp. lia.
    + inversion Hstep; subst cfg'; clear Hstep.
      unfold measure. cbn [fst snd ptr set_ptr]. lia.
  - destruct (Nat.ltb_spec (ptr st) (length text)) as [Hlt|Hge];
      cbn [andb] in Hstep.
    + destruct (Byte.eqb (char_at text (ptr st)) LOWER_M) eqn:Hm;
        cbn [negb] in Hstep; inversion Hstep; subst cfg'; clear Hstep.
      * unfold looking_at. apply Nat.ltb_lt in Hlt. rewrite Hlt, Hm.
        apply Nat.ltb_lt in Hlt.
        unfold measure. cbn [fst snd ptr set_ptr set_segmentStart andb]. lia.
      * pose proof (escape_iteration_frame text st) as (_ & _ & _ & Hf).
        assert (Hprog : (ptr st < ptr (escape_iteration text st))%nat).
        { apply escape_iteration_progress; [assumption|].
          destruct (is_digit (char_at text (ptr st))) eqn:Hd; [now left|].
          right.
          destruct (Byte.byte_eq_dec (char_at text (ptr st)) SEMI)
            as [Hs|Hs]; [assumption|].
          exfalso. apply Hns. repeat split; cbn [fst snd]; auto.
          now apply Byte.eqb_false. }
        unfold measure. cbn [fst snd]. lia.
    + inversion Hstep; subst cfg'; clear Hstep.
      unfold looking_at. apply Nat.ltb_ge in Hge. rewrite Hge.
      apply Nat.ltb_ge in Hge.
      unfold measure. cbn [fst snd ptr set_ptr set_segmentStart andb]. lia.
Qed.

Lemma run_terminates (text : list byte) (fuel : nat) (cfg : Mode * State) :
  (ptr (snd cfg) <= length text)%nat ->
  (forall n cfg', iterate n text cfg = Some cfg' -> ~ stuck text cfg') ->
  (measure text cfg <= fuel)%nat ->
  exists st, run fuel text cfg = Some st.
Proof.
  revert cfg. induction fuel as [|fuel IH]; intros cfg Hle Hns Hfuel.
  - cbn [run]. destruct (step text cfg) as [cfg1|] eqn:Hstep.
    + pose proof (step_decreases text cfg cfg1 Hle (Hns 0%nat cfg eq_refl)
                    Hstep). lia.
    + now exists (snd cfg).
  - cbn [run]. destruct (step text cfg) as [cfg1|] eqn:Hstep.
    + pose proof (step_decreases text cfg cfg1 Hle (Hns 0%nat cfg eq_refl)
                    Hstep) as [Hle1 Hdec].
      apply IH; [assumption| |lia].
      intros n cfg' Hit. apply (Hns (S n)). cbn [iterate].
      now rewrite Hstep.
    + now exists (snd cfg).
Qed.

(** The call returns exactly when the loops never stand on such a byte. *)
Lemma RenderAnsiText_returns_iff (text : list byte) :
  (exists fuel st, RenderAnsiText fuel text = Some st) <->
  (forall n cfg,
     iterate n text (Literal, initial) = Some cfg -> ~ stuck text cfg).
Proof.
  split.
  - intros (fuel & st & H) n cfg Hit Hstuck. unfold RenderAnsiText in H.
    rewrite (run_reaches_stuck text n (Literal, initial) cfg Hit Hstuck fuel)
      in H.
    discriminate.
  - intros Hns.
    destruct (run_terminates text (measure text (Literal, initial))
                (Literal, initial)) as [st Hst]; auto.
    + cbn. lia.
    + exists (measure text (Literal, initial)).
      eexists. unfold RenderAnsiText. rewrite Hst. reflexivity.
Qed.

End Machine.

Section BoldBlind.

Context {gui : ImGui}.

(** ** [currentBold] is written and never read

    Two runs that differ in [currentBold] alone draw the same and move the
    pen the same, iteration by iteration. *)

Lemma same_but_bold_refl (st : State) : same_but_bold st st.
Proof. unfold same_but_bold. auto. Qed.

Lemma same_but_bold_eq (s1 s2 : State) :
  same_but_bold s1 s2 -> s2 = set_currentBold (currentBold s2) s1.
Proof.
  destruct s1, s2. unfold same_but_bold, set_currentBold. cbn.
  intros (-> & -> & -> & -> & ->). reflexivity.
Qed.

Lemma emit_pending_bold (text : list byte) (a b : nat) (x : bool)
  (st : State) :
  emit_pending text a b (set_currentBold x st)
  = set_currentBold x (emit_pending text a b st).
Proof. unfold emit_pending. destruct (a <? b)%nat; reflexivity. Qed.

Lemma renderTextSegment_loop_bold (text rest : list byte) (x : bool) :
  forall (segStart current : nat) (st : State),
  renderTextSegment_loop text rest segStart current (set_currentBold x st)
  = set_currentBold x (renderTextSegment_loop text rest segStart current st).
Proof.
  induction rest as [|c rest IH]; intros segStart current st;
    cbn [renderTextSegment_loop].
  - apply emit_pending_bold.
  - rewrite emit_pending_bold.
    repeat match goal with
      | |- context [if ?b then _ else _] => destruct b
      end; rewrite <- IH; reflexivity.
Qed.

Lemma renderTextSegment_bold (text : list byte) (a b : nat) (x : bool)
  (st : State) :
  renderTextSegment text a b (set_currentBold x st)
  = set_currentBold x (renderTextSegment text a b st).
Proof.
  unfold renderTextSegment. destruct (a <? b)%nat; [|reflexivity].
  apply renderTextSegment_loop_bold.
Qed.

Lemma final_segment_bold (text : list byte) (x : bool) (st : State) :
  final_segment text (set_currentBold x st)
  = set_currentBold x (final_segment text st).
Proof.
  unfold final_segment. cbn [segmentStart ptr set_currentBold].
  destruct (segmentStart st <? ptr st)%nat; [|reflexivity].
  apply renderTextSegment_bold.
Qed.

Lemma end_of_text_bold (text : list byte) (x : bool) (st : State) :
  end_of_text text (set_currentBold x st)
  = set_currentBold x (end_of_text text st).
Proof.
  unfold end_of_text.
  repeat match goal with
    | |- context [if ?b then _ else _] => destruct b
    end; reflexivity.
Qed.

Lemma truecolor_bold (text : list byte) (x : bool) (st : State) :
  truecolor text (set_currentBold x st)
  = set_currentBold x (truecolor text st).
Proof.
  unfold truecolor. cbn [ptr set_currentBold set_ptr].
  repeat match goal with
    | |- context [looking_at ?t ?p ?c] => destruct (looking_at t p c)
    | |- context [parseAnsiCode ?t ?p] => destruct (parseAnsiCode t p)
    | _ => progress cbn [ptr set_currentBold set_ptr]
    end; reflexivity.
Qed.

Lemma apply_code_bold (text : list byte) (code : Z) (x : bool) (st : State) :
  same_but_bold (apply_code text code st)
    (apply_code text code (set_currentBold x st)).
Proof.
  unfold apply_code. cbn [ptr set_currentBold set_ptr].
  repeat match goal with
    | |- context [if (?a =? ?b)%Z then _ else _] => destruct (a =? b)%Z
    | |- context [if (?a && ?b)%bool then _ else _] =>
        destruct (a && b)%bool
    | |- context [parseAnsiCode ?t ?p] => destruct (parseAnsiCode t p)
    | _ => progress cbn [ptr set_currentBold set_ptr]
    end;
    try (unfold same_but_bold; cbn; auto; fail).
  change (set_ptr n (set_currentBold x st))
    with (set_currentBold x (set_ptr n st)).
  rewrite truecolor_bold. unfold same_but_bold. cbn. auto.
Qed.

Lemma escape_iteration_bold (text : list byte) (x : bool) (st : State) :
  same_but_bold (escape_iteration text st)
    (escape_iteration text (set_currentBold x st)).
Proof.
  unfold escape_iteration. cbn [ptr set_currentBold].
  destruct (parseAnsiCode text (ptr st)) as [code p].
  pose proof (apply_code_bold text code x (set_ptr p st)) as H.
  change (set_ptr p (set_currentBold x st))
    with (set_currentBold x (set_ptr p st)).
  destruct H as (Hp & Hs & Hc & Hpos & Hd).
  rewrite Hp.
  destruct (looking_at text (ptr (apply_code text code (set_ptr p st))) SEMI);
    unfold same_but_bold; cbn; auto.
Qed.

Lemma step_bold (text : list byte) (mode : Mode) (s1 s2 : State) :
  same_but_bold s1 s2 ->
  match step text (mode, s1), step text (mode, s2) with
  | Some (m1, t1), Some (m2, t2) => m1 = m2 /\ same_but_bold t1 t2
  | None, None => True
  | _, _ => False
  end.
Proof.
  intros H. rewrite (same_but_bold_eq s1 s2 H).
  generalize (currentBold s2). intros x. clear H s2.
  destruct mode; cbn [step ptr segmentStart set_currentBold].
  - destruct (ptr s1 <? length text)%nat; [|exact I].
    destruct (Byte.eqb (char_at text (ptr s1)) ESC
              && looking_at text (S (ptr s1)) LBRACKET).
    + split; [reflexivity|].
      destruct (segmentStart s1 <? ptr s1)%nat.
      * rewrite renderTextSegment_bold. unfold same_but_bold. cbn. auto.
      * unfold same_but_bold. cbn. auto.
    + split; [reflexivity|]. unfold same_but_bold. cbn. auto.
  - destruct ((ptr s1 <? length text)%nat
              && negb (Byte.eqb (char_at text (ptr s1)) LOWER_M)).
    + split; [reflexivity|]. apply escape_iteration_bold.
    + split; [reflexivity|].
      destruct (looking_at text (ptr s1) LOWER_M);
        unfold same_but_bold; cbn; auto.
Qed.

Lemma run_bold (text : list byte) (fuel : nat) :
  forall (mode : Mode) (s1 s2 : State),
  same_but_bold s1 s2 ->
  match run fuel text (mode, s1), run fuel text (mode, s2) with
  | Some t1, Some t2 => same_but_bold t1 t2
  | None, None => True
  | _, _ => False
  end.
Proof.
  induction fuel as [|fuel IH]; intros mode s1 s2 H; cbn [run snd];
    pose proof (step_bold text mode s1 s2 H) as Hstep;
    destruct (step text (mode, s1)) as [[m1 t1]|];
    destruct (step text (mode, s2)) as [[m2 t2]|];
    try contradiction; auto.
  destruct Hstep as [-> Ht]. now apply IH.
Qed.

(** From any state, setting [currentBold] to any value changes nothing of
    what the rest of the call draws nor of the cursor it hands back. *)
Lemma bold_never_read (text : list byte) (fuel : nat) (mode : Mode)
  (st : State) (x : bool) :
  match run fuel text (mode, st), run fuel text (mode, set_currentBold x st)
  with
  | Some t1, Some t2 =>
      same_but_bold (end_of_text text (final_segment text t1))
        (end_of_text text (final_segment text t2))
  | None, None => True
  | _, _ => False
  end.
Proof.
  assert (H : same_but_bold st (set_currentBold x st))
    by (unfold same_but_bold; cbn; auto).
  pose proof (run_bold text fuel mode st (set_currentBold x st) H) as Hrun.
  destruct (run fuel text (mode, st)) as [t1|];
    destruct (run fuel text (mode, set_currentBold x st)) as [t2|]; auto.
  rewrite (same_but_bold_eq t1 t2 Hrun).
  rewrite final_segment_bold, end_of_text_bold.
  unfold same_but_bold. cbn. auto.
Qed.

End BoldBlind.

Section Pen.

Context {gui : ImGui}.

(** ** The pen never goes left of the line start *)

Hypothesis widths_nonneg :
  forall s : list byte, 0 <= ImVec2.x (CalcTextSize s).

Lemma initial_pen_ok : pen_ok initial.
Proof. split; cbn; [apply Qle_refl|constructor]. Qed.

Lemma emit_pending_pen_ok (text : list byte) (a b : nat) (st : State) :
  pen_ok st -> pen_ok (emit_pending text a b st).
Proof.
  intros [Hpos Hdraw]. unfold emit_pending.
  destruct (a <? b)%nat; [|now split].
  split; cbn.
  - pose proof (widths_nonneg (span text a b)). lra.
  - apply Forall_app. split; [assumption|].
    constructor; [assumption|constructor].
Qed.

Lemma newline_pen_ok (st : State) : pen_ok st -> pen_ok (newline st).
Proof. intros [_ Hdraw]. split; cbn; [apply Qle_refl|assumption]. Qed.

Lemma carriage_return_pen_ok (st : State) :
  pen_ok st -> pen_ok (carriage_return st).
Proof. intros [_ Hdraw]. split; cbn; [apply Qle_refl|assumption]. Qed.

(** The clamp of backspace needs no hypothesis. *)
Lemma backspace_clamped (st : State) :
  ImVec2.x startPos <= ImVec2.x (pos (backspace st)).
Proof. cbn. apply Q.le_max_l. Qed.

Lemma backspace_pen_ok (st : State) : pen_ok st -> pen_ok (backspace st).
Proof.
  intros [_ Hdraw]. split; [apply backspace_clamped|assumption].
Qed.

Lemma end_of_text_pen_ok (text : list byte) (st : State) :
  pen_ok st -> pen_ok (end_of_text text st).
Proof.
  intros [Hpos Hdraw]. unfold end_of_text.
  repeat match goal with
    | |- context [if ?b then _ else _] => destruct b
    end; split; cbn; auto; apply Qle_refl.
Qed.

End Pen.

Section Spans.

Context {gui : ImGui}.

(** ** The spans handed to [AddText] *)

Lemma span_length (text : list byte) (a b : nat) :
  (b <= length text)%nat -> length (span text a b) = (b - a)%nat.
Proof.
  intros H. unfold span. rewrite length_firstn, length_skipn. lia.
Qed.

Lemma span_nth (text : list byte) (a b k : nat) :
  (k < b - a)%nat ->
  nth k (span text a b) x00 = char_at text (a + k).
Proof.
  intros H. unfold span, char_at.
  rewrite nth_firstn. apply Nat.ltb_lt in H. rewrite H.
  now rewrite nth_skipn.
Qed.

Lemma emit_pending_drawList (text : list byte) (a b : nat) (st : State) :
  drawList (emit_pending text a b st)
  = if (a <? b)%nat
    then drawList st ++ [AddText (pos st) (currentColor st) a b]
    else drawList st.
Proof. unfold emit_pending. now destruct (a <? b)%nat. Qed.

Lemma emit_pending_spans (text : list byte) (a b : nat) (st : State) :
  (b <= length text)%nat ->
  (forall i, (a <= i < b)%nat ->
     kept (char_at text i) /\ esc_startb text i = false) ->
  Forall (span_ok text) (drawList st) ->
  Forall (span_ok text) (drawList (emit_pending text a b st)).
Proof.
  intros Hb Hrange Hdraw. rewrite emit_pending_drawList.
  destruct (Nat.ltb_spec a b) as [Hlt|_]; [|assumption].
  apply Forall_app. split; [assumption|].
  constructor; [|constructor]. split; cbn; [lia|assumption].
Qed.

Lemma renderTextSegment_loop_spans (text rest : list byte)
  (segStart current : nat) (st : State) :
  (forall k, (k < length rest)%nat ->
     nth k rest x00 = char_at text (current + k)) ->
  (segStart <= current)%nat ->
  (current + length rest <= length text)%nat ->
  (forall i, (segStart <= i < current)%nat -> kept (char_at text i)) ->
  (forall i, (segStart <= i < current + length rest)%nat ->
     esc_startb text i = false) ->
  Forall (span_ok text) (drawList st) ->
  Forall (span_ok text)
    (drawList (renderTextSegment_loop text rest segStart current st)).
Proof.
  revert segStart current st.
  induction rest as [|c rest IH];
    intros segStart current st Hrest Hle Hend Hkept Hesc Hdraw;
    cbn [renderTextSegment_loop length] in *.
  - apply emit_pending_spans; auto; [lia|].
    intros i Hi. split; [now apply Hkept|apply Hesc; lia].
  - assert (Hc : c = char_at text current).
    { specialize (Hrest 0%nat ltac:(lia)). cbn in Hrest.
      now rewrite Nat.add_0_r in Hrest. }
    assert (Hrest' : forall k, (k < length rest)%nat ->
                       nth k rest x00 = char_at text (S current + k)).
    { intros k Hk. specialize (Hrest (S k) ltac:(lia)). cbn [nth] in Hrest.
      rewrite Hrest. f_equal. lia. }
    assert (Hflush : Forall (span_ok text)
                       (drawList (emit_pending text segStart current st))).
    { apply emit_pending_spans; auto; [lia|].
      intros i Hi. split; [now apply Hkept|apply Hesc; lia]. }
    assert (Hnext : forall st',
               drawList st'
               = drawList (emit_pending text segStart current st) ->
               Forall (span_ok text)
                 (drawList (renderTextSegment_loop text rest (S current)
                              (S current) st'))).
    { intros st' Hst'. apply IH; auto; try lia.
      - intros i Hi. apply Hesc. lia.
      - now rewrite Hst'. }
    destruct (Byte.eqb c LF); [now apply Hnext|].
    destruct (Byte.eqb c CR); [now apply Hnext|].
    destruct (Byte.eqb c TAB); [now apply Hnext|].
    destruct (Byte.eqb c BS); [now apply Hnext|].
    destruct ((uchar c <? 32)%Z && negb (Byte.eqb c ESC)) eqn:Hctl;
      [now apply Hnext|].
    apply IH; auto; try lia.
    + intros i Hi.
      destruct (Nat.eq_dec i current) as [->|Hne]; [|apply Hkept; lia].
      rewrite <- Hc. apply andb_false_iff in Hctl.
      destruct Hctl as [Hge|Hesc'].
      * left. apply Z.ltb_ge in Hge. assumption.
      * right. apply negb_false_iff in Hesc'. now apply Byte.byte_dec_bl.
    + intros i Hi. apply Hesc. lia.
Qed.

Lemma renderTextSegment_spans (text : list byte) (a b : nat) (st : State) :
  (b <= length text)%nat ->
  (forall i, (a <= i < b)%nat -> esc_startb text i = false) ->
  Forall (span_ok text) (drawList st) ->
  Forall (span_ok text) (drawList (renderTextSegment text a b st)).
Proof.
  intros Hb Hesc Hdraw. unfold renderTextSegment.
  destruct (Nat.ltb_spec a b) as [Hlt|_]; [|assumption].
  apply renderTextSegment_loop_spans; auto;
    rewrite ?span_length by assumption.
  - intros k Hk. now apply span_nth.
  - lia.
  - intros i Hi. lia.
  - intros i Hi. apply Hesc. lia.
Qed.

Lemma initial_scan_ok (text : list byte) : scan_ok text (Literal, initial).
Proof.
  split; [cbn; lia|]. split; [constructor|].
  intros _. cbn. split; [lia|]. intros i Hi. lia.
Qed.

Lemma step_scan_ok (text : list byte) (cfg cfg' : Mode * State) :
  step text cfg = Some cfg' -> scan_ok text cfg -> scan_ok text cfg'.
Proof.
  destruct cfg as [[|] st]; cbn [step]; intros Hstep (Hptr & Hdraw & Hlit);
    cbn [fst snd] in *.
  - destruct (Hlit eq_refl) as [Hseg Hesc]. clear Hlit.
    destruct (Nat.ltb_spec (ptr st) (length text)) as [Hlt|]; [|discriminate].
    destruct (Byte.eqb (char_at text (ptr st)) ESC
              && looking_at text (S (ptr st)) LBRACKET) eqn:Hstart;
      inversion Hstep; subst cfg'; clear Hstep.
    + pose proof Hstart as Hlb. apply andb_true_iff in Hlb.
      destruct Hlb as [_ Hlb]. apply looking_at_true in Hlb.
      destruct Hlb as [Hlb _].
      set (st1 := if (segmentStart st <? ptr st)%nat
                  then renderTextSegment text (segmentStart st) (ptr st) st
                  else st).
      assert (Hp : ptr st1 = ptr st).
      { unfold st1. destruct (segmentStart st <? ptr st)%nat; [|reflexivity].
        apply renderTextSegment_same_scan. }
      assert (Hd : Forall (span_ok text) (drawList st1)).
      { unfold st1. destruct (segmentStart st <? ptr st)%nat; [|assumption].
        apply renderTextSegment_spans; auto. }
      split; cbn [fst snd ptr set_ptr drawList]; [lia|].
      split; [assumption|discriminate].
    + split; cbn [fst snd ptr set_ptr segmentStart drawList]; [lia|].
      split; [assumption|]. intros _. split; [lia|].
      intros i Hi. destruct (Nat.eq_dec i (ptr st)) as [->|Hne];
        [assumption|apply Hesc; lia].
  - destruct ((ptr st <? length text)%nat
              && negb (Byte.eqb (char_at text (ptr st)) LOWER_M));
      inversion Hstep; subst cfg'; clear Hstep; cbn [fst snd].
    + pose proof (escape_iteration_frame text st) as (_ & _ & Hd & Hf).
      split; cbn [fst snd]; [lia|]. split; [now rewrite Hd|discriminate].
    + destruct (looking_at text (ptr st) LOWER_M) eqn:Hm.
      * apply looking_at_true in Hm. destruct Hm as [Hm _].
        split;
          cbn [fst snd ptr set_ptr set_segmentStart drawList segmentStart];
          [lia|].
        split; [assumption|]. intros _. split; [lia|]. intros i Hi. lia.
      * split;
          cbn [fst snd ptr set_ptr set_segmentStart drawList segmentStart];
          [lia|].
        split; [assumption|]. intros _. split; [lia|]. intros i Hi. lia.
Qed.

Lemma iterate_scan_ok (text : list byte) (n : nat) (cfg cfg' : Mode * State) :
  iterate n text cfg = Some cfg' -> scan_ok text cfg -> scan_ok text cfg'.
Proof.
  revert cfg. induction n as [|n IH]; intros cfg Hit Hok; cbn [iterate] in Hit.
  - inversion Hit. now subst.
  - destruct (step text cfg) as [cfg1|] eqn:Hstep; [|discriminate].
    apply (IH cfg1 Hit). now apply (step_scan_ok text cfg).
Qed.

Lemma step_None_Literal (text : list byte) (cfg : Mode * State) :
  step text cfg = None ->
  fst cfg = Literal /\ (length text <= ptr (snd cfg))%nat.
Proof.
  destruct cfg as [[|] st]; cbn [step fst snd].
  - destruct (Nat.ltb_spec (ptr st) (length text)); [|auto].
    destruct (_ && _); discriminate.
  - destruct (_ && _); discriminate.
Qed.

Lemma run_scan_ok (text : list byte) (fuel : nat) (cfg : Mode * State)
  (st : State) :
  run fuel text cfg = Some st -> scan_ok text cfg ->
  scan_ok text (Literal, st) /\ ptr st = length text.
Proof.
  revert cfg. induction fuel as [|fuel IH]; intros cfg Hrun Hok;
    cbn [run] in Hrun;
    destruct (step text cfg) as [cfg1|] eqn:Hstep; try discriminate.
  - inversion Hrun; subst st. apply step_None_Literal in Hstep.
    destruct cfg as [mode st]. cbn [fst snd] in *. destruct Hstep; subst mode.
    split; [assumption|]. destruct Hok as [Hp _]. cbn in Hp. lia.
  - apply (IH cfg1 Hrun). now apply (step_scan_ok text cfg).
  - inversion Hrun; subst st. apply step_None_Literal in Hstep.
    destruct cfg as [mode st]. cbn [fst snd] in *. destruct Hstep; subst mode.
    split; [assumption|]. destruct Hok as [Hp _]. cbn in Hp. lia.
Qed.

Lemma final_segment_spans (text : list byte) (st : State) :
  scan_ok text (Literal, st) ->
  Forall (span_ok text) (drawList (final_segment text st)).
Proof.
  intros (Hptr & Hdraw & Hlit). cbn [fst snd] in *.
  destruct (Hlit eq_refl) as [Hseg Hesc].
  unfold final_segment. destruct (segmentStart st <? ptr st)%nat; [|assumption].
  now apply renderTextSegment_spans.
Qed.

Lemma end_of_text_drawList (text : list byte) (st : State) :
  drawList (end_of_text text st) = drawList st.
Proof.
  unfold end_of_text.
  repeat match goal with
    | |- context [if ?b then _ else _] => destruct b
    end; reflexivity.
Qed.

(** What one call of [renderTextSegment] draws lies inside its segment. *)
Lemma emit_pending_within (text : list byte) (a b segStart current : nat)
  (st : State) :
  (a <= segStart)%nat -> (current <= b)%nat ->
  exists new,
    drawList (emit_pending text segStart current st) = drawList st ++ new /\
    Forall (span_within a b) new.
Proof.
  intros Ha Hb. rewrite emit_pending_drawList.
  destruct (segStart <? current)%nat.
  - eexists. split; [reflexivity|].
    constructor; [|constructor]. split; cbn; lia.
  - exists []. split; [now rewrite app_nil_r|constructor].
Qed.

Lemma renderTextSegment_loop_within (text rest : list byte) (a b : nat) :
  forall (segStart current : nat) (st : State),
  (a <= segStart)%nat -> (segStart <= current)%nat ->
  (current + length rest <= b)%nat ->
  exists new,
    drawList (renderTextSegment_loop text rest segStart current st)
    = drawList st ++ new /\
    Forall (span_within a b) new.
Proof.
  induction rest as [|c rest IH]; intros segStart current st Ha Hle Hb;
    cbn [renderTextSegment_loop length] in *.
  - apply emit_pending_within; lia.
  - destruct (emit_pending_within text a b segStart current st Ha)
      as (new1 & Hd1 & Hw1); [lia|].
    assert (Hnext : forall st',
               drawList st'
               = drawList (emit_pending text segStart current st) ->
               exists new,
                 drawList (renderTextSegment_loop text rest (S current)
                             (S current) st')
                 = drawList st ++ new /\
                 Forall (span_within a b) new).
    { intros st' Hst'.
      destruct (IH (S current) (S current) st') as (new2 & Hd2 & Hw2);
        try lia.
      exists (new1 ++ new2). split.
      - now rewrite Hd2, Hst', Hd1, app_assoc.
      - apply Forall_app. now split. }
    destruct (Byte.eqb c LF); [now apply Hnext|].
    destruct (Byte.eqb c CR); [now apply Hnext|].
    destruct (Byte.eqb c TAB); [now apply Hnext|].
    destruct (Byte.eqb c BS); [now apply Hnext|].
    destruct ((uchar c <? 32)%Z && negb (Byte.eqb c ESC));
      [now apply Hnext|].
    apply IH; lia.
Qed.

Lemma renderTextSegment_within (text : list byte) (a b : nat) (st : State) :
  (b <= length text)%nat ->
  exists new,
    drawList (renderTextSegment text a b st) = drawList st ++ new /\
    Forall (span_within a b) new.
Proof.
  intros Hb. unfold renderTextSegment.
  destruct (Nat.ltb_spec a b) as [Hlt|_].
  - apply renderTextSegment_loop_within; try lia.
    rewrite span_length by assumption. lia.
  - exists []. split; [now rewrite app_nil_r|constructor].
Qed.

(** What one iteration draws lies inside the pending literal segment; an
    iteration of the escape loop draws nothing. *)
Lemma step_draws_within (text : list byte) (mode : Mode) (st : State)
  (cfg' : Mode * State) :
  (ptr st <= length text)%nat ->
  step text (mode, st) = Some cfg' ->
  exists new,
    drawList (snd cfg') = drawList st ++ new /\
    Forall (span_within (segmentStart st) (ptr st)) new /\
    (mode = InEscape -> new = []).
Proof.
  intros Hptr Hstep. destruct mode; cbn [step] in Hstep.
  - destruct (ptr st <? length text)%nat; [|discriminate].
    destruct (Byte.eqb (char_at text (ptr st)) ESC
              && looking_at text (S (ptr st)) LBRACKET);
      inversion Hstep; subst cfg'; cbn [snd drawList set_ptr].
    + destruct (segmentStart st <? ptr st)%nat.
      * destruct (renderTextSegment_within text (segmentStart st) (ptr st)
                    st Hptr) as (new & Hd & Hw).
        exists new. repeat split; auto. discriminate.
      * exists []. rewrite app_nil_r. repeat split; auto.
    + exists []. rewrite app_nil_r. repeat split; auto.
  - exists []. rewrite app_nil_r.
    destruct ((ptr st <? length text)%nat
              && negb (Byte.eqb (char_at text (ptr st)) LOWER_M));
      inversion Hstep; subst cfg'; cbn [snd].
    + pose proof (escape_iteration_frame text st) as (_ & _ & Hd & _).
      repeat split; auto.
    + destruct (looking_at text (ptr st) LOWER_M); repeat split; auto.
Qed.

Lemma final_segment_within (text : list byte) (st : State) :
  (ptr st <= length text)%nat ->
  exists new,
    drawList (final_segment text st) = drawList st ++ new /\
    Forall (span_within (segmentStart st) (ptr st)) new.
Proof.
  intros Hptr. unfold final_segment.
  destruct (segmentStart st <? ptr st)%nat.
  - now apply renderTextSegment_within.
  - exists []. split; [now rewrite app_nil_r|constructor].
Qed.

End Spans.

Section PlainText.

Context {gui : ImGui}.

(** ** Text without control characters *)

Lemma uchar_not_control (c : byte) :
  (32 <= uchar c)%Z ->
  Byte.eqb c LF = false /\ Byte.eqb c CR = false /\
  Byte.eqb c TAB = false /\ Byte.eqb c BS = false /\
  Byte.eqb c ESC = false.
Proof.
  intros H.
  repeat split; apply byte_eqb_neq; intros ->; vm_compute in H;
    now apply H.
Qed.

Lemma kept_falls_through (c : byte) :
  kept c ->
  Byte.eqb c LF = false /\ Byte.eqb c CR = false /\
  Byte.eqb c TAB = false /\ Byte.eqb c BS = false /\
  ((uchar c <? 32)%Z && negb (Byte.eqb c ESC)) = false.
Proof.
  intros [H| ->].
  - destruct (uchar_not_control c H) as (H1 & H2 & H3 & H4 & _).
    repeat split; auto.
    apply Z.ltb_ge in H. now rewrite H.
  - repeat split; reflexivity.
Qed.

(** On bytes that are all kept, the loop only moves [current]. *)
Lemma renderTextSegment_loop_kept (text rest : list byte)
  (segStart current : nat) (st : State) :
  Forall kept rest ->
  renderTextSegment_loop text rest segStart current st
  = emit_pending text segStart (current + length rest) st.
Proof.
  intros Hrest. revert current.
  induction Hrest as [|c rest Hc _ IH]; intros current;
    cbn [renderTextSegment_loop length].
  - now rewrite Nat.add_0_r.
  - destruct (kept_falls_through c Hc) as (H1 & H2 & H3 & H4 & H5).
    rewrite H1, H2, H3, H4, H5, IH. f_equal. lia.
Qed.

Lemma step_Literal_plain (text : list byte) (st : State) :
  (ptr st < length text)%nat -> esc_startb text (ptr st) = false ->
  step text (Literal, st) = Some (Literal, set_ptr (S (ptr st)) st).
Proof.
  intros Hlt Hne. cbn [step]. apply Nat.ltb_lt in Hlt. rewrite Hlt.
  unfold esc_startb in Hne. now rewrite Hne.
Qed.

(** Without the marker [ESC '['] ahead, the outer loop walks to the end. *)
Lemma run_plain (text : list byte) (n : nat) :
  forall (st : State) (fuel : nat),
  (ptr st + n = length text)%nat ->
  (forall i, (ptr st <= i < length text)%nat -> esc_startb text i = false) ->
  (n <= fuel)%nat ->
  run fuel text (Literal, st) = Some (set_ptr (length text) st).
Proof.
  induction n as [|n IH]; intros st fuel Hn Hplain Hfuel.
  - assert (Hstep : step text (Literal, st) = None).
    { cbn [step]. destruct (Nat.ltb_spec (ptr st) (length text)); [lia|].
      reflexivity. }
    assert (Hst : set_ptr (length text) st = st).
    { destruct st as [p ss col b ps dl]. cbn [ptr] in Hn. unfold set_ptr.
      cbn [ptr segmentStart currentColor currentBold pos drawList].
      f_equal. lia. }
    rewrite Hst. destruct fuel; cbn [run]; now rewrite Hstep.
  - destruct fuel as [|fuel]; [lia|]. cbn [run].
    rewrite step_Literal_plain by (try apply Hplain; lia).
    rewrite IH; cbn [ptr set_ptr]; try lia.
    + reflexivity.
    + intros i Hi. apply Hplain. lia.
Qed.

Lemma span_all (text : list byte) : span text 0 (length text) = text.
Proof.
  unfold span. cbn [skipn]. rewrite Nat.sub_0_r. apply firstn_all.
Qed.

Lemma char_at_In (text : list byte) (i : nat) :
  (i < length text)%nat -> In (char_at text i) text.
Proof. intros H. unfold char_at. now apply nth_In. Qed.

Lemma kept_not_newline (c : byte) :
  kept c -> Byte.eqb c LF = false /\ Byte.eqb c CR = false.
Proof.
  intros H. destruct (kept_falls_through c H) as (H1 & H2 & _). now split.
Qed.

(** A buffer of kept bytes without the marker [ESC '['] is drawn by one
    [AddText] over the whole of it, at the origin, in the default colour;
    the pen advances by the measured width of the whole buffer. *)
Lemma RenderAnsiText_kept (text : list byte) (fuel : nat) :
  text <> [] ->
  Forall kept text ->
  (forall i, (i < length text)%nat -> esc_startb text i = false) ->
  (length text <= fuel)%nat ->
  RenderAnsiText fuel text
  = Some (mkState (length text) 0 DEFAULT_COLOR false
            (ImVec2.make
               (ImVec2.x startPos + ImVec2.x (CalcTextSize text))
               (ImVec2.y startPos))
            [AddText startPos DEFAULT_COLOR 0 (length text)]).
Proof.
  intros Hne Hkept Hesc Hfuel. unfold RenderAnsiText.
  rewrite (run_plain text (length text) initial fuel);
    [ | reflexivity | intros i Hi; apply Hesc; lia | assumption ].
  assert (Hlen : (0 < length text)%nat)
    by (destruct text; [contradiction|cbn; lia]).
  unfold final_segment. cbn [segmentStart ptr set_ptr initial].
  apply Nat.ltb_lt in Hlen. rewrite Hlen.
  unfold renderTextSegment. rewrite Hlen, span_all.
  rewrite renderTextSegment_loop_kept by assumption.
  cbn [Nat.add]. unfold emit_pending. rewrite Hlen, span_all.
  unfold end_of_text. rewrite Hlen.
  apply Nat.ltb_lt in Hlen.
  assert (Hlast : kept (char_at text (length text - 1))).
  { rewrite Forall_forall in Hkept. apply Hkept, char_at_In. lia. }
  destruct (kept_not_newline _ Hlast) as [Hlf Hcr].
  rewrite Hlf, Hcr. reflexivity.
Qed.

End PlainText.

Section Truncated.

Context {gui : ImGui}.

(** ** An escape sequence cut by the end of the buffer *)

Lemma sgr_byte_not_m (c : byte) : sgr_byte c -> Byte.eqb c LOWER_M = false.
Proof.
  intros [H| ->]; [|reflexivity].
  apply byte_eqb_neq. intros ->. discriminate H.
Qed.

(** From the head of the escape loop, over digits and semicolons up to the
    end of the buffer: the loops end, nothing is drawn and the pen stays. *)
Lemma escape_loop_runs_to_end (text : list byte) (n : nat) :
  forall st : State,
  (length text - ptr st <= n)%nat ->
  (ptr st <= length text)%nat ->
  (forall i, (ptr st <= i < length text)%nat -> sgr_byte (char_at text i)) ->
  exists st',
    run (S n) text (InEscape, st) = Some st' /\
    ptr st' = length text /\ segmentStart st' = length text /\
    pos st' = pos st /\ drawList st' = drawList st.
Proof.
  induction n as [|n IH]; intros st Hn Hle Hsgr;
    destruct (Nat.ltb_spec (ptr st) (length text)) as [Hlt|Hge];
    try lia.
  - (* at the end *)
    exists (set_segmentStart (ptr st) st). cbn [run step].
    apply Nat.ltb_ge in Hge. unfold looking_at. rewrite Hge.
    cbn [andb step ptr set_segmentStart]. rewrite Hge.
    apply Nat.ltb_ge in Hge. cbn. repeat split; lia.
  - (* one more iteration *)
    pose proof (Hsgr (ptr st) ltac:(lia)) as Hc.
    pose proof (escape_iteration_frame text st) as (_ & Hp & Hd & Hf).
    pose proof (escape_iteration_progress text st Hlt Hc) as Hprog.
    destruct (IH (escape_iteration text st))
      as (st' & Hrun & H1 & H2 & H3 & H4);
      try lia.
    { intros i Hi. apply Hsgr. lia. }
    exists st'. split; [|repeat split; congruence].
    change (run (S (S n)) text (InEscape, st))
      with (match step text (InEscape, st) with
            | None => Some st
            | Some cfg' => run (S n) text cfg'
            end).
    cbn [step]. apply Nat.ltb_lt in Hlt. rewrite Hlt, (sgr_byte_not_m _ Hc).
    exact Hrun.
  - (* at the end, with fuel to spare *)
    exists (set_segmentStart (ptr st) st).
    change (run (S (S n)) text (InEscape, st))
      with (match step text (InEscape, st) with
            | None => Some st
            | Some cfg' => run (S n) text cfg'
            end).
    cbn [step]. apply Nat.ltb_ge in Hge. unfold looking_at. rewrite Hge.
    cbn [andb run step ptr set_segmentStart]. rewrite Hge.
    apply Nat.ltb_ge in Hge. cbn. repeat split; lia.
Qed.

(** [ESC '['] followed by digits and semicolons only, up to the end of the
    buffer: the text before it is drawn as the final segment would draw it,
    the loops end, and nothing is left to draw. *)
Lemma truncated_sgr_abandoned (text params : list byte) (st : State) :
  skipn (ptr st) text = ESC :: LBRACKET :: params ->
  Forall sgr_byte params ->
  exists st',
    run (S (S (length params))) text (Literal, st) = Some st' /\
    drawList st' = drawList (final_segment text st) /\
    pos st' = pos (final_segment text st) /\
    final_segment text st' = st'.
Proof.
  intros Hskip Hparams.
  pose proof (skipn_cons_bound _ _ _ _ Hskip) as Hlt.
  pose proof (skipn_cons_char_at _ _ _ _ Hskip) as Hesc.
  pose proof (skipn_cons_S _ _ _ _ Hskip) as H1.
  pose proof (skipn_cons_S _ _ _ _ H1) as H2.
  assert (Hlen : length text = (ptr st + 2 + length params)%nat).
  { apply (f_equal (@length byte)) in Hskip.
    rewrite length_skipn in Hskip. cbn [length] in Hskip. lia. }
  pose proof (final_segment_same_scan text st) as (Hp & _).
  destruct (escape_loop_runs_to_end text (length params)
              (set_ptr (ptr (final_segment text st) + 2)
                 (final_segment text st)))
    as (st' & Hrun & Hptr & Hseg & Hpos & Hdraw);
    cbn [ptr set_ptr]; try lia.
  { intros i Hi. rewrite Hp in Hi.
    rewrite Forall_forall in Hparams. apply Hparams.
    replace i with (S (S (ptr st)) + (i - S (S (ptr st))))%nat by lia.
    unfold char_at. rewrite <- nth_skipn, H2. apply nth_In. lia. }
  exists st'. split; [|split; [|split]].
  - change (run (S (S (length params))) text (Literal, st))
      with (match step text (Literal, st) with
            | None => Some st
            | Some cfg' => run (S (length params)) text cfg'
            end).
    cbn [step]. apply Nat.ltb_lt in Hlt. rewrite Hlt, Hesc.
    rewrite (looking_at_cons _ _ _ LBRACKET _ H1).
    change (Byte.eqb ESC ESC && Byte.eqb LBRACKET LBRACKET) with true.
    cbv iota. exact Hrun.
  - exact Hdraw.
  - exact Hpos.
  - unfold final_segment. rewrite Hptr, Hseg, Nat.ltb_irrefl. reflexivity.
Qed.

End Truncated.

Section EmptyCode.

Context {gui : ImGui}.

(** ** A code without digits

    At the head of the escape loop, zero digits before [;] are code 0: the
    style is reset and the [;] skipped.  On [m] the loop ends before any
    code is parsed: zero digits before [m] change nothing, and [ESC [ m]
    leaves the style as it was. *)
Lemma empty_code_at_loop_head (text : list byte) (st : State) :
  (ptr st < length text)%nat ->
  (char_at text (ptr st) = SEMI ->
   step text (InEscape, st)
   = Some (InEscape, set_ptr (S (ptr st)) (reset_style st))) /\
  (char_at text (ptr st) = LOWER_M ->
   step text (InEscape, st)
   = Some (Literal, set_segmentStart (S (ptr st)) (set_ptr (S (ptr st)) st))) /\
  (forall rest, skipn (ptr st) text = ESC :: LBRACKET :: LOWER_M :: rest ->
   exists st',
     iterate 2 text (Literal, st) = Some (Literal, st') /\
     ptr st' = (ptr st + 3)%nat /\
     currentColor st' = currentColor st /\
     currentBold st' = currentBold st).
Proof.
  intros Hlt. pose proof Hlt as Hltb. apply Nat.ltb_lt in Hltb.
  split; [|split].
  - intros Hs. cbn [step]. rewrite Hltb, Hs. cbn [andb negb Byte.eqb].
    change (Byte.eqb SEMI LOWER_M) with false. cbn [negb].
    unfold escape_iteration.
    rewrite parseAnsiCode_no_digit by (auto; now rewrite Hs).
    unfold apply_code. cbn [Z.eqb].
    unfold looking_at. cbn [ptr set_ptr set_currentBold set_currentColor].
    rewrite Hltb, Hs. destruct st; reflexivity.
  - intros Hm. cbn [step]. rewrite Hltb, Hm.
    change (Byte.eqb LOWER_M LOWER_M) with true. cbn [andb negb].
    unfold looking_at. rewrite Hltb, Hm. reflexivity.
  - intros rest Hskip.
    pose proof (skipn_cons_char_at _ _ _ _ Hskip) as Hesc.
    pose proof (skipn_cons_S _ _ _ _ Hskip) as H1.
    pose proof (skipn_cons_S _ _ _ _ H1) as H2.
    cbn [iterate step]. rewrite Hltb, Hesc.
    rewrite (looking_at_cons _ _ _ LBRACKET _ H1).
    change (Byte.eqb ESC ESC && Byte.eqb LBRACKET LBRACKET) with true.
    cbv iota.
    set (st1 := if (segmentStart st <? ptr st)%nat
                then renderTextSegment text (segmentStart st) (ptr st) st
                else st).
    assert (Hsame : same_scan st st1).
    { unfold st1. destruct (segmentStart st <? ptr st)%nat.
      - apply renderTextSegment_same_scan.
      - apply same_scan_refl. }
    destruct Hsame as (Hp & _ & Hcol & Hbold).
    cbn [ptr set_ptr]. rewrite Hp.
    replace (ptr st + 2)%nat with (S (S (ptr st))) by lia.
    pose proof (skipn_cons_bound _ _ _ _ H2) as Hlt2.
    cbn [step ptr set_ptr].
    apply Nat.ltb_lt in Hlt2. rewrite Hlt2.
    rewrite (skipn_cons_char_at _ _ _ _ H2).
    change (Byte.eqb LOWER_M LOWER_M) with true. cbn [andb negb].
    rewrite (looking_at_cons _ _ _ LOWER_M _ H2).
    change (Byte.eqb LOWER_M LOWER_M) with true. cbv iota.
    eexists. split; [reflexivity|].
    cbn [ptr currentColor currentBold set_ptr set_segmentStart].
    repeat split; auto. lia.
Qed.

End EmptyCode.

(** ** The pen and the tab stops

    A tab converts the quotient of the pen's column by the tab width to an
    [int]: a column of 2^31 tab widths or more is out of the range of the
    conversion.  The lemmas keep the column below 2^30 tab widths, half of
    that range.  With spans at most [Wmax] wide the pen stays within
    [reach]. *)

Lemma float_to_int_inside (q : Q) :
  0 <= q -> q < inject_Z INT_MAX ->
  (0 <= float_to_int q < INT_MAX)%Z /\ inject_Z (float_to_int q) <= q.
Proof.
  intros H0 H1. unfold float_to_int. destruct q as [n d].
  unfold Qle, Qlt, INT_MIN, INT_MAX in *. cbn [Qnum Qden inject_Z] in *.
  cbv zeta.
  assert (Hn : (0 <= n)%Z) by lia.
  rewrite Z.quot_div_nonneg by lia.
  pose proof (Z.mul_div_le n (Z.pos d) ltac:(lia)) as Hfloor.
  assert (Hq0 : (0 <= n / Z.pos d)%Z) by (apply Z.div_pos; lia).
  assert (Hq1 : (n / Z.pos d < 2147483647)%Z)
    by (apply Z.div_lt_upper_bound; lia).
  destruct (Z.leb_spec (-2147483648) (n / Z.pos d)); [|lia].
  destruct (Z.leb_spec (n / Z.pos d) 2147483647); [|lia].
  cbn [andb]. repeat split; lia.
Qed.

Lemma span_length_le (text : list byte) (a b : nat) :
  (length (span text a b) <= length text)%nat.
Proof. unfold span. rewrite length_firstn, length_skipn. lia. Qed.

Section PenReach.

Context {gui : ImGui}.

Variable text : list byte.
Variable Wmax : Q.

Hypothesis widths_nonneg :
  forall s : list byte, 0 <= ImVec2.x (CalcTextSize s).

Hypothesis tabs_in_range :
  In TAB text ->
  (forall a b, ImVec2.x (CalcTextSize (span text a b)) <= Wmax) /\
  reach Wmax (length text) < inject_Z (2 ^ 30) * tab_width.

Lemma tab_width_nonneg : 0 <= tab_width.
Proof. unfold tab_width. pose proof (widths_nonneg [UPPER_A]). lra. Qed.

(** A tab taken with the pen less than 2^30 tab widths right of the line
    start: the pen moves right, by a tab width at most. *)
Lemma tab_in_range (st : State) :
  pen_ok st ->
  ImVec2.x (pos st) - ImVec2.x startPos
  < inject_Z (2 ^ 30) * tab_width ->
  pen_ok (tab st) /\
  ImVec2.x (pos (tab st)) - ImVec2.x startPos
  <= ImVec2.x (pos st) - ImVec2.x startPos + tab_width.
Proof.
  intros [Hpos Hdraw] Hlt.
  pose proof tab_width_nonneg as Htw0.
  set (column := ImVec2.x (pos st) - ImVec2.x startPos) in *.
  assert (Hcol : 0 <= column) by (unfold column; lra).
  assert (Htw : 0 < tab_width).
  { destruct (Qlt_le_dec 0 tab_width) as [H|H]; [exact H|].
    assert (Hz : tab_width == 0) by lra.
    rewrite Hz, Qmult_0_r in Hlt. lra. }
  assert (Hq0 : 0 <= column / tab_width).
  { unfold Qdiv. apply Qmult_le_0_compat; [exact Hcol|].
    apply Qinv_le_0_compat. lra. }
  assert (Hq1 : column / tab_width < inject_Z INT_MAX).
  { apply Qlt_trans with (inject_Z (2 ^ 30)); [|reflexivity].
    apply Qlt_shift_div_r; assumption. }
  destruct (float_to_int_inside (column / tab_width) Hq0 Hq1)
    as (Hn & Hfloor).
  assert (Hback : column / tab_width * tab_width == column).
  { rewrite Qmult_comm. apply Qmult_div_r. lra. }
  assert (Hne : Qeq_bool tab_width 0 = false).
  { destruct (Qeq_bool tab_width 0) eqn:E; [|reflexivity].
    apply Qeq_bool_eq in E. lra. }
  assert (Hx : ImVec2.x (pos (tab st))
               = ImVec2.x startPos
                 + inject_Z (float_to_int (column / tab_width) + 1)
                   * tab_width).
  { change (ImVec2.x (pos (tab st)))
      with (ImVec2.x startPos
            + inject_Z
                (int_add
                   (if Qeq_bool tab_width 0 then INT_MIN
                    else float_to_int (column / tab_width)) 1)
              * tab_width).
    rewrite Hne. unfold int_add.
    rewrite wrap_int_small by (unfold INT_MIN, INT_MAX in *; lia).
    reflexivity. }
  set (q := column / tab_width) in *.
  set (n := float_to_int q) in *.
  assert (Hlow : inject_Z n * tab_width <= q * tab_width)
    by (apply Qmult_le_compat_r; [exact Hfloor|lra]).
  assert (Hsucc : inject_Z (n + 1) * tab_width
                  == inject_Z n * tab_width + tab_width).
  { rewrite inject_Z_plus. change (inject_Z 1) with 1. ring. }
  assert (Hn0 : 0 <= inject_Z n * tab_width).
  { apply Qmult_le_0_compat; [|lra]. unfold Qle. cbn. lia. }
  set (A := inject_Z n * tab_width) in *.
  set (B := q * tab_width) in *.
  set (C := inject_Z (n + 1) * tab_width) in *.
  split.
  - split; [|exact Hdraw]. rewrite Hx. clearbody A B C. lra.
  - rewrite Hx. clearbody A B C. unfold column in *. lra.
Qed.

Lemma Wmax_nonneg : In TAB text -> 0 <= Wmax.
Proof.
  intros Hin. destruct (tabs_in_range Hin) as [Hw _].
  pose proof (Hw 0%nat 0%nat). pose proof (widths_nonneg (span text 0 0)).
  lra.
Qed.

Lemma reach_S (k : nat) :
  reach Wmax (S k) == reach Wmax k + (Wmax + tab_width).
Proof.
  unfold reach. rewrite Nat2Z.inj_succ. unfold Z.succ.
  rewrite inject_Z_plus. change (inject_Z 1) with 1. ring.
Qed.

Lemma reach_le (k k' : nat) :
  In TAB text -> (k <= k')%nat -> reach Wmax k <= reach Wmax k'.
Proof.
  intros Hin Hle. unfold reach. apply Qmult_le_compat_r.
  - unfold Qle. cbn. lia.
  - pose proof (Wmax_nonneg Hin). pose proof tab_width_nonneg. lra.
Qed.

Lemma reach_nonneg (k : nat) : In TAB text -> 0 <= reach Wmax k.
Proof.
  intros Hin. unfold reach. apply Qmult_le_0_compat.
  - unfold Qle. cbn. lia.
  - pose proof (Wmax_nonneg Hin). pose proof tab_width_nonneg. lra.
Qed.

Lemma pen_within_later (k k' : nat) (st : State) :
  pen_within text Wmax k st -> (k <= k')%nat ->
  pen_within text Wmax k' st.
Proof.
  intros [Hok Hb] Hle. split; [exact Hok|]. intros Hin.
  pose proof (reach_le k k' Hin Hle). specialize (Hb Hin). lra.
Qed.

Lemma initial_pen_within : pen_within text Wmax 0 initial.
Proof.
  split; [apply initial_pen_ok|]. intros Hin.
  pose proof (reach_nonneg 0 Hin). cbn [initial pos]. lra.
Qed.

Lemma emit_pending_pen_within (a b : nat) (st : State) :
  pen_within text Wmax a st -> (a <= b)%nat ->
  pen_within text Wmax b (emit_pending text a b st).
Proof.
  intros [Hok Hb] Hle.
  split; [now apply emit_pending_pen_ok|].
  intros Hin. specialize (Hb Hin). unfold emit_pending.
  destruct (Nat.ltb_spec a b) as [Hlt|Hge].
  - cbn [draw set_pos pos ImVec2.x].
    destruct (tabs_in_range Hin) as [Hw _]. specialize (Hw a b).
    pose proof (reach_S a) as HS.
    pose proof (reach_le (S a) b Hin Hlt).
    pose proof tab_width_nonneg. lra.
  - pose proof (reach_le a b Hin Hle). lra.
Qed.

Lemma newline_pen_within (k k' : nat) (st : State) :
  pen_within text Wmax k st -> pen_within text Wmax k' (newline st).
Proof.
  intros [Hok _]. split; [now apply newline_pen_ok|].
  intros Hin. pose proof (reach_nonneg k' Hin).
  cbn [newline set_pos pos ImVec2.x]. lra.
Qed.

Lemma carriage_return_pen_within (k k' : nat) (st : State) :
  pen_within text Wmax k st ->
  pen_within text Wmax k' (carriage_return st).
Proof.
  intros [Hok _]. split; [now apply carriage_return_pen_ok|].
  intros Hin. pose proof (reach_nonneg k' Hin).
  cbn [carriage_return set_pos pos ImVec2.x]. lra.
Qed.

Lemma backspace_pen_within (k : nat) (st : State) :
  pen_within text Wmax k st -> pen_within text Wmax k (backspace st).
Proof.
  intros [Hok Hb]. split; [now apply backspace_pen_ok|].
  intros Hin. specialize (Hb Hin). destruct Hok as [Hpos _].
  cbn [backspace set_pos pos ImVec2.x].
  pose proof (widths_nonneg [UPPER_A]) as Hw.
  assert (Hmax : Qmax (ImVec2.x startPos)
                   (ImVec2.x (pos st) - ImVec2.x (CalcTextSize [UPPER_A]))
                 <= ImVec2.x (pos st))
    by (apply Q.max_lub; lra).
  lra.
Qed.

Lemma tab_pen_within (k : nat) (st : State) :
  In TAB text -> (k < length text)%nat ->
  pen_within text Wmax k st -> pen_within text Wmax (S k) (tab st).
Proof.
  intros Hin Hk [Hok Hb]. specialize (Hb Hin).
  destruct (tabs_in_range Hin) as [_ Hrange].
  pose proof (reach_le k (length text) Hin ltac:(lia)) as Hle.
  destruct (tab_in_range st Hok) as [Hok' Hstep]; [lra|].
  split; [exact Hok'|]. intros _.
  pose proof (reach_S k). pose proof (Wmax_nonneg Hin). lra.
Qed.

(** The inner loop of [renderTextSegment] on bytes of the buffer. *)
Lemma renderTextSegment_loop_pen_within (rest : list byte) :
  forall (segStart current : nat) (st : State),
  (forall k, (k < length rest)%nat ->
     nth k rest x00 = char_at text (current + k)) ->
  (segStart <= current)%nat ->
  (current + length rest <= length text)%nat ->
  pen_within text Wmax segStart st ->
  pen_within text Wmax (current + length rest)
    (renderTextSegment_loop text rest segStart current st).
Proof.
  induction rest as [|c rest IH];
    intros segStart current st Hrest Hle Hend Hpen;
    cbn [renderTextSegment_loop length] in *.
  - rewrite Nat.add_0_r. now apply emit_pending_pen_within.
  - assert (Hc : c = char_at text current).
    { specialize (Hrest 0%nat ltac:(lia)). cbn [nth] in Hrest.
      now rewrite Nat.add_0_r in Hrest. }
    assert (Hrest' : forall k, (k < length rest)%nat ->
                       nth k rest x00 = char_at text (S current + k)).
    { intros k Hk. specialize (Hrest (S k) ltac:(lia)). cbn [nth] in Hrest.
      rewrite Hrest. f_equal. lia. }
    replace (current + S (length rest))%nat
      with (S current + length rest)%nat by lia.
    pose proof (emit_pending_pen_within segStart current st Hpen Hle)
      as Hemit.
    destruct (Byte.eqb c LF).
    { apply IH; auto; try lia.
      now apply (newline_pen_within current). }
    destruct (Byte.eqb c CR).
    { apply IH; auto; try lia.
      now apply (carriage_return_pen_within current). }
    destruct (Byte.eqb c TAB) eqn:HTAB.
    { apply IH; auto; try lia.
      apply tab_pen_within; auto; [|lia].
      apply Byte.byte_dec_bl in HTAB. rewrite <- HTAB, Hc.
      apply char_at_In. lia. }
    destruct (Byte.eqb c BS).
    { apply IH; auto; try lia.
      apply (pen_within_later current); [|lia].
      now apply backspace_pen_within. }
    destruct ((uchar c <? 32)%Z && negb (Byte.eqb c ESC)).
    { apply IH; auto; try lia.
      apply (pen_within_later current); [exact Hemit|lia]. }
    apply IH; auto; lia.
Qed.

Lemma segment_pen_within (s p : nat) (st : State) :
  (s <= p <= length text)%nat ->
  pen_within text Wmax s st ->
  pen_within text Wmax p
    (if (s <? p)%nat then renderTextSegment text s p st else st).
Proof.
  intros Hsp Hpen. destruct (Nat.ltb_spec s p) as [Hlt|Hge].
  - unfold renderTextSegment.
    destruct (Nat.ltb_spec s p) as [_|Hge]; [|lia].
    pose proof (renderTextSegment_loop_pen_within (span text s p) s s st)
      as H.
    rewrite span_length in H by lia.
    replace (s + (p - s))%nat with p in H by lia.
    apply H; auto; try lia. intros k Hk. now apply span_nth.
  - replace p with s by lia. exact Hpen.
Qed.

Lemma initial_pen_bounded : pen_bounded text Wmax (Literal, initial).
Proof.
  split; [cbn; lia|]. apply initial_pen_within.
Qed.

Lemma step_pen_bounded (cfg cfg' : Mode * State) :
  step text cfg = Some cfg' ->
  pen_bounded text Wmax cfg -> pen_bounded text Wmax cfg'.
Proof.
  destruct cfg as [[|] st]; unfold step, pen_bounded, settled;
    cbn [fst snd]; intros Hstep (Hle & Hpen).
  - destruct (Nat.ltb_spec (ptr st) (length text)) as [Hlt|_];
      [|discriminate].
    destruct (Byte.eqb (char_at text (ptr st)) ESC
              && looking_at text (S (ptr st)) LBRACKET) eqn:Hm.
    + assert (Hin : (S (ptr st) < length text)%nat).
      { apply andb_true_iff in Hm. destruct Hm as [_ Hm].
        now apply looking_at_true in Hm. }
      pose proof (segment_pen_within (segmentStart st) (ptr st) st
                    ltac:(lia) Hpen) as Hpen'.
      assert (Hp : ptr (if (segmentStart st <? ptr st)%nat
                        then renderTextSegment text (segmentStart st)
                               (ptr st) st
                        else st) = ptr st).
      { destruct (segmentStart st <? ptr st)%nat; [|reflexivity].
        now destruct (renderTextSegment_same_scan text (segmentStart st)
                        (ptr st) st). }
      inversion Hstep; subst cfg'; clear Hstep.
      cbn [fst snd ptr set_ptr]. rewrite Hp. split; [lia|].
      apply (pen_within_later (ptr st)); [|lia].
      destruct Hpen' as [Hok Hb]. split; [|exact Hb].
      destruct Hok. now split.
    + inversion Hstep; subst cfg'; clear Hstep.
      cbn [fst snd ptr set_ptr segmentStart]. split; [lia|].
      destruct Hpen as [[? ?] Hb]. split; [now split|exact Hb].
  - destruct ((ptr st <? length text)%nat
              && negb (Byte.eqb (char_at text (ptr st)) LOWER_M)) eqn:Hloop.
    + inversion Hstep; subst cfg'; clear Hstep. cbn [fst snd].
      pose proof (escape_iteration_frame text st) as (_ & Hp & Hd & Hfr).
      split; [lia|].
      apply (pen_within_later (ptr st)); [|lia].
      destruct Hpen as [[? ?] Hb].
      split; [split; [now rewrite Hp|now rewrite Hd]|].
      intros Hin. rewrite Hp. now apply Hb.
    + inversion Hstep; subst cfg'; clear Hstep.
      cbn [fst snd ptr segmentStart set_segmentStart].
      destruct (looking_at text (ptr st) LOWER_M) eqn:Hlook.
      * apply looking_at_true in Hlook. destruct Hlook as [Hl _].
        cbn [ptr set_ptr]. split; [lia|].
        apply (pen_within_later (ptr st)); [|lia].
        destruct Hpen as [[? ?] Hb]. split; [now split|exact Hb].
      * split; [lia|].
        destruct Hpen as [[? ?] Hb]. split; [now split|exact Hb].
Qed.

Lemma iterate_pen_bounded (n : nat) :
  forall cfg cfg' : Mode * State,
  iterate n text cfg = Some cfg' ->
  pen_bounded text Wmax cfg -> pen_bounded text Wmax cfg'.
Proof.
  induction n as [|n IH]; intros cfg cfg'; cbn [iterate].
  - intros Heq. inversion Heq; subst. auto.
  - destruct (step text cfg) as [cfg1|] eqn:Hstep; [|discriminate].
    intros Hit Hok. apply (IH cfg1 cfg' Hit).
    now apply (step_pen_bounded cfg cfg1).
Qed.

Lemma run_pen_bounded (fuel : nat) :
  forall (cfg : Mode * State) (st : State),
  run fuel text cfg = Some st -> pen_bounded text Wmax cfg ->
  pen_bounded text Wmax (Literal, st).
Proof.
  assert (Hend : forall (cfg : Mode * State) (st : State),
            step text cfg = None -> Some (snd cfg) = Some st ->
            pen_bounded text Wmax cfg ->
            pen_bounded text Wmax (Literal, st)).
  { intros [mode s] st Hnone Heq Hok. inversion Heq; subst st; clear Heq.
    destruct (step_None_Literal text (mode, s) Hnone) as [Hmode _].
    cbn [fst snd] in *. now subst mode. }
  induction fuel as [|fuel IH]; intros cfg st; cbn [run];
    destruct (step text cfg) as [cfg'|] eqn:Hstep; try discriminate;
    try (now apply Hend).
  intros Hrun Hok. apply (IH cfg' st Hrun).
  now apply (step_pen_bounded cfg cfg').
Qed.

Lemma RenderAnsiText_pen_ok (fuel : nat) (st : State) :
  RenderAnsiText fuel text = Some st -> pen_ok st.
Proof.
  unfold RenderAnsiText.
  destruct (run fuel text (Literal, initial)) as [s|] eqn:Hrun;
    [|discriminate].
  intros Heq. inversion Heq; subst st; clear Heq.
  destruct (run_pen_bounded fuel (Literal, initial) s Hrun
              initial_pen_bounded) as (Hle & Hpen).
  unfold settled in *. cbn [fst snd] in *.
  apply end_of_text_pen_ok. unfold final_segment.
  now destruct (segment_pen_within (segmentStart s) (ptr s) s Hle Hpen).
Qed.

End PenReach.

(** * The properties of the specification *)

Section Claims.

Context {gui : ImGui}.

(** C1.  The parse does not end on every input: inside an escape sequence,
    a byte that is neither a digit, nor [;], nor [m] is never passed.  On
    [ESC [ K] (erase to end of line) the escape loop is still running after
    any number of iterations. *)
Theorem C1_escape_loop_never_passes_other_byte :
  forall fuel : nat,
    RenderAnsiText fuel (ESC :: bytes_of_string "[K") = None.
Proof.
  intros fuel. unfold RenderAnsiText.
  rewrite (run_reaches_stuck (ESC :: bytes_of_string "[K") 1
             (Literal, initial) (InEscape, set_ptr 2 initial));
    [reflexivity|reflexivity|].
  repeat split; cbn; try lia; discriminate.
Qed.

(** C2.  The bold flag does not reach the sink: [AddText] receives the pen
    position, the colour and the span.  After [ESC [ 1 m] the run of [X] is
    drawn with the same arguments as after [ESC [ 0 m], while
    [currentBold] differs; and from any state, another value of
    [currentBold] changes nothing of what the rest of the call draws. *)
Theorem C2_bold_not_passed_to_AddText :
  (exists bold plain : State,
     RenderAnsiText 5 (ESC :: bytes_of_string "[1mX") = Some bold /\
     RenderAnsiText 5 (ESC :: bytes_of_string "[0mX") = Some plain /\
     currentBold bold = true /\
     currentBold plain = false /\
     drawList bold = [AddText startPos DEFAULT_COLOR 4 5] /\
     drawList plain = drawList bold) /\
  (forall (text : list byte) (fuel : nat) (mode : Mode) (st : State)
          (x : bool),
     match run fuel text (mode, st),
           run fuel text (mode, set_currentBold x st) with
     | Some t1, Some t2 =>
         drawList (end_of_text text (final_segment text t2))
         = drawList (end_of_text text (final_segment text t1)) /\
         pos (end_of_text text (final_segment text t2))
         = pos (end_of_text text (final_segment text t1))
     | None, None => True
     | _, _ => False
     end).
Proof.
  split.
  - eexists. eexists.
    split; [vm_compute; reflexivity|]. split; [vm_compute; reflexivity|].
    repeat split.
  - intros text fuel mode st x.
    pose proof (bold_never_read text fuel mode st x) as H.
    destruct (run fuel text (mode, st)) as [t1|];
      destruct (run fuel text (mode, set_currentBold x st)) as [t2|]; auto.
    destruct H as (_ & _ & _ & Hpos & Hdraw). now split.
Qed.

(** C3.  Zero digits before the terminating [m] are not read as code 0:
    the escape loop ends on [m] before it parses a code, so [ESC [ m] does
    not reset the style.  After [ESC [ 31 ; 1 m], [Y] is still drawn in
    palette colour 1 behind [ESC [ m], and bold is still set; behind
    [ESC [ ; m], where the empty code stands before [;], [Y] is drawn in
    the default colour and bold is cleared. *)
Theorem C3_empty_sequence_does_not_reset :
  exists kept_style reset : State,
    RenderAnsiText 12
      (ESC :: bytes_of_string "[31;1mX" ++ ESC :: bytes_of_string "[mY")
    = Some kept_style /\
    map cmd_col (drawList kept_style)
    = [IM_COL32 220 80 80 255; IM_COL32 220 80 80 255] /\
    map text_begin (drawList kept_style) = [7; 11]%nat /\
    currentColor kept_style = IM_COL32 220 80 80 255 /\
    currentBold kept_style = true /\
    RenderAnsiText 13
      (ESC :: bytes_of_string "[31;1mX" ++ ESC :: bytes_of_string "[;mY")
    = Some reset /\
    map cmd_col (drawList reset) = [IM_COL32 220 80 80 255; DEFAULT_COLOR] /\
    map text_begin (drawList reset) = [7; 12]%nat /\
    currentColor reset = DEFAULT_COLOR /\
    currentBold reset = false.
Proof.
  eexists. eexists.
  split; [vm_compute; reflexivity|].
  do 4 (split; [reflexivity|]).
  split; [vm_compute; reflexivity|].
  repeat split.
Qed.

(** C4 (amended).  A non-empty input with no ESC byte and no byte below
    0x20 is drawn by exactly one [AddText], over the whole input, at the
    origin, with the default style. *)
Theorem C4_plain_text_is_one_run (text : list byte) (fuel : nat) :
  text <> [] ->
  ~ In ESC text ->
  Forall (fun c => (32 <= uchar c)%Z) text ->
  (length text <= fuel)%nat ->
  exists st,
    RenderAnsiText fuel text = Some st /\
    drawList st = [AddText startPos DEFAULT_COLOR 0 (length text)] /\
    currentColor st = DEFAULT_COLOR /\
    currentBold st = false.
Proof.
  intros Hne Hesc Hplain Hfuel.
  rewrite (RenderAnsiText_kept text fuel); auto.
  - eexists. split; [reflexivity|]. repeat split.
  - eapply Forall_impl; [|exact Hplain]. intros c Hc. now left.
  - intros i Hi. unfold esc_startb.
    rewrite byte_eqb_neq; [reflexivity|].
    intros Heq. apply Hesc. rewrite <- Heq. now apply char_at_In.
Qed.

(** C5.  The colour index [N] of [38;5;N], for [N] in 0..255: below 16 the
    foreground becomes entry [N] of [ANSI_COLORS]; from 16 to 231 the cube
    colour; from 232 to 255 the gray [8 + (N - 232) * 10]; index 21 is
    pure blue. *)
Theorem C5_ansi256_palette (text ds rest : list byte) (st : State) (N : Z) :
  skipn (ptr st) text = bytes_of_string "38;5;" ++ ds ++ rest ->
  Forall (fun d => is_digit d = true) ds ->
  no_digit_ahead rest ->
  decimal_value ds = N ->
  (0 <= N <= 255)%Z ->
  let fg := currentColor (escape_iteration text st) in
  ((N < 16)%Z -> fg = nth (Z.to_nat N) ANSI_COLORS (IM_COL32 0 0 0 0)) /\
  ((16 <= N <= 231)%Z ->
   fg = IM_COL32 ((N - 16) / 36 * 51) ((N - 16) mod 36 / 6 * 51)
          ((N - 16) mod 6 * 51) 255) /\
  ((232 <= N <= 255)%Z ->
   fg = IM_COL32 (8 + (N - 232) * 10) (8 + (N - 232) * 10)
          (8 + (N - 232) * 10) 255) /\
  (N = 21%Z -> fg = IM_COL32 0 0 255 255).
Proof.
  intros Hskip Hds Hrest HN Hrange fg.
  destruct (escape_iteration_256 text ds rest st Hskip Hds Hrest)
    as (p & _ & Heq); [rewrite HN; unfold INT_MAX; lia|].
  assert (Hfg : fg = ansi256ToRgb N)
    by (unfold fg; rewrite Heq, HN; reflexivity).
  rewrite Hfg. repeat split.
  - intros H. apply ansi256ToRgb_table. lia.
  - intros H. apply ansi256ToRgb_cube. lia.
  - intros H. rewrite ansi256ToRgb_gray by lia. cbv zeta.
    rewrite gray_exact by (unfold INT_MAX; lia). reflexivity.
  - intros ->. reflexivity.
Qed.

(** C6.  An escape sequence still open at the end of the buffer is not
    always abandoned: when it holds a byte that is neither a digit nor [;],
    the call never returns.  On ["a" ESC "[?25"] (a cursor-visibility
    sequence cut before its final byte) the escape loop stays at [?]. *)
Theorem C6_open_escape_not_abandoned :
  forall fuel : nat,
    RenderAnsiText fuel (bytes_of_string "a" ++ ESC :: bytes_of_string "[?25")
    = None.
Proof.
  intros fuel. unfold RenderAnsiText.
  set (text := bytes_of_string "a" ++ ESC :: bytes_of_string "[?25").
  assert (Hit : exists st, iterate 2 text (Literal, initial)
                           = Some (InEscape, st) /\ ptr st = 3%nat)
    by (eexists; split; reflexivity).
  destruct Hit as (st & Hit & Hp).
  rewrite (run_reaches_stuck text 2 (Literal, initial) (InEscape, st));
    [reflexivity|assumption|].
  repeat split; cbn [fst snd]; rewrite Hp; cbn; try lia; discriminate.
Qed.


(** C9.  The correction at the end of the buffer changes the cursor handed
    back and nothing that was drawn.  Last byte [\n]: x goes to the line
    start and y one line down, unless the buffer ends in [\r\n], where only
    x is reset.  Last byte [\r]: x is reset, y kept.  Otherwise the cursor
    is the pen after the last segment. *)
Theorem C9_end_of_buffer_correction (text : list byte) (fuel : nat)
  (st : State) :
  RenderAnsiText fuel text = Some st ->
  exists scanned,
    run fuel text (Literal, initial) = Some scanned /\
    let last := final_segment text scanned in
    drawList st = drawList last /\
    (forall pre, text = pre ++ [LF] ->
       (forall pre', pre <> pre' ++ [CR]) ->
       pos st = ImVec2.make (ImVec2.x startPos)
                  (ImVec2.y (pos last) + lineHeight)) /\
    (forall pre, text = pre ++ [CR; LF] ->
       pos st = ImVec2.make (ImVec2.x startPos) (ImVec2.y (pos last))) /\
    (forall pre, text = pre ++ [CR] ->
       pos st = ImVec2.make (ImVec2.x startPos) (ImVec2.y (pos last))) /\
    (text = [] \/ (exists pre c, text = pre ++ [c] /\ c <> LF /\ c <> CR) ->
       pos st = pos last).
Proof.
  intros H. unfold RenderAnsiText in H.
  destruct (run fuel text (Literal, initial)) as [scanned|] eqn:Hrun;
    [|discriminate].
  inversion H; subst st; clear H.
  exists scanned. split; [reflexivity|]. cbv zeta.
  set (last := final_segment text scanned).
  assert (Hlast : forall (pre : list byte) (c : byte),
             char_at (pre ++ [c]) (length (pre ++ [c]) - 1) = c).
  { intros pre c. unfold char_at. rewrite length_app. cbn [length].
    rewrite app_nth2 by lia.
    replace (length pre + 1 - 1 - length pre)%nat with 0%nat by lia.
    reflexivity. }
  assert (Hpos : forall (pre : list byte) (c : byte),
             (0 <? length (pre ++ [c]))%nat = true).
  { intros pre c. apply Nat.ltb_lt. rewrite length_app. cbn. lia. }
  split; [apply end_of_text_drawList|].
  split; [|split; [|split]].
  - intros pre -> Hcr. unfold end_of_text.
    rewrite Hpos, Hlast. change (Byte.eqb LF LF) with true. cbv iota.
    destruct pre as [|c0 pre0] using rev_ind.
    + reflexivity.
    + clear IHpre0.
      replace (length ((pre0 ++ [c0]) ++ [LF]) - 2)%nat
        with (length (pre0 ++ [c0]) - 1)%nat
        by (rewrite !length_app; cbn; lia).
      unfold char_at at 1. rewrite app_nth1
        by (rewrite length_app; cbn; lia).
      fold (char_at (pre0 ++ [c0]) (length (pre0 ++ [c0]) - 1)).
      rewrite Hlast.
      rewrite byte_eqb_neq
        by (intros ->; now apply (Hcr pre0)).
      rewrite orb_true_r. reflexivity.
  - intros pre ->. unfold end_of_text.
    replace (pre ++ [CR; LF]) with ((pre ++ [CR]) ++ [LF])
      by (now rewrite <- app_assoc).
    rewrite Hpos, Hlast. change (Byte.eqb LF LF) with true. cbv iota.
    replace (length ((pre ++ [CR]) ++ [LF]) - 2)%nat
      with (length (pre ++ [CR]) - 1)%nat
      by (rewrite !length_app; cbn; lia).
    unfold char_at at 1. rewrite app_nth1
      by (rewrite length_app; cbn; lia).
    fold (char_at (pre ++ [CR]) (length (pre ++ [CR]) - 1)).
    rewrite Hlast. change (Byte.eqb CR CR) with true.
    replace (length ((pre ++ [CR]) ++ [LF]) =? 1)%nat with false
      by (symmetry; apply Nat.eqb_neq; rewrite !length_app; cbn; lia).
    reflexivity.
  - intros pre ->. unfold end_of_text.
    rewrite Hpos, Hlast. reflexivity.
  - intros [->|(pre & c & -> & Hlf & Hcr)].
    + reflexivity.
    + unfold end_of_text. rewrite Hpos, Hlast.
      now rewrite (byte_eqb_neq _ _ Hlf), (byte_eqb_neq _ _ Hcr).
Qed.

(** C10 (amended).  [ansi256ToRgb] applies the gray formula to every index
    from 232 on, with no clamp and no range check: the colour is
    [IM_COL32(gray, gray, gray, 255)] with [gray = 8 + (N - 232) * 10]
    computed on [int]s, also for the index parsed from [38;5;N].  While the
    formula fits an [int] the value is exact: index 256 hands the channel
    248 to [IM_COL32], every index from 257 on a channel above 255. *)
Theorem C10_gray_not_clamped (N : Z) :
  (232 <= N <= INT_MAX)%Z ->
  let gray := int_add 8 (int_mul (int_sub N 232) 10) in
  ansi256ToRgb N = IM_COL32 gray gray gray 255 /\
  (forall text ds rest st,
     skipn (ptr st) text = bytes_of_string "38;5;" ++ ds ++ rest ->
     Forall (fun d => is_digit d = true) ds ->
     no_digit_ahead rest ->
     decimal_value ds = N ->
     currentColor (escape_iteration text st)
     = IM_COL32 gray gray gray 255) /\
  ((8 + (N - 232) * 10 <= INT_MAX)%Z ->
   gray = (8 + (N - 232) * 10)%Z /\
   (N = 256%Z -> gray = 248%Z) /\
   ((257 <= N)%Z -> (255 < gray)%Z)).
Proof.
  intros HN gray.
  assert (Hgray : ansi256ToRgb N = IM_COL32 gray gray gray 255)
    by (apply ansi256ToRgb_gray; lia).
  split; [exact Hgray|]. split.
  - intros text ds rest st Hskip Hds Hrest Hval.
    destruct (escape_iteration_256 text ds rest st Hskip Hds Hrest)
      as (p & _ & Heq); [rewrite Hval; lia|].
    rewrite Heq, Hval. exact Hgray.
  - intros Hfit.
    assert (Hexact : gray = (8 + (N - 232) * 10)%Z)
      by (apply gray_exact; lia).
    clearbody gray. unfold INT_MAX in *.
    split; [exact Hexact|]. split; intros H; lia.
Qed.

End Claims.

(** * The properties at concrete inputs *)

(** C4: the empty input has no ESC byte and no control character, and
    nothing is drawn for it: not exactly one run. *)
Lemma C4_counterexample :
  ~ In ESC [] /\
  Forall (fun c => (32 <= uchar c)%Z) [] /\
  exists st,
    RenderAnsiText (gui := monospace) 0 [] = Some st /\
    drawList st = [] /\
    length (drawList st) <> 1%nat.
Proof.
  split; [intros []|]. split; [constructor|].
  eexists. split; [reflexivity|]. split; [reflexivity|]. discriminate.
Qed.

Lemma C4_witness :
  exists st,
    RenderAnsiText (gui := monospace) 5 (bytes_of_string "hello") = Some st /\
    drawList st = [AddText startPos DEFAULT_COLOR 0 5] /\
    currentColor st = DEFAULT_COLOR /\
    currentBold st = false.
Proof.
  apply (C4_plain_text_is_one_run (gui := monospace)
           (bytes_of_string "hello") 5).
  - discriminate.
  - cbn. intuition discriminate.
  - repeat constructor; discriminate.
  - cbn. lia.
Defined.

Lemma C5_witness :
  currentColor
    (escape_iteration (gui := monospace)
       (ESC :: bytes_of_string "[38;5;21m") (set_ptr 2 initial))
  = IM_COL32 0 0 255 255.
Proof.
  apply (C5_ansi256_palette (gui := monospace)
           (ESC :: bytes_of_string "[38;5;21m") (bytes_of_string "21")
           (bytes_of_string "m") (set_ptr 2 initial) 21).
  - reflexivity.
  - repeat constructor.
  - reflexivity.
  - reflexivity.
  - lia.
  - reflexivity.
Defined.

Lemma monospace_widths_nonneg :
  forall s : list byte, 0 <= ImVec2.x (CalcTextSize (ImGui := monospace) s).
Proof.
  intros s. unfold Qle.
  cbn [CalcTextSize monospace ImVec2.x inject_Z Qnum Qden]. lia.
Qed.



Lemma C9_witness :
  exists st,
    RenderAnsiText (gui := monospace) 2 [x61; LF] = Some st /\
    pos st = ImVec2.make 100 82.
Proof.
  destruct (RenderAnsiText (gui := monospace) 2 [x61; LF]) as [st|] eqn:Hr;
    [|vm_compute in Hr; discriminate].
  exists st. split; [reflexivity|].
  destruct (C9_end_of_buffer_correction (gui := monospace) [x61; LF] 2 st Hr)
    as (scanned & Hrun & _ & Hlf & _).
  rewrite (Hlf [x61] eq_refl).
  - vm_compute in Hrun. inversion Hrun. reflexivity.
  - intros [|c pre']; [discriminate|]. destruct pre'; discriminate.
Defined.

(** C10: index 256 is above 255 and the channel handed to [IM_COL32] is
    248, not above 255. *)
Lemma C10_counterexample :
  (255 < 256)%Z /\
  int_add 8 (int_mul (int_sub 256 232) 10) = 248%Z /\
  ~ (255 < int_add 8 (int_mul (int_sub 256 232) 10))%Z /\
  exists st,
    RenderAnsiText (gui := monospace) 12
      (ESC :: bytes_of_string "[38;5;256mX") = Some st /\
    map cmd_col (drawList st) = [IM_COL32 248 248 248 255].
Proof.
  split; [lia|]. split; [reflexivity|].
  split; [vm_compute; intros H; discriminate H|].
  eexists. split; [vm_compute; reflexivity|reflexivity].
Qed.

Lemma C10_witness :
  ansi256ToRgb (gui := monospace) 300 = IM_COL32 688 688 688 255 /\
  (255 < int_add 8 (int_mul (int_sub 300 232) 10))%Z.
Proof.
  assert (H : (232 <= 300 <= INT_MAX)%Z) by (unfold INT_MAX; lia).
  split.
  - apply (C10_gray_not_clamped (gui := monospace) 300 H).
  - apply (C10_gray_not_clamped (gui := monospace) 300 H);
      unfold INT_MAX; lia.
Defined.

(** * The test inputs of the specification, run on the concrete ImGui *)

(** ["a" ESC "["]: the cut escape sequence is abandoned, one run is drawn. *)
Example truncated_escape_example :
  RenderAnsiText (gui := monospace) 3
    (bytes_of_string "a" ++ ESC :: bytes_of_string "[")
  = Some (mkState 3 3 DEFAULT_COLOR false (ImVec2.make 108 50)
            [AddText (ImVec2.make 100 50) DEFAULT_COLOR 0 1]).
Proof. vm_compute. reflexivity. Qed.

(** [ESC "[31mX" ESC "[0mY"]: [X] in palette colour 1, [Y] in the default
    colour. *)
Example red_then_reset_example :
  option_map (fun st => map cmd_col (drawList st))
    (RenderAnsiText (gui := monospace) 11
       (ESC :: bytes_of_string "[31mX" ++ ESC :: bytes_of_string "[0mY"))
  = Some [IM_COL32 220 80 80 255; DEFAULT_COLOR].
Proof. vm_compute. reflexivity. Qed.

(** [ESC "[1m" ESC "[22m"]: bold set, then cleared. *)
Example bold_then_normal_example :
  option_map currentBold
    (RenderAnsiText (gui := monospace) 9
       (ESC :: bytes_of_string "[1m" ++ ESC :: bytes_of_string "[22m"))
  = Some false.
Proof. vm_compute. reflexivity. Qed.

(** [ESC "[38;5;21mX"]: pure blue. *)
Example index_21_example :
  option_map (fun st => map cmd_col (drawList st))
    (RenderAnsiText (gui := monospace) 12
       (ESC :: bytes_of_string "[38;5;21mX"))
  = Some [IM_COL32 0 0 255 255].
Proof. vm_compute. reflexivity. Qed.

(** [ESC "[38;2;10;20;30mX"]: the three channels as given. *)
Example truecolor_example :
  option_map (fun st => map cmd_col (drawList st))
    (RenderAnsiText (gui := monospace) 18
       (ESC :: bytes_of_string "[38;2;10;20;30mX"))
  = Some [IM_COL32 10 20 30 255].
Proof. vm_compute. reflexivity. Qed.

(** ["a\tb"], characters 8 wide, origin x = 100: [b] is drawn at the tab
    stop 100 + 8 * 8. *)
Example tab_example :
  option_map (fun st => map cmd_pos (drawList st))
    (RenderAnsiText (gui := monospace) 3 [x61; TAB; x62])
  = Some [ImVec2.make 100 50; ImVec2.make 164 50].
Proof. vm_compute. reflexivity. Qed.

(** ["a\nb"], lines 16 high: [b] is drawn one line below [a]. *)
Example newline_example :
  option_map (fun st => map cmd_pos (drawList st))
    (RenderAnsiText (gui := monospace) 3 [x61; LF; x62])
  = Some [ImVec2.make 100 50; ImVec2.make 100 66].
Proof. vm_compute. reflexivity. Qed.

(** ["a\n"]: the newline moves the pen down while the segment is drawn, and
    the block at the end of the buffer moves it down once more. *)
Example trailing_newline_example :
  option_map pos (RenderAnsiText (gui := monospace) 2 [x61; LF])
  = Some (ImVec2.make 100 82).
Proof. vm_compute. reflexivity. Qed.

(** * Further properties of the code *)

(** ** parseAnsiCode reads the longest run of digits *)

Lemma parseAnsiCode_loop_run (rest : list byte) :
  forall (p : nat) (r : Z),
  exists ds rest',
    rest = ds ++ rest' /\
    Forall (fun c => is_digit c = true) ds /\
    no_digit_ahead rest' /\
    snd (parseAnsiCode_loop rest p r) = (p + length ds)%nat.
Proof.
  induction rest as [|c rest IH]; intros p r.
  - exists [], []. cbn. repeat split; auto.
  - cbn [parseAnsiCode_loop]. destruct (is_digit c) eqn:Hc.
    + destruct (IH (S p) (int_add (int_mul r 10) (int_sub (uchar c) 48)))
        as (ds & rest' & Heq & Hds & Hrest & Hp).
      exists (c :: ds), rest'. cbn [app length]. repeat split; auto.
      * now rewrite Heq.
      * rewrite Hp. lia.
    + exists [], (c :: rest). cbn. repeat split; auto.
Qed.

Lemma span_of_skipn (text ds rest : list byte) (p : nat) :
  skipn p text = ds ++ rest -> span text p (p + length ds) = ds.
Proof.
  intros H. unfold span. rewrite H.
  replace (p + length ds - p)%nat with (length ds) by lia.
  now rewrite firstn_app, firstn_all, Nat.sub_diag, app_nil_r.
Qed.

Lemma char_at_skipn (text l : list byte) (p k : nat) :
  skipn p text = l -> char_at text (p + k) = nth k l x00.
Proof. intros <-. unfold char_at. now rewrite nth_skipn. Qed.

Section FurtherParsing.

Context {gui : ImGui}.

(** X1.  From [ptr <= end], [parseAnsiCode] moves [ptr] over the longest
    run of digits that starts there and over nothing else: it stops inside
    the buffer, on the first byte that is not a digit or at the end; and
    when the number the run denotes fits an [int], that number is the
    result (0 for the empty run). *)
Theorem parseAnsiCode_reads_digit_run (text : list byte) (p : nat) :
  (p <= length text)%nat ->
  let result := fst (parseAnsiCode text p) in
  let p' := snd (parseAnsiCode text p) in
  (p <= p' <= length text)%nat /\
  all_bytes (fun c => is_digit c = true) text p p' /\
  ((p' < length text)%nat -> is_digit (char_at text p') = false) /\
  ((decimal_value (span text p p') <= INT_MAX)%Z ->
   result = decimal_value (span text p p')).
Proof.
  intros Hp result p'.
  destruct (parseAnsiCode_loop_run (skipn p text) p 0%Z)
    as (ds & rest & Hskip & Hds & Hrest & Hsnd).
  assert (Hp' : p' = (p + length ds)%nat) by exact Hsnd.
  assert (Hlen : (p + length ds + length rest = length text)%nat).
  { apply (f_equal (@length byte)) in Hskip.
    rewrite length_skipn, length_app in Hskip. lia. }
  split; [lia|]. split; [|split].
  - intros i Hi.
    replace i with (p + (i - p))%nat by lia.
    rewrite (char_at_skipn text _ p (i - p) Hskip).
    rewrite app_nth1 by lia.
    rewrite Forall_forall in Hds. apply Hds, nth_In. lia.
  - intros Hlt. rewrite Hp'.
    replace (p + length ds)%nat with (p + length ds + 0)%nat by lia.
    rewrite (char_at_skipn text rest (p + length ds) 0
               (skipn_app_add text ds rest p Hskip)).
    destruct rest as [|c rest]; [cbn in Hlen; lia|exact Hrest].
  - rewrite Hp', (span_of_skipn text ds rest p Hskip). intros Hfit.
    unfold result.
    now rewrite (parseAnsiCode_digits text ds rest p Hskip Hds Hrest Hfit).
Qed.

End FurtherParsing.

Lemma parseAnsiCode_reads_digit_run_witness :
  fst (parseAnsiCode (bytes_of_string "x007;") 1) = 7%Z /\
  snd (parseAnsiCode (bytes_of_string "x007;") 1) = 4%nat.
Proof.
  pose proof (parseAnsiCode_reads_digit_run (bytes_of_string "x007;") 1)
    as H.
  cbv zeta in H. destruct H as (_ & _ & _ & Hval); [cbn; lia|].
  split; [|reflexivity].
  rewrite Hval; [reflexivity|vm_compute; discriminate].
Defined.

Section FurtherCodes.

Context {gui : ImGui}.

(** ** The codes of an escape sequence, one iteration at a time *)

Ltac code_cases :=
  repeat match goal with
    | |- context [(?a =? ?b)%Z] => destruct (Z.eqb_spec a b); try lia
    | |- context [(?a <=? ?b)%Z] => destruct (Z.leb_spec a b); try lia
    | _ => progress cbn [andb]
    end.

(** An iteration that starts on the digits [ds]: the chain on their value,
    then the semicolon. *)
Lemma escape_iteration_code (text ds rest : list byte) (st : State) :
  skipn (ptr st) text = ds ++ rest ->
  Forall (fun d => is_digit d = true) ds ->
  no_digit_ahead rest ->
  (decimal_value ds <= INT_MAX)%Z ->
  escape_iteration text st
  = let st1 :=
      apply_code text (decimal_value ds)
        (set_ptr (ptr st + length ds) st) in
    if looking_at text (ptr st1) SEMI then set_ptr (S (ptr st1)) st1
    else st1.
Proof.
  intros Hskip Hds Hrest Hfit. unfold escape_iteration.
  now rewrite (parseAnsiCode_digits text ds rest (ptr st) Hskip Hds Hrest
                 Hfit).
Qed.

Lemma skip_semicolon_style (text : list byte) (st1 : State) :
  let st' := if looking_at text (ptr st1) SEMI
             then set_ptr (S (ptr st1)) st1 else st1 in
  currentColor st' = currentColor st1 /\
  currentBold st' = currentBold st1 /\
  (ptr st1 <= ptr st' <= S (ptr st1))%nat.
Proof.
  cbv zeta. destruct (looking_at text (ptr st1) SEMI); cbn; repeat split; lia.
Qed.

Lemma decimal_value_nonneg (ds : list byte) :
  Forall (fun d => is_digit d = true) ds -> (0 <= decimal_value ds)%Z.
Proof.
  intros Hds. unfold decimal_value.
  apply (decimal_fold_le ds 0 Hds). lia.
Qed.

(** X2.  The style codes: 0 (also written with no digit at all, or with
    several zeros) sets the default colour and clears bold, 1 sets bold
    and 22 clears it, the colour left as it was. *)
Theorem style_codes (text ds rest : list byte) (st : State) :
  skipn (ptr st) text = ds ++ rest ->
  Forall (fun d => is_digit d = true) ds ->
  no_digit_ahead rest ->
  let code := decimal_value ds in
  let st' := escape_iteration text st in
  (code = 0%Z ->
   currentColor st' = DEFAULT_COLOR /\ currentBold st' = false) /\
  (code = 1%Z ->
   currentColor st' = currentColor st /\ currentBold st' = true) /\
  (code = 22%Z ->
   currentColor st' = currentColor st /\ currentBold st' = false).
Proof.
  intros Hskip Hds Hrest code st'.
  assert (Hiter : (code <= INT_MAX)%Z ->
            currentColor st'
            = currentColor (apply_code text code
                              (set_ptr (ptr st + length ds) st)) /\
            currentBold st'
            = currentBold (apply_code text code
                             (set_ptr (ptr st + length ds) st))).
  { intros Hfit. unfold st'.
    rewrite (escape_iteration_code text ds rest st Hskip Hds Hrest Hfit).
    pose proof (skip_semicolon_style text
                  (apply_code text code (set_ptr (ptr st + length ds) st)))
      as (H1 & H2 & _).
    now split. }
  split; [|split]; intros Hc;
    (destruct Hiter as [H1 H2]; [rewrite Hc; unfold INT_MAX; lia|]);
    rewrite H1, H2, Hc; split; reflexivity.
Qed.

(** X3.  The colour codes: 30 to 37 and 90 to 97 set the colour that
    [ansi256ToRgb] gives for the indices 0 to 7 and 8 to 15, the entries
    of [ANSI_COLORS]; bold is left as it was. *)
Theorem palette_codes (text ds rest : list byte) (st : State) :
  skipn (ptr st) text = ds ++ rest ->
  Forall (fun d => is_digit d = true) ds ->
  no_digit_ahead rest ->
  let code := decimal_value ds in
  let st' := escape_iteration text st in
  ((30 <= code <= 37)%Z ->
   currentColor st' = nth (Z.to_nat (code - 30)) ANSI_COLORS (IM_COL32 0 0 0 0)
   /\ currentColor st' = ansi256ToRgb (code - 30)
   /\ currentBold st' = currentBold st) /\
  ((90 <= code <= 97)%Z ->
   currentColor st' = nth (Z.to_nat (code - 82)) ANSI_COLORS (IM_COL32 0 0 0 0)
   /\ currentColor st' = ansi256ToRgb (code - 82)
   /\ currentBold st' = currentBold st).
Proof.
  intros Hskip Hds Hrest code st'.
  assert (Hiter : (code <= INT_MAX)%Z ->
            currentColor st'
            = currentColor (apply_code text code
                              (set_ptr (ptr st + length ds) st)) /\
            currentBold st'
            = currentBold (apply_code text code
                             (set_ptr (ptr st + length ds) st))).
  { intros Hfit. unfold st'.
    rewrite (escape_iteration_code text ds rest st Hskip Hds Hrest Hfit).
    pose proof (skip_semicolon_style text
                  (apply_code text code (set_ptr (ptr st + length ds) st)))
      as (H1 & H2 & _).
    now split. }
  split; intros Hc;
    (destruct Hiter as [H1 H2]; [unfold INT_MAX; lia|]);
    rewrite H1, H2; clear H1 H2.
  - assert (Ha : apply_code text code (set_ptr (ptr st + length ds) st)
                 = set_currentColor (ANSI_COLORS_at (code - 30))
                     (set_ptr (ptr st + length ds) st)).
    { unfold apply_code. code_cases. unfold int_sub.
      rewrite wrap_int_small by (unfold INT_MIN, INT_MAX; lia).
      reflexivity. }
    rewrite Ha. cbn [currentColor currentBold set_currentColor set_ptr].
    rewrite ansi256ToRgb_table by lia.
    rewrite ANSI_COLORS_at_inside by lia.
    repeat split; reflexivity.
  - assert (Ha : apply_code text code (set_ptr (ptr st + length ds) st)
                 = set_currentColor (ANSI_COLORS_at (code - 82))
                     (set_ptr (ptr st + length ds) st)).
    { unfold apply_code. code_cases. unfold int_sub, int_add.
      rewrite (wrap_int_small (code - 90))
        by (unfold INT_MIN, INT_MAX; lia).
      rewrite wrap_int_small by (unfold INT_MIN, INT_MAX; lia).
      replace (code - 90 + 8)%Z with (code - 82)%Z by lia.
      reflexivity. }
    rewrite Ha. cbn [currentColor currentBold set_currentColor set_ptr].
    rewrite ansi256ToRgb_table by lia.
    rewrite ANSI_COLORS_at_inside by lia.
    repeat split; reflexivity.
Qed.

(** X4.  A code the chain does not know (a background colour 40 to 47,
    underline 4, the default foreground 39, ...) changes nothing: the
    iteration only moves [ptr] over its digits and over a semicolon behind
    them. *)
Theorem other_codes_are_ignored (text ds rest : list byte) (st : State) :
  skipn (ptr st) text = ds ++ rest ->
  Forall (fun d => is_digit d = true) ds ->
  no_digit_ahead rest ->
  let code := decimal_value ds in
  (code <= INT_MAX)%Z ->
  code <> 0%Z -> code <> 1%Z -> code <> 22%Z -> code <> 38%Z ->
  ~ (30 <= code <= 37)%Z -> ~ (90 <= code <= 97)%Z ->
  exists p,
    escape_iteration text st = set_ptr p st /\
    (ptr st + length ds <= p <= ptr st + length ds + 1)%nat.
Proof.
  intros Hskip Hds Hrest code Hfit H0 H1 H22 H38 H30 H90.
  rewrite (escape_iteration_code text ds rest st Hskip Hds Hrest Hfit).
  fold code.
  assert (Ha : apply_code text code (set_ptr (ptr st + length ds) st)
               = set_ptr (ptr st + length ds) st)
    by (unfold apply_code; code_cases; reflexivity).
  rewrite Ha. cbv zeta. cbn [ptr set_ptr].
  destruct (looking_at text (ptr st + length ds) SEMI).
  - exists (S (ptr st + length ds)). split; [reflexivity|lia].
  - exists (ptr st + length ds)%nat. split; [reflexivity|lia].
Qed.

End FurtherCodes.

Lemma style_codes_witness :
  currentBold
    (escape_iteration (ESC :: bytes_of_string "[1m") (set_ptr 2 initial))
  = true.
Proof.
  pose proof (style_codes (ESC :: bytes_of_string "[1m") [x31] [LOWER_M]
                (set_ptr 2 initial) eq_refl
                (Forall_cons x31 eq_refl (Forall_nil _)) eq_refl) as H.
  cbv zeta in H. destruct H as (_ & Hbold & _).
  apply Hbold. reflexivity.
Defined.

Lemma palette_codes_witness :
  currentColor
    (escape_iteration (ESC :: bytes_of_string "[31m") (set_ptr 2 initial))
  = ansi256ToRgb 1.
Proof.
  pose proof (palette_codes (ESC :: bytes_of_string "[31m") [x33; x31]
                [LOWER_M] (set_ptr 2 initial) eq_refl
                (Forall_cons x33 eq_refl
                   (Forall_cons x31 eq_refl (Forall_nil _))) eq_refl) as H.
  cbv zeta in H. destruct H as (Hnormal & _).
  change (decimal_value [x33; x31]) with 31%Z in Hnormal.
  destruct Hnormal as (_ & Hcolor & _); [lia|exact Hcolor].
Defined.

Lemma other_codes_are_ignored_witness :
  exists p,
    escape_iteration (ESC :: bytes_of_string "[4;1m") (set_ptr 2 initial)
    = set_ptr p (set_ptr 2 initial) /\ (3 <= p <= 4)%nat.
Proof.
  pose proof (other_codes_are_ignored (ESC :: bytes_of_string "[4;1m") [x34]
                (bytes_of_string ";1m") (set_ptr 2 initial) eq_refl
                (Forall_cons x34 eq_refl (Forall_nil _)) eq_refl) as H.
  cbv zeta in H. change (decimal_value [x34]) with 4%Z in H.
  apply H; unfold INT_MAX; lia.
Defined.

Section FurtherTruecolor.

Context {gui : ImGui}.

(** ** The truecolor code *)

Lemma parse_then_semicolon (text ds rest : list byte) (p : nat) :
  skipn p text = ds ++ SEMI :: rest ->
  Forall (fun d => is_digit d = true) ds ->
  (decimal_value ds <= INT_MAX)%Z ->
  parseAnsiCode text p = (decimal_value ds, (p + length ds)%nat) /\
  looking_at text (p + length ds) SEMI = true /\
  skipn (S (p + length ds)) text = rest.
Proof.
  intros Hskip Hds Hfit.
  pose proof (skipn_app_add text ds (SEMI :: rest) p Hskip) as Hsemi.
  split; [|split].
  - apply (parseAnsiCode_digits text ds (SEMI :: rest)); auto. reflexivity.
  - rewrite (looking_at_cons _ _ _ SEMI _ Hsemi). apply byte_eqb_refl.
  - exact (skipn_cons_S _ _ _ _ Hsemi).
Qed.

(** X5.  [38;2;R;G;B] sets the colour [IM_COL32(R, G, B, 255)] from the
    three numbers as parsed, whatever their size (no check against 255),
    and leaves bold as it was. *)
Theorem truecolor_code (text dr dg db rest : list byte) (st : State) :
  skipn (ptr st) text
  = bytes_of_string "38;2;" ++ dr ++ SEMI :: dg ++ SEMI :: db ++ rest ->
  Forall (fun d => is_digit d = true) dr ->
  Forall (fun d => is_digit d = true) dg ->
  Forall (fun d => is_digit d = true) db ->
  no_digit_ahead rest ->
  (decimal_value dr <= INT_MAX)%Z ->
  (decimal_value dg <= INT_MAX)%Z ->
  (decimal_value db <= INT_MAX)%Z ->
  currentColor (escape_iteration text st)
  = IM_COL32 (decimal_value dr) (decimal_value dg) (decimal_value db) 255 /\
  currentBold (escape_iteration text st) = currentBold st.
Proof.
  intros Hskip Hr Hg Hb Hrest Fr Fg Fb.
  change (bytes_of_string "38;2;") with ([x33; x38] ++ SEMI :: [x32] ++ [SEMI])
    in Hskip.
  rewrite <- !app_assoc in Hskip. cbn [app] in Hskip.
  change (x33 :: x38 :: SEMI :: x32 :: SEMI :: dr ++ SEMI :: dg ++ SEMI :: db ++ rest)
    with ([x33; x38] ++ SEMI :: ([x32] ++ SEMI :: dr ++ SEMI :: dg ++ SEMI :: db ++ rest))
    in Hskip.
  destruct (parse_then_semicolon text [x33; x38] _ (ptr st) Hskip)
    as (P38 & L38 & S38);
    [repeat constructor | vm_compute; discriminate |].
  destruct (parse_then_semicolon text [x32] _ _ S38) as (P2 & L2 & S2);
    [repeat constructor | vm_compute; discriminate |].
  destruct (parse_then_semicolon text dr _ _ S2) as (PR & LR & SR); auto.
  destruct (parse_then_semicolon text dg _ _ SR) as (PG & LG & SG); auto.
  pose proof (parseAnsiCode_digits text db rest _ SG Hb Hrest Fb) as PB.
  unfold escape_iteration. rewrite P38.
  change (decimal_value [x33; x38]) with 38%Z.
  unfold apply_code.
  cbn [Z.eqb Pos.eqb Z.leb Z.compare Pos.compare Pos.compare_cont andb
       ptr set_ptr].
  rewrite L38, P2. change (decimal_value [x32]) with 2%Z.
  cbn [Z.eqb Pos.eqb andb ptr set_ptr]. unfold truecolor.
  cbn [ptr set_ptr]. rewrite L2, PR. cbn [ptr set_ptr].
  rewrite LR, PG. cbn [ptr set_ptr]. rewrite LG, PB.
  cbn [ptr set_ptr set_currentColor].
  match goal with
  | |- context [looking_at ?t ?p ?c] => destruct (looking_at t p c)
  end; split; reflexivity.
Qed.

(** X6.  A truecolor code cut after its green number ([38;2;R;G] and then
    no semicolon) sets no colour; its numbers are passed over and not read
    as codes of their own. *)
Theorem truecolor_without_blue (text dr dg rest : list byte) (st : State) :
  skipn (ptr st) text
  = bytes_of_string "38;2;" ++ dr ++ SEMI :: dg ++ rest ->
  Forall (fun d => is_digit d = true) dr ->
  Forall (fun d => is_digit d = true) dg ->
  no_digit_ahead rest ->
  match rest with c :: _ => c <> SEMI | [] => True end ->
  (decimal_value dr <= INT_MAX)%Z ->
  (decimal_value dg <= INT_MAX)%Z ->
  escape_iteration text st
  = set_ptr (ptr st + 5 + length dr + 1 + length dg) st.
Proof.
  intros Hskip Hr Hg Hrest Hnosemi Fr Fg.
  change (bytes_of_string "38;2;") with ([x33; x38] ++ SEMI :: [x32] ++ [SEMI])
    in Hskip.
  rewrite <- !app_assoc in Hskip. cbn [app] in Hskip.
  change (x33 :: x38 :: SEMI :: x32 :: SEMI :: dr ++ SEMI :: dg ++ rest)
    with ([x33; x38] ++ SEMI :: ([x32] ++ SEMI :: dr ++ SEMI :: dg ++ rest))
    in Hskip.
  destruct (parse_then_semicolon text [x33; x38] _ (ptr st) Hskip)
    as (P38 & L38 & S38);
    [repeat constructor | vm_compute; discriminate |].
  destruct (parse_then_semicolon text [x32] _ _ S38) as (P2 & L2 & S2);
    [repeat constructor | vm_compute; discriminate |].
  destruct (parse_then_semicolon text dr _ _ S2) as (PR & LR & SR); auto.
  pose proof (parseAnsiCode_digits text dg rest _ SR Hg Hrest Fg) as PG.
  assert (Lend : looking_at text
                   (S (S (S (ptr st + length [x33; x38]) + length [x32])
                       + length dr) + length dg) SEMI = false).
  { pose proof (skipn_app_add text dg rest _ SR) as Hend.
    destruct rest as [|c rest].
    - unfold looking_at.
      apply (f_equal (@length byte)) in Hend. rewrite length_skipn in Hend.
      change (length (@nil byte)) with 0%nat in Hend.
      destruct (Nat.ltb_spec
                  (S (S (S (ptr st + length [x33; x38]) + length [x32])
                      + length dr) + length dg) (length text));
        [lia|reflexivity].
    - rewrite (looking_at_cons _ _ _ SEMI _ Hend).
      now apply byte_eqb_neq. }
  unfold escape_iteration. rewrite P38.
  change (decimal_value [x33; x38]) with 38%Z.
  unfold apply_code.
  cbn [Z.eqb Pos.eqb Z.leb Z.compare Pos.compare Pos.compare_cont andb
       ptr set_ptr].
  rewrite L38, P2. change (decimal_value [x32]) with 2%Z.
  cbn [Z.eqb Pos.eqb andb ptr set_ptr]. unfold truecolor.
  cbn [ptr set_ptr]. rewrite L2, PR. cbn [ptr set_ptr].
  rewrite LR, PG. cbn [ptr set_ptr]. rewrite Lend.
  cbn [ptr set_ptr]. rewrite Lend.
  unfold set_ptr. cbn [ptr segmentStart currentColor currentBold pos drawList
                       length].
  f_equal. lia.
Qed.

End FurtherTruecolor.

Lemma truecolor_code_witness :
  currentColor
    (escape_iteration (ESC :: bytes_of_string "[38;2;10;20;300m")
       (set_ptr 2 initial))
  = pack_IM_COL32 10 20 300 255.
Proof.
  pose proof (truecolor_code (ESC :: bytes_of_string "[38;2;10;20;300m")
                (bytes_of_string "10") (bytes_of_string "20")
                (bytes_of_string "300") [LOWER_M] (set_ptr 2 initial)
                eq_refl) as H.
  destruct H as (Hcolor & _);
    [repeat constructor | repeat constructor | repeat constructor
    | reflexivity | vm_compute; discriminate | vm_compute; discriminate
    | vm_compute; discriminate | exact Hcolor].
Defined.

Lemma truecolor_without_blue_witness :
  escape_iteration (ESC :: bytes_of_string "[38;2;1;31m") (set_ptr 2 initial)
  = set_ptr 11 (set_ptr 2 initial).
Proof.
  apply (truecolor_without_blue (ESC :: bytes_of_string "[38;2;1;31m")
           (bytes_of_string "1") (bytes_of_string "31") [LOWER_M]
           (set_ptr 2 initial) eq_refl);
    [repeat constructor | repeat constructor | reflexivity
    | discriminate | vm_compute; discriminate | vm_compute; discriminate].
Defined.

(** ** The 256-colour palette as a whole *)

Lemma lor_shifted (hi lo k : Z) :
  (0 <= k)%Z -> (0 <= lo < 2 ^ k)%Z ->
  Z.lor (hi * 2 ^ k) lo = (hi * 2 ^ k + lo)%Z.
Proof.
  intros Hk Hlo.
  rewrite <- (Z.add_lor_land (hi * 2 ^ k) lo).
  assert (Hland : Z.land (hi * 2 ^ k) lo = 0%Z).
  { apply Z.bits_inj'. intros n Hn.
    rewrite Z.land_spec, Z.bits_0.
    destruct (Z.lt_ge_cases n k) as [Hlt|Hge].
    - rewrite Z.mul_pow2_bits_low by lia. reflexivity.
    - destruct (Z.eq_dec lo 0) as [->|Hne].
      + rewrite Z.bits_0. apply andb_false_r.
      + rewrite (Z.bits_above_log2 lo n); [apply andb_false_r|lia|].
        apply Z.lt_le_trans with k; [|assumption].
        apply Z.log2_lt_pow2; lia. }
  rewrite Hland. lia.
Qed.

(** The packing of the concrete ImGui on channels of one byte. *)
Lemma pack_IM_COL32_bytes (r g b a : Z) :
  (0 <= r <= 255)%Z -> (0 <= g <= 255)%Z ->
  (0 <= b <= 255)%Z -> (0 <= a <= 255)%Z ->
  pack_IM_COL32 r g b a
  = (a * 2 ^ 24 + (b * 2 ^ 16 + (g * 2 ^ 8 + r)))%Z.
Proof.
  intros Hr Hg Hb Ha. unfold pack_IM_COL32.
  rewrite !Z.shiftl_mul_pow2 by lia.
  rewrite (Z.mod_small r), (Z.mod_small g), (Z.mod_small b),
    (Z.mod_small a) by lia.
  rewrite (Z.mod_small (g * 2 ^ 8)), (Z.mod_small (b * 2 ^ 16)),
    (Z.mod_small (a * 2 ^ 24)) by lia.
  rewrite (lor_shifted g r 8) by lia.
  rewrite (lor_shifted b (g * 2 ^ 8 + r) 16) by lia.
  rewrite (lor_shifted a (b * 2 ^ 16 + (g * 2 ^ 8 + r)) 24) by lia.
  reflexivity.
Qed.

Section FurtherPalette.

Context {gui : ImGui}.

(** X7.  For every index from 0 to 255 the colour is opaque and its three
    channels are within 0..255. *)
Theorem palette_channels_in_range (N : Z) :
  (0 <= N <= 255)%Z ->
  exists r g b,
    ansi256ToRgb N = IM_COL32 r g b 255 /\
    (0 <= r <= 255)%Z /\ (0 <= g <= 255)%Z /\ (0 <= b <= 255)%Z.
Proof.
  intros HN.
  destruct (Z.lt_ge_cases N 16) as [Htable|Hge].
  - assert (Hcases : (N = 0 \/ N = 1 \/ N = 2 \/ N = 3 \/ N = 4 \/ N = 5 \/
                      N = 6 \/ N = 7 \/ N = 8 \/ N = 9 \/ N = 10 \/ N = 11 \/
                      N = 12 \/ N = 13 \/ N = 14 \/ N = 15)%Z) by lia.
    repeat (destruct Hcases as [->|Hcases]); try subst N;
      do 3 eexists; (split; [reflexivity|lia]).
  - destruct (Z.lt_ge_cases N 232) as [Hcube|Hgray].
    + rewrite ansi256ToRgb_cube by lia.
      pose proof (Z.mod_pos_bound (N - 16) 36 ltac:(lia)).
      pose proof (Z.mod_pos_bound (N - 16) 6 ltac:(lia)).
      assert ((0 <= (N - 16) / 36 < 6)%Z)
        by (split; [apply Z.div_pos; lia|apply Z.div_lt_upper_bound; lia]).
      assert ((0 <= (N - 16) mod 36 / 6 < 6)%Z)
        by (split; [apply Z.div_pos; lia|apply Z.div_lt_upper_bound; lia]).
      do 3 eexists. split; [reflexivity|lia].
    + rewrite ansi256ToRgb_gray by lia. cbv zeta.
      rewrite gray_exact by (unfold INT_MAX; lia).
      do 3 eexists. split; [reflexivity|lia].
Qed.

(** X8.  When [IM_COL32] keeps apart the colours whose channels are within
    0..255, the indices from 16 to 255 give pairwise different colours: no
    two cells of the colour cube coincide, and no gray of the ramp is a
    cell of the cube. *)
Theorem palette_distinct_from_16 (N M : Z) :
  (forall r g b r' g' b',
     (0 <= r <= 255)%Z -> (0 <= g <= 255)%Z -> (0 <= b <= 255)%Z ->
     (0 <= r' <= 255)%Z -> (0 <= g' <= 255)%Z -> (0 <= b' <= 255)%Z ->
     IM_COL32 r g b 255 = IM_COL32 r' g' b' 255 ->
     r = r' /\ g = g' /\ b = b') ->
  (16 <= N <= 255)%Z -> (16 <= M <= 255)%Z ->
  ansi256ToRgb N = ansi256ToRgb M -> N = M.
Proof.
  intros Hinj HN HM Heq.
  assert (Hchannels : forall K, (16 <= K <= 255)%Z ->
            exists r g b,
              ansi256ToRgb K = IM_COL32 r g b 255 /\
              (0 <= r <= 255)%Z /\ (0 <= g <= 255)%Z /\ (0 <= b <= 255)%Z /\
              ((K < 232)%Z ->
               r = ((K - 16) / 36 * 51)%Z /\
               g = ((K - 16) mod 36 / 6 * 51)%Z /\
               b = ((K - 16) mod 6 * 51)%Z) /\
              ((232 <= K)%Z ->
               r = (8 + (K - 232) * 10)%Z /\ g = r /\ b = r)).
  { intros K HK. destruct (Z.lt_ge_cases K 232) as [Hcube|Hgray].
    - rewrite ansi256ToRgb_cube by lia.
      pose proof (Z.mod_pos_bound (K - 16) 36 ltac:(lia)).
      pose proof (Z.mod_pos_bound (K - 16) 6 ltac:(lia)).
      assert ((0 <= (K - 16) / 36 < 6)%Z)
        by (split; [apply Z.div_pos; lia|apply Z.div_lt_upper_bound; lia]).
      assert ((0 <= (K - 16) mod 36 / 6 < 6)%Z)
        by (split; [apply Z.div_pos; lia|apply Z.div_lt_upper_bound; lia]).
      do 3 eexists. split; [reflexivity|].
      repeat split; lia.
    - rewrite ansi256ToRgb_gray by lia. cbv zeta.
      rewrite gray_exact by (unfold INT_MAX; lia).
      do 3 eexists. split; [reflexivity|].
      repeat split; lia. }
  destruct (Hchannels N HN)
    as (r & g & b & HcN & Hr & Hg & Hb & HcubeN & HgrayN).
  destruct (Hchannels M HM)
    as (r' & g' & b' & HcM & Hr' & Hg' & Hb' & HcubeM & HgrayM).
  rewrite HcN, HcM in Heq.
  destruct (Hinj r g b r' g' b' Hr Hg Hb Hr' Hg' Hb' Heq) as (Er & Eg & Eb).
  pose proof (Z.div_mod (N - 16) 36 ltac:(lia)) as DN36.
  pose proof (Z.div_mod (M - 16) 36 ltac:(lia)) as DM36.
  pose proof (Z.div_mod ((N - 16) mod 36) 6 ltac:(lia)) as DN6.
  pose proof (Z.div_mod ((M - 16) mod 36) 6 ltac:(lia)) as DM6.
  assert (HN6 : ((N - 16) mod 36 mod 6 = (N - 16) mod 6)%Z).
  { apply Z.mod_mod_divide. exists 6%Z. reflexivity. }
  assert (HM6 : ((M - 16) mod 36 mod 6 = (M - 16) mod 6)%Z).
  { apply Z.mod_mod_divide. exists 6%Z. reflexivity. }
  pose proof (Z.mod_pos_bound (N - 16) 36 ltac:(lia)).
  pose proof (Z.mod_pos_bound (M - 16) 36 ltac:(lia)).
  pose proof (Z.mod_pos_bound (N - 16) 6 ltac:(lia)).
  pose proof (Z.mod_pos_bound (M - 16) 6 ltac:(lia)).
  destruct (Z.lt_ge_cases N 232) as [HNc|HNg];
    destruct (Z.lt_ge_cases M 232) as [HMc|HMg].
  - destruct (HcubeN HNc) as (? & ? & ?).
    destruct (HcubeM HMc) as (? & ? & ?). lia.
  - destruct (HcubeN HNc) as (? & ? & ?).
    destruct (HgrayM HMg) as (? & ? & ?). lia.
  - destruct (HgrayN HNg) as (? & ? & ?).
    destruct (HcubeM HMc) as (? & ? & ?). lia.
  - destruct (HgrayN HNg) as (? & ? & ?).
    destruct (HgrayM HMg) as (? & ? & ?). lia.
Qed.

End FurtherPalette.

Lemma palette_channels_in_range_witness :
  exists r g b,
    ansi256ToRgb 196 = pack_IM_COL32 r g b 255 /\
    (0 <= r <= 255)%Z /\ (0 <= g <= 255)%Z /\ (0 <= b <= 255)%Z.
Proof.
  change pack_IM_COL32 with (@IM_COL32 monospace).
  apply (palette_channels_in_range 196). lia.
Defined.

Lemma palette_distinct_from_16_witness :
  (ansi256ToRgb 59 =? ansi256ToRgb 240)%Z = false.
Proof.
  destruct (Z.eqb_spec (ansi256ToRgb 59) (ansi256ToRgb 240)) as [Heq|_];
    [|reflexivity].
  apply (palette_distinct_from_16 (gui := monospace)) in Heq;
    [discriminate| |lia|lia].
  intros r g b r' g' b' Hr Hg Hb Hr' Hg' Hb'.
  change (@IM_COL32 monospace) with pack_IM_COL32.
  rewrite !pack_IM_COL32_bytes by lia. lia.
Defined.

(** ** The callers: which bytes reach the renderer *)

Lemma strlen_until_NUL (a b : list byte) :
  ~ In x00 a -> strlen (a ++ x00 :: b) = length a.
Proof.
  induction a as [|c a IH]; intros Hnot; [reflexivity|].
  cbn [app strlen length].
  rewrite byte_eqb_neq by (intros ->; apply Hnot; now left).
  rewrite IH; [reflexivity|]. intros Hin. apply Hnot. now right.
Qed.

Lemma buffer_of_cstr (a b : list byte) :
  ~ In x00 a -> buffer_of_call (a ++ x00 :: b) 0 = a.
Proof.
  intros Hnot. unfold buffer_of_call. cbn [Nat.eqb].
  rewrite (strlen_until_NUL a b Hnot).
  now rewrite firstn_app, firstn_all, Nat.sub_diag, app_nil_r.
Qed.

Lemma fold_left_append (logs : list (list byte)) (acc : list byte) :
  fold_left (fun acc message => acc ++ message) logs acc
  = acc ++ concat logs.
Proof.
  revert acc. induction logs as [|m logs IH]; intros acc; cbn [fold_left concat].
  - now rewrite app_nil_r.
  - rewrite IH. now rewrite app_assoc.
Qed.

Section FurtherCallers.

Context {gui : ImGui}.

(** X9.  [RenderAnsiText(const char* text)] renders the bytes before the first
    NUL of the memory it is given and nothing behind it. *)
Theorem cstr_overload_stops_at_NUL (fuel : nat) (a b : list byte) :
  ~ In x00 a ->
  RenderAnsiText_cstr fuel (a ++ x00 :: b) = RenderAnsiText fuel a.
Proof.
  intros Hnot. unfold RenderAnsiText_cstr.
  now rewrite (buffer_of_cstr a b Hnot).
Qed.

(** X10.  [RenderAnsiText(const std::string&)] renders every byte of the
    string, a NUL and what follows it included; for the empty string the
    length 0 it passes makes the callee take [strlen], which is 0 too. *)
Theorem string_overload_renders_all (fuel : nat) (text : list byte) :
  RenderAnsiText_string fuel text = RenderAnsiText fuel text.
Proof.
  unfold RenderAnsiText_string. now rewrite buffer_of_string.
Qed.

(** X11.  [show_console] renders the messages of a logger joined in their
    order, up to the first NUL among them: a NUL inside a message hides the
    rest of that message and every later message. *)
Theorem show_logs_renders_up_to_NUL (fuel : nat) (logs : list (list byte))
  (a b : list byte) :
  concat logs ++ [x00] = a ++ x00 :: b ->
  ~ In x00 a ->
  show_logs fuel logs = RenderAnsiText fuel a.
Proof.
  intros Hcut Hnot. unfold show_logs, RenderAnsiText_cstr.
  rewrite fold_left_append. cbn [app]. rewrite Hcut.
  now rewrite (buffer_of_cstr a b Hnot).
Qed.

End FurtherCallers.

Lemma cstr_overload_stops_at_NUL_witness :
  RenderAnsiText_cstr 8 [x61; x62; x00; x63; x00]
  = RenderAnsiText 8 [x61; x62].
Proof.
  apply (cstr_overload_stops_at_NUL 8 [x61; x62] [x63; x00]).
  intros [H|[H|[]]]; discriminate H.
Defined.

Lemma show_logs_renders_up_to_NUL_witness :
  show_logs 8 [[x61; x62]; [x63; x00; x64]; [x65]]
  = RenderAnsiText 8 [x61; x62; x63].
Proof.
  apply (show_logs_renders_up_to_NUL 8 [[x61; x62]; [x63; x00; x64]; [x65]]
           [x61; x62; x63] [x64; x65; x00] eq_refl).
  intros [H|[H|[H|[]]]]; discriminate H.
Defined.

(** ** When the call returns, and after how many iterations *)

Lemma passes_refl (text : list byte) (p : nat) : passes text p p.
Proof. split; [lia|]. intros i Hi. lia. Qed.

Lemma passes_trans (text : list byte) (p q r : nat) :
  passes text p q -> passes text q r -> passes text p r.
Proof.
  intros [H1 A1] [H2 A2]. split; [lia|]. intros i Hi.
  destruct (Nat.lt_ge_cases i q); [apply A1|apply A2]; lia.
Qed.

Lemma parseAnsiCode_passes (text : list byte) (p : nat) :
  passes text p (snd (parseAnsiCode text p)).
Proof.
  destruct (parseAnsiCode_loop_run (skipn p text) p 0%Z)
    as (ds & rest & Hskip & Hds & _ & Hsnd).
  unfold parseAnsiCode. rewrite Hsnd. split; [lia|].
  intros i Hi. left.
  replace i with (p + (i - p))%nat by lia.
  rewrite (char_at_skipn text _ p (i - p) Hskip).
  rewrite app_nth1 by lia.
  rewrite Forall_forall in Hds. apply Hds, nth_In. lia.
Qed.

Lemma semicolon_passes (text : list byte) (p : nat) :
  looking_at text p SEMI = true -> passes text p (S p).
Proof.
  intros H. apply looking_at_true in H. destruct H as [_ H].
  split; [lia|]. intros i Hi. replace i with p by lia. now right.
Qed.

Lemma decimal_fold_below (ds : list byte) :
  forall r : Z,
  Forall (fun c => is_digit c = true) ds -> (0 <= r)%Z ->
  (fold_left (fun r c => r * 10 + (uchar c - 48)) ds r
   < (r + 1) * 10 ^ Z.of_nat (length ds))%Z.
Proof.
  induction ds as [|c ds IH]; intros r Hds Hr; cbn [fold_left length].
  - change (10 ^ Z.of_nat 0)%Z with 1%Z. lia.
  - inversion Hds as [|? ? Hc Hds']; subst.
    pose proof (is_digit_range _ Hc) as Hd.
    specialize (IH (r * 10 + (uchar c - 48))%Z Hds' ltac:(lia)).
    rewrite Nat2Z.inj_succ, Z.pow_succ_r by lia.
    assert (Hpow : (0 < 10 ^ Z.of_nat (length ds))%Z)
      by (apply Z.pow_pos_nonneg; lia).
    nia.
Qed.

Lemma span_digits (text : list byte) (a b : nat) :
  (a <= b <= length text)%nat ->
  all_bytes (fun c => is_digit c = true) text a b ->
  Forall (fun c => is_digit c = true) (span text a b).
Proof.
  intros Hab Hall. apply Forall_forall. intros c Hin.
  destruct (In_nth _ _ x00 Hin) as (k & Hk & Hc).
  rewrite span_length in Hk by lia.
  rewrite span_nth in Hc by assumption. subst c. apply Hall. lia.
Qed.

(** A buffer of at most nine bytes holds no number above [INT_MAX]. *)
Lemma short_buffer_no_overflow (text : list byte) :
  (length text <= 9)%nat -> no_overflow text.
Proof.
  intros Hlen a b Hab Hall.
  pose proof (span_digits text a b Hab Hall) as Hds.
  pose proof (decimal_fold_below (span text a b) 0 Hds ltac:(lia)) as Hlt.
  fold (decimal_value (span text a b)) in Hlt.
  rewrite span_length in Hlt by lia.
  assert (Hpow : (10 ^ Z.of_nat (b - a) <= 10 ^ 9)%Z)
    by (apply Z.pow_le_mono_r; lia).
  unfold INT_MAX. lia.
Qed.

Section Passing.

Context {gui : ImGui}.

(** Without overflow every number parsed is that of its digits. *)
Lemma parseAnsiCode_no_overflow (text : list byte) (p : nat) :
  no_overflow text ->
  (0 <= fst (parseAnsiCode text p) <= INT_MAX)%Z.
Proof.
  intros Hno.
  destruct (parseAnsiCode_loop_run (skipn p text) p 0%Z)
    as (ds & rest & Hskip & Hds & Hrest & _).
  assert (Hfit : (decimal_value ds <= INT_MAX)%Z).
  { destruct ds as [|d ds'] eqn:Eds; [unfold INT_MAX; cbn; lia|].
    rewrite <- Eds in *.
    assert (Hlen : (p + length ds + length rest = length text)%nat).
    { pose proof (f_equal (@length byte) Hskip) as Hl.
      rewrite length_skipn, length_app in Hl.
      assert (0 < length ds)%nat by (rewrite Eds; cbn; lia). lia. }
    rewrite <- (span_of_skipn text ds rest p Hskip).
    apply Hno; [lia|].
    intros i Hi. replace i with (p + (i - p))%nat by lia.
    rewrite (char_at_skipn text _ p (i - p) Hskip).
    rewrite app_nth1 by lia.
    rewrite Forall_forall in Hds. apply Hds, nth_In. lia. }
  rewrite (parseAnsiCode_digits text ds rest p Hskip Hds Hrest Hfit).
  cbn [fst]. split; [now apply decimal_value_nonneg|exact Hfit].
Qed.

Lemma truecolor_passes (text : list byte) (st : State) :
  passes text (ptr st) (ptr (truecolor text st)).
Proof.
  unfold truecolor.
  destruct (looking_at text (ptr st) SEMI) eqn:L1; [|apply passes_refl].
  pose proof (parseAnsiCode_passes text (S (ptr st))) as P1.
  destruct (parseAnsiCode text (S (ptr st))) as [r p1]. cbn [snd] in P1.
  cbn [ptr set_ptr].
  assert (T1 : passes text (ptr st) p1)
    by (eapply passes_trans; [apply semicolon_passes, L1|exact P1]).
  destruct (looking_at text p1 SEMI) eqn:L2; [|exact T1].
  pose proof (parseAnsiCode_passes text (S p1)) as P2.
  destruct (parseAnsiCode text (S p1)) as [g p2]. cbn [snd] in P2.
  cbn [ptr set_ptr].
  assert (T2 : passes text (ptr st) p2).
  { eapply passes_trans; [exact T1|].
    eapply passes_trans; [apply semicolon_passes, L2|exact P2]. }
  destruct (looking_at text p2 SEMI) eqn:L3; [|exact T2].
  pose proof (parseAnsiCode_passes text (S p2)) as P3.
  destruct (parseAnsiCode text (S p2)) as [b p3]. cbn [snd] in P3.
  cbn [ptr set_ptr set_currentColor].
  eapply passes_trans; [exact T2|].
  eapply passes_trans; [apply semicolon_passes, L3|exact P3].
Qed.

Lemma apply_code_passes (text : list byte) (code : Z) (st : State) :
  passes text (ptr st) (ptr (apply_code text code st)).
Proof.
  unfold apply_code.
  destruct (code =? 0)%Z; [apply passes_refl|].
  destruct (code =? 1)%Z; [apply passes_refl|].
  destruct (code =? 22)%Z; [apply passes_refl|].
  destruct ((30 <=? code) && (code <=? 37))%Z; [apply passes_refl|].
  destruct ((90 <=? code) && (code <=? 97))%Z; [apply passes_refl|].
  destruct (code =? 38)%Z; cbn [andb]; [|apply passes_refl].
  destruct (looking_at text (ptr st) SEMI) eqn:L1; [|apply passes_refl].
  pose proof (parseAnsiCode_passes text (S (ptr st))) as P1.
  destruct (parseAnsiCode text (S (ptr st))) as [type p1]. cbn [snd] in P1.
  cbn [ptr set_ptr].
  assert (T1 : passes text (ptr st) p1)
    by (eapply passes_trans; [apply semicolon_passes, L1|exact P1]).
  destruct (type =? 5)%Z; cbn [andb].
  - destruct (looking_at text p1 SEMI) eqn:L2.
    + pose proof (parseAnsiCode_passes text (S p1)) as P2.
      destruct (parseAnsiCode text (S p1)) as [colorCode p2].
      cbn [snd] in P2. cbn [ptr set_ptr set_currentColor].
      eapply passes_trans; [exact T1|].
      eapply passes_trans; [apply semicolon_passes, L2|exact P2].
    + destruct (type =? 2)%Z; [|exact T1].
      eapply passes_trans; [exact T1|].
      apply (truecolor_passes text (set_ptr p1 st)).
  - destruct (type =? 2)%Z; [|exact T1].
    eapply passes_trans; [exact T1|].
    apply (truecolor_passes text (set_ptr p1 st)).
Qed.

(** One iteration of the escape loop moves [ptr] over digits and [;]
    only. *)
Lemma escape_iteration_passes (text : list byte) (st : State) :
  passes text (ptr st) (ptr (escape_iteration text st)).
Proof.
  unfold escape_iteration.
  pose proof (parseAnsiCode_passes text (ptr st)) as P0.
  destruct (parseAnsiCode text (ptr st)) as [code p]. cbn [snd] in P0.
  pose proof (apply_code_passes text code (set_ptr p st)) as P1.
  cbn [ptr set_ptr] in P1.
  assert (T : passes text (ptr st)
                (ptr (apply_code text code (set_ptr p st))))
    by (eapply passes_trans; eauto).
  destruct (looking_at text (ptr (apply_code text code (set_ptr p st))) SEMI)
    eqn:L; [|exact T].
  cbn [ptr set_ptr].
  eapply passes_trans; [exact T|apply semicolon_passes, L].
Qed.

Lemma step_in_sequence (text : list byte) (cfg cfg' : Mode * State) :
  step text cfg = Some cfg' ->
  in_sequence text cfg -> in_sequence text cfg'.
Proof.
  destruct cfg as [[|] st]; unfold step.
  - destruct (ptr st <? length text)%nat; [|discriminate].
    destruct (Byte.eqb (char_at text (ptr st)) ESC
              && looking_at text (S (ptr st)) LBRACKET) eqn:Hm.
    + intros Heq _ _. inversion Heq; subst cfg'; clear Heq.
      exists (ptr st). split; [exact Hm|].
      cbn [snd ptr set_ptr].
      destruct (segmentStart st <? ptr st)%nat.
      * destruct (renderTextSegment_same_scan text (segmentStart st) (ptr st)
                    st) as (-> & _).
        apply passes_refl.
      * apply passes_refl.
    + intros Heq _ Hmode. inversion Heq; subst cfg'. discriminate Hmode.
  - destruct ((ptr st <? length text)%nat
              && negb (Byte.eqb (char_at text (ptr st)) LOWER_M)).
    + intros Heq Hin _. inversion Heq; subst cfg'; clear Heq.
      destruct (Hin eq_refl) as (i & Hi & Hp). exists i. split; [exact Hi|].
      cbn [snd] in *.
      eapply passes_trans; [exact Hp|apply escape_iteration_passes].
    + intros Heq _ Hmode. inversion Heq; subst cfg'. discriminate Hmode.
Qed.

Lemma iterate_in_sequence (text : list byte) (n : nat) :
  forall cfg cfg' : Mode * State,
  iterate n text cfg = Some cfg' ->
  in_sequence text cfg -> in_sequence text cfg'.
Proof.
  induction n as [|n IH]; intros cfg cfg'; cbn [iterate].
  - intros Heq. inversion Heq; subst. auto.
  - destruct (step text cfg) as [cfg1|] eqn:Hstep; [|discriminate].
    intros Hit Hin. apply (IH cfg1 cfg' Hit).
    apply (step_in_sequence text cfg cfg1 Hstep Hin).
Qed.

Lemma sgr_closed_not_stuck (text : list byte) (cfg : Mode * State) :
  sgr_closed text -> in_sequence text cfg -> ~ stuck text cfg.
Proof.
  intros Hclosed Hin (Hmode & Hlt & Hdigit & Hsemi & Hm).
  destruct (Hin Hmode) as (i & Hi & Hle & Hpass).
  destruct (Hclosed i Hi) as (j & Hj & Hall & Hend).
  assert (Hnot : ~ sgr_byte (char_at text (ptr (snd cfg)))).
  { intros [Hd| Hs]; [congruence|contradiction]. }
  destruct (Nat.lt_trichotomy (ptr (snd cfg)) j) as [Hlow|[Heq|Hhigh]].
  - apply Hnot, Hall. lia.
  - apply Hm. rewrite Heq. apply Hend. lia.
  - assert (Hmj : char_at text j = LOWER_M) by (apply Hend; lia).
    assert (Hsj : sgr_byte (char_at text j)) by (apply Hpass; lia).
    apply sgr_byte_not_m in Hsj. rewrite Hmj in Hsj. discriminate Hsj.
Qed.

Lemma esc_startb_inside (text : list byte) (i : nat) :
  esc_startb text i = true ->
  (S i < length text)%nat /\ char_at text i = ESC /\
  char_at text (S i) = LBRACKET.
Proof.
  unfold esc_startb. rewrite andb_true_iff. intros [H1 H2].
  apply looking_at_true in H2. destruct H2 as [H2 H3].
  repeat split; auto. now apply Byte.byte_dec_bl.
Qed.

Lemma sgr_byte_not_ESC (c : byte) : sgr_byte c -> c <> ESC.
Proof. intros [H| ->] Heq; [rewrite Heq in H|]; discriminate. Qed.

Lemma run_closed_from (text : list byte) (fuel : nat) :
  forall (cfg : Mode * State) (st : State),
  (ptr (snd cfg) <= length text)%nat ->
  run fuel text cfg = Some st -> closed_from text cfg.
Proof.
  induction fuel as [|fuel IH]; intros cfg st Hle Hrun.
  - cbn [run] in Hrun.
    destruct (step text cfg) as [cfg'|] eqn:Hstep; [discriminate|].
    destruct (step_None_Literal text cfg Hstep) as [Hmode Hend].
    split.
    + intros i Hi Hm. cbn [fst snd] in Hi.
      apply esc_startb_inside in Hm. lia.
    + intros Hesc. congruence.
  - cbn [run] in Hrun.
    destruct (step text cfg) as [cfg'|] eqn:Hstep.
    2:{ destruct (step_None_Literal text cfg Hstep) as [Hmode Hend].
        split.
        - intros i Hi Hm. cbn [fst snd] in Hi.
      apply esc_startb_inside in Hm. lia.
        - intros Hesc. congruence. }
    destruct cfg as [[|] s]; unfold step in Hstep; cbn [fst snd] in *.
    + destruct (ptr s <? length text)%nat eqn:Hlt; [|discriminate].
      apply Nat.ltb_lt in Hlt.
      destruct (Byte.eqb (char_at text (ptr s)) ESC
                && looking_at text (S (ptr s)) LBRACKET) eqn:Hm.
      * inversion Hstep; subst cfg'; clear Hstep.
        pose proof (esc_startb_inside text (ptr s) Hm) as (Hin & HE & HB).
        assert (Hptr : ptr (set_ptr
                         (ptr (if (segmentStart s <? ptr s)%nat
                               then renderTextSegment text (segmentStart s)
                                      (ptr s) s
                               else s) + 2)
                         (if (segmentStart s <? ptr s)%nat
                          then renderTextSegment text (segmentStart s)
                                 (ptr s) s
                          else s)) = (ptr s + 2)%nat).
        { cbn [ptr set_ptr]. destruct (segmentStart s <? ptr s)%nat; auto.
          destruct (renderTextSegment_same_scan text (segmentStart s) (ptr s)
                      s) as (-> & _). reflexivity. }
        apply IH in Hrun as [Hall Hesc]; [|cbn [snd]; rewrite Hptr; lia].
        cbn [fst snd] in Hall, Hesc. rewrite Hptr in Hall, Hesc.
        split; [|intros Hmode; discriminate Hmode].
        intros i Hi Hmi. cbn [fst snd] in Hi.
        destruct (Nat.eq_dec i (ptr s)) as [->|Hne].
        { destruct (Hesc eq_refl) as (j & Hj & Hsgr & Hend).
          exists j. repeat split; auto; lia. }
        destruct (Nat.eq_dec i (S (ptr s))) as [->|Hne'].
        { apply esc_startb_inside in Hmi. destruct Hmi as (_ & HE' & _).
          rewrite HB in HE'. discriminate HE'. }
        apply Hall; [lia|exact Hmi].
      * inversion Hstep; subst cfg'; clear Hstep.
        apply IH in Hrun as [Hall _]; [|cbn [snd ptr set_ptr]; lia].
        cbn [fst snd ptr set_ptr] in Hall.
        split; [|intros Hmode; discriminate Hmode].
        intros i Hi Hmi. cbn [fst snd] in Hi.
        destruct (Nat.eq_dec i (ptr s)) as [->|Hne].
        { unfold esc_startb in Hmi. rewrite Hm in Hmi. discriminate Hmi. }
        apply Hall; [lia|exact Hmi].
    + destruct ((ptr s <? length text)%nat
                && negb (Byte.eqb (char_at text (ptr s)) LOWER_M)) eqn:Hloop.
      * inversion Hstep; subst cfg'; clear Hstep.
        pose proof (escape_iteration_passes text s) as [Hge Hpass].
        pose proof (escape_iteration_frame text s) as (_ & _ & _ & Hfr).
        apply IH in Hrun as [Hall Hesc]; [|cbn [snd]; lia].
        cbn [fst snd] in Hall, Hesc.
        split.
        { intros i Hi Hmi. cbn [fst snd] in Hi.
          destruct (Nat.lt_ge_cases i (ptr (escape_iteration text s)))
            as [Hlow|Hhigh].
          - exfalso. apply (sgr_byte_not_ESC (char_at text i)).
            + apply Hpass. lia.
            + now apply esc_startb_inside in Hmi.
          - apply Hall; auto. }
        { intros _. cbn [fst snd]. destruct (Hesc eq_refl) as (j & Hj & Hsgr & Hend).
          exists j. split; [lia|]. split; [|exact Hend].
          intros i Hi.
          destruct (Nat.lt_ge_cases i (ptr (escape_iteration text s)));
            [apply Hpass|apply Hsgr]; lia. }
      * inversion Hstep; subst cfg'; clear Hstep.
        assert (Hnext : (ptr s
                         <= ptr (if looking_at text (ptr s) LOWER_M
                                 then set_ptr (S (ptr s)) s else s)
                         <= length text)%nat /\
                        forall i, (ptr s <= i)%nat ->
                          (i < ptr (if looking_at text (ptr s) LOWER_M
                                    then set_ptr (S (ptr s)) s else s))%nat ->
                          char_at text i = LOWER_M).
        { destruct (looking_at text (ptr s) LOWER_M) eqn:Hlook.
          - apply looking_at_true in Hlook. destruct Hlook as [Hl Hc].
            cbn [ptr set_ptr]. split; [lia|].
            intros i H1 H2. replace i with (ptr s) by lia. exact Hc.
          - split; [lia|]. intros i H1 H2. lia. }
        destruct Hnext as [Hnext Hm].
        apply IH in Hrun as [Hall _];
          [|cbn [snd ptr set_segmentStart]; lia].
        cbn [fst snd ptr set_segmentStart] in Hall.
        split.
        { intros i Hi Hmi. cbn [fst snd] in Hi.
          destruct (Nat.lt_ge_cases i
                      (ptr (if looking_at text (ptr s) LOWER_M
                            then set_ptr (S (ptr s)) s else s)))
            as [Hlow|Hhigh].
          - exfalso. apply esc_startb_inside in Hmi.
            destruct Hmi as (_ & HE & _).
            rewrite (Hm i Hi Hlow) in HE. discriminate HE.
          - apply Hall; auto. }
        { intros _. cbn [fst snd]. exists (ptr s). split; [lia|]. split.
          - intros i Hi. lia.
          - intros Hlt.
            apply andb_false_iff in Hloop. destruct Hloop as [Hloop|Hloop].
            + apply Nat.ltb_ge in Hloop. lia.
            + apply negb_false_iff in Hloop.
              now apply Byte.byte_dec_bl. }
Qed.


(** X13.  A call that returns has made at most two loop iterations per
    byte of the buffer (the iterations of the outer and of the inner
    [while] counted together). *)
Theorem returns_within_linear_fuel (text : list byte) (fuel : nat)
  (st : State) :
  RenderAnsiText fuel text = Some st ->
  RenderAnsiText (2 * length text) text = Some st.
Proof.
  intros Hret.
  assert (Hns : forall n cfg,
            iterate n text (Literal, initial) = Some cfg ->
            ~ stuck text cfg).
  { apply RenderAnsiText_returns_iff. now exists fuel, st. }
  destruct (run_terminates text (2 * length text) (Literal, initial))
    as [s Hs]; [cbn; lia|exact Hns|cbn; lia|].
  unfold RenderAnsiText in *.
  destruct (run fuel text (Literal, initial)) as [s'|] eqn:Hrun;
    [|discriminate].
  pose proof (run_more_fuel text fuel (Literal, initial) s' Hrun
                (fuel + 2 * length text) ltac:(lia)) as H1.
  pose proof (run_more_fuel text (2 * length text) (Literal, initial) s Hs
                (fuel + 2 * length text) ltac:(lia)) as H2.
  rewrite Hs. congruence.
Qed.

End Passing.

(** ** The draw list against the buffer: order and coverage *)

Lemma ordered_weaken (dl : list DrawCmd) :
  forall lo hi hi' : nat,
  ordered lo dl hi -> (hi <= hi')%nat -> ordered lo dl hi'.
Proof.
  induction dl as [|cmd dl IH]; intros lo hi hi'; cbn [ordered].
  - lia.
  - intros (H1 & H2 & H3) Hle. repeat split; auto. now apply (IH _ hi).
Qed.

Lemma ordered_snoc (dl : list DrawCmd) (p : ImVec2) (c : ImU32) :
  forall lo mid a b hi : nat,
  ordered lo dl mid -> (mid <= a)%nat -> (a < b)%nat -> (b <= hi)%nat ->
  ordered lo (dl ++ [AddText p c a b]) hi.
Proof.
  induction dl as [|cmd dl IH]; intros lo mid a b hi; cbn [ordered app].
  - intros H1 H2 H3 H4. cbn [text_begin text_end]. repeat split; lia.
  - intros (H1 & H2 & H3) Ha Hab Hb. repeat split; auto.
    now apply (IH _ mid).
Qed.

Lemma drawn_app_l (dl new : list DrawCmd) (i : nat) :
  drawn dl i -> drawn (dl ++ new) i.
Proof.
  intros (cmd & Hin & Hi). exists cmd. split; [|exact Hi].
  apply in_or_app. now left.
Qed.

Lemma control_of_test (c : byte) :
  (uchar c <? 32)%Z && negb (Byte.eqb c ESC) = true -> control c.
Proof.
  rewrite andb_true_iff, Z.ltb_lt, negb_true_iff. intros [H1 H2].
  split; [exact H1|]. intros ->. discriminate H2.
Qed.

Section Layout.

Context {gui : ImGui}.

Lemma emit_pending_ordered (text : list byte) (lo a b : nat) (st : State) :
  ordered lo (drawList st) a -> (a <= b)%nat ->
  ordered lo (drawList (emit_pending text a b st)) b.
Proof.
  intros Hord Hle. rewrite emit_pending_drawList.
  destruct (Nat.ltb_spec a b) as [Hlt|_].
  - apply (ordered_snoc _ _ _ lo a a b b); auto.
  - now apply (ordered_weaken _ lo a b).
Qed.

Lemma emit_pending_drawn (text : list byte) (a b i : nat) (st : State) :
  drawn (drawList st) i \/ (a <= i < b)%nat ->
  drawn (drawList (emit_pending text a b st)) i.
Proof.
  rewrite emit_pending_drawList.
  destruct (Nat.ltb_spec a b) as [Hlt|Hge].
  - intros [Hd|Hi]; [now apply drawn_app_l|].
    exists (AddText (pos st) (currentColor st) a b). split.
    + apply in_or_app. right. now left.
    + exact Hi.
  - intros [Hd|Hi]; [exact Hd|lia].
Qed.

(** The inner loop of [renderTextSegment] from [current], the bytes of
    [[segStart, current)] pending: the spans stay in order, nothing drawn is
    lost, and every byte from [segStart] on is drawn or is a control
    character. *)
Lemma renderTextSegment_loop_layout (text rest : list byte) (lo : nat) :
  forall (segStart current : nat) (st : State),
  (forall k, (k < length rest)%nat ->
     nth k rest x00 = char_at text (current + k)) ->
  (segStart <= current)%nat ->
  ordered lo (drawList st) segStart ->
  ordered lo
    (drawList (renderTextSegment_loop text rest segStart current st))
    (current + length rest) /\
  (forall i, drawn (drawList st) i ->
     drawn (drawList (renderTextSegment_loop text rest segStart current st))
       i) /\
  (forall i, (segStart <= i < current + length rest)%nat ->
     drawn (drawList (renderTextSegment_loop text rest segStart current st))
       i \/ control (char_at text i)).
Proof.
  induction rest as [|c rest IH]; intros segStart current st Hrest Hle Hord;
    cbn [renderTextSegment_loop length].
  - rewrite Nat.add_0_r. split; [|split].
    + now apply emit_pending_ordered.
    + intros i Hi. apply emit_pending_drawn. now left.
    + intros i Hi. left. apply emit_pending_drawn. now right.
  - assert (Hc : c = char_at text current).
    { specialize (Hrest 0%nat ltac:(cbn [length]; lia)). cbn [nth] in Hrest.
      now rewrite Nat.add_0_r in Hrest. }
    assert (Hrest' : forall k, (k < length rest)%nat ->
                       nth k rest x00 = char_at text (S current + k)).
    { intros k Hk. specialize (Hrest (S k) ltac:(cbn [length]; lia)).
      cbn [nth] in Hrest. rewrite Hrest. f_equal. lia. }
    replace (current + S (length rest))%nat
      with (S current + length rest)%nat by lia.
    assert (Hnext : forall st1,
               drawList st1
               = drawList (emit_pending text segStart current st) ->
               control c ->
               ordered lo
                 (drawList (renderTextSegment_loop text rest (S current)
                              (S current) st1))
                 (S current + length rest) /\
               (forall i, drawn (drawList st) i ->
                  drawn (drawList (renderTextSegment_loop text rest
                                     (S current) (S current) st1)) i) /\
               (forall i, (segStart <= i < S current + length rest)%nat ->
                  drawn (drawList (renderTextSegment_loop text rest
                                     (S current) (S current) st1)) i
                  \/ control (char_at text i))).
    { intros st1 Hst1 Hctl.
      destruct (IH (S current) (S current) st1 Hrest' (le_n _))
        as (Ho & Hmono & Hcov).
      { rewrite Hst1. apply (ordered_weaken _ lo current); [|lia].
        now apply emit_pending_ordered. }
      split; [exact Ho|]. split.
      - intros i Hi. apply Hmono. rewrite Hst1.
        apply emit_pending_drawn. now left.
      - intros i Hi.
        destruct (Nat.lt_trichotomy i current) as [Hlow|[->|Hhigh]].
        + left. apply Hmono. rewrite Hst1.
          apply emit_pending_drawn. right. lia.
        + right. now rewrite <- Hc.
        + apply Hcov. lia. }
    destruct (Byte.eqb c LF) eqn:HLF.
    { apply Hnext; [reflexivity|].
      apply Byte.byte_dec_bl in HLF. subst c. rewrite HLF.
      split; [reflexivity|discriminate]. }
    destruct (Byte.eqb c CR) eqn:HCR.
    { apply Hnext; [reflexivity|].
      apply Byte.byte_dec_bl in HCR. subst c. rewrite HCR.
      split; [reflexivity|discriminate]. }
    destruct (Byte.eqb c TAB) eqn:HTAB.
    { apply Hnext; [reflexivity|].
      apply Byte.byte_dec_bl in HTAB. subst c. rewrite HTAB.
      split; [reflexivity|discriminate]. }
    destruct (Byte.eqb c BS) eqn:HBS.
    { apply Hnext; [reflexivity|].
      apply Byte.byte_dec_bl in HBS. subst c. rewrite HBS.
      split; [reflexivity|discriminate]. }
    destruct ((uchar c <? 32)%Z && negb (Byte.eqb c ESC)) eqn:Hctl.
    { apply Hnext; [reflexivity|]. now apply control_of_test. }
    destruct (IH segStart (S current) st Hrest' ltac:(lia) Hord)
      as (Ho & Hmono & Hcov).
    split; [exact Ho|]. split; [exact Hmono|].
    intros i Hi. apply Hcov. lia.
Qed.

Lemma renderTextSegment_layout (text : list byte) (lo a b : nat)
  (st : State) :
  (a <= b <= length text)%nat ->
  ordered lo (drawList st) a ->
  ordered lo (drawList (renderTextSegment text a b st)) b /\
  (forall i, drawn (drawList st) i ->
     drawn (drawList (renderTextSegment text a b st)) i) /\
  (forall i, (a <= i < b)%nat ->
     drawn (drawList (renderTextSegment text a b st)) i
     \/ control (char_at text i)).
Proof.
  intros Hab Hord. unfold renderTextSegment.
  destruct (Nat.ltb_spec a b) as [Hlt|Hge].
  - pose proof (renderTextSegment_loop_layout text (span text a b) lo a a st)
      as H.
    rewrite span_length in H by lia.
    replace (a + (b - a))%nat with b in H by lia.
    apply H; auto. intros k Hk. now apply span_nth.
  - split; [|split]; auto.
    + apply (ordered_weaken _ lo a b); auto; lia.
    + intros i Hi. lia.
Qed.

Lemma initial_layout_ok (text : list byte) :
  layout_ok text (Literal, initial).
Proof.
  unfold layout_ok, settled. cbn. repeat split; intros; lia.
Qed.

Lemma accounted_mono (text : list byte) (dl dl' : list DrawCmd) (i : nat) :
  (forall k, drawn dl k -> drawn dl' k) ->
  accounted text dl i -> accounted text dl' i.
Proof. intros Hmono [H|H]; [left; auto|right; exact H]. Qed.

Lemma step_layout_ok (text : list byte) (cfg cfg' : Mode * State) :
  step text cfg = Some cfg' -> layout_ok text cfg -> layout_ok text cfg'.
Proof.
  destruct cfg as [[|] st]; unfold step, layout_ok, settled;
    cbn [fst snd]; intros Hstep (Hle & Hord & Hacc).
  - destruct (Nat.ltb_spec (ptr st) (length text)) as [Hlt|_];
      [|discriminate].
    destruct (Byte.eqb (char_at text (ptr st)) ESC
              && looking_at text (S (ptr st)) LBRACKET) eqn:Hm.
    + pose proof (esc_startb_inside text (ptr st) Hm) as (Hin & HE & HB).
      assert (Hseg : exists st1,
                 (if (segmentStart st <? ptr st)%nat
                  then renderTextSegment text (segmentStart st) (ptr st) st
                  else st) = st1 /\
                 ptr st1 = ptr st /\
                 ordered 0 (drawList st1) (ptr st) /\
                 forall i, (i < ptr st)%nat -> accounted text (drawList st1) i).
      { destruct (Nat.ltb_spec (segmentStart st) (ptr st)) as [Hseg|Hseg].
        - eexists. split; [reflexivity|].
          destruct (renderTextSegment_same_scan text (segmentStart st)
                      (ptr st) st) as (Hp & _).
          destruct (renderTextSegment_layout text 0 (segmentStart st)
                      (ptr st) st ltac:(lia) Hord) as (Ho & Hmono & Hcov).
          split; [exact Hp|]. split; [exact Ho|].
          intros i Hi.
          destruct (Nat.lt_ge_cases i (segmentStart st)) as [Hlow|Hhigh].
          + apply (accounted_mono text (drawList st)); auto.
          + destruct (Hcov i ltac:(lia)) as [Hd|Hc];
              [left; exact Hd|right; left; exact Hc].
        - exists st. split; [reflexivity|]. split; [reflexivity|].
          replace (ptr st) with (segmentStart st) by lia.
          split; assumption. }
      destruct Hseg as (st1 & Hst1 & Hp1 & Ho1 & Hacc1).
      rewrite Hst1 in Hstep.
      inversion Hstep; subst cfg'; clear Hstep.
      cbn [fst snd ptr set_ptr drawList]. rewrite Hp1.
      split; [lia|]. split.
      * apply (ordered_weaken _ 0 (ptr st)); auto; lia.
      * intros i Hi.
        destruct (Nat.lt_ge_cases i (ptr st)) as [Hlow|Hhigh];
          [now apply Hacc1|].
        right. right.
        destruct (Nat.eq_dec i (ptr st)) as [->|Hne].
        -- left. exact HE.
        -- replace i with (S (ptr st)) by lia. right. left. exact HB.
    + inversion Hstep; subst cfg'; clear Hstep.
      cbn [fst snd ptr set_ptr drawList segmentStart].
      split; [lia|]. split; assumption.
  - destruct ((ptr st <? length text)%nat
              && negb (Byte.eqb (char_at text (ptr st)) LOWER_M)) eqn:Hloop.
    + inversion Hstep; subst cfg'; clear Hstep. cbn [fst snd].
      pose proof (escape_iteration_passes text st) as [Hge Hpass].
      pose proof (escape_iteration_frame text st) as (_ & _ & Hdl & Hfr).
      rewrite Hdl. split; [lia|]. split.
      * apply (ordered_weaken _ 0 (ptr st)); auto.
      * intros i Hi.
        destruct (Nat.lt_ge_cases i (ptr st)) as [Hlow|Hhigh];
          [now apply Hacc|].
        right. right. right. right. left. apply Hpass. lia.
    + inversion Hstep; subst cfg'; clear Hstep.
      cbn [fst snd ptr segmentStart set_segmentStart drawList].
      destruct (looking_at text (ptr st) LOWER_M) eqn:Hlook.
      * apply looking_at_true in Hlook. destruct Hlook as [Hl Hc].
        cbn [ptr set_ptr drawList]. split; [lia|]. split.
        -- apply (ordered_weaken _ 0 (ptr st)); auto.
        -- intros i Hi.
           destruct (Nat.lt_ge_cases i (ptr st)) as [Hlow|Hhigh];
             [now apply Hacc|].
           replace i with (ptr st) by lia.
           right. right. right. right. right. exact Hc.
      * split; [lia|]. split; assumption.
Qed.

Lemma run_layout_ok (text : list byte) (fuel : nat) :
  forall (cfg : Mode * State) (st : State),
  run fuel text cfg = Some st -> layout_ok text cfg ->
  layout_ok text (Literal, st) /\ ptr st = length text.
Proof.
  assert (Hend : forall (cfg : Mode * State) (st : State),
            step text cfg = None -> Some (snd cfg) = Some st ->
            layout_ok text cfg ->
            layout_ok text (Literal, st) /\ ptr st = length text).
  { intros [mode s] st Hnone Heq Hok. inversion Heq; subst st; clear Heq.
    destruct (step_None_Literal text (mode, s) Hnone) as [Hmode Hge].
    cbn [fst snd] in *. subst mode. split; [exact Hok|].
    destruct Hok as (Hle & _). cbn [snd] in Hle. lia. }
  induction fuel as [|fuel IH]; intros cfg st; cbn [run];
    destruct (step text cfg) as [cfg'|] eqn:Hstep; try discriminate;
    try (now apply Hend).
  intros Hrun Hok. apply (IH cfg' st Hrun).
  now apply (step_layout_ok text cfg cfg').
Qed.

Lemma RenderAnsiText_layout (text : list byte) (fuel : nat) (st : State) :
  RenderAnsiText fuel text = Some st ->
  ordered 0 (drawList st) (length text) /\
  forall i, (i < length text)%nat -> accounted text (drawList st) i.
Proof.
  unfold RenderAnsiText.
  destruct (run fuel text (Literal, initial)) as [s|] eqn:Hrun;
    [|discriminate].
  intros Heq. inversion Heq; subst st; clear Heq.
  rewrite end_of_text_drawList.
  destruct (run_layout_ok text fuel (Literal, initial) s Hrun
              (initial_layout_ok text)) as ((Hle & Hord & Hacc) & Hptr).
  unfold settled in *. cbn [fst snd] in *.
  unfold final_segment.
  destruct (Nat.ltb_spec (segmentStart s) (ptr s)) as [Hseg|Hseg].
  - destruct (renderTextSegment_layout text 0 (segmentStart s) (ptr s) s
                ltac:(lia) Hord) as (Ho & Hmono & Hcov).
    rewrite Hptr in *. split; [exact Ho|].
    intros i Hi.
    destruct (Nat.lt_ge_cases i (segmentStart s)) as [Hlow|Hhigh].
    + apply (accounted_mono text (drawList s)); auto.
    + destruct (Hcov i ltac:(lia)) as [Hd|Hc];
        [left; exact Hd|right; left; exact Hc].
  - replace (length text) with (segmentStart s) by lia.
    split; assumption.
Qed.

(** X14.  The runs are drawn in the order of the buffer and their spans do
    not overlap: each begins at or after the end of the one before it, and
    the last ends inside the buffer.  No byte is drawn twice. *)
Theorem spans_in_buffer_order (text : list byte) (fuel : nat) (st : State) :
  RenderAnsiText fuel text = Some st ->
  ordered 0 (drawList st) (length text).
Proof. intros Hret. now apply (RenderAnsiText_layout text fuel st). Qed.

(** X15.  No byte is lost: when the call returns, every byte of the buffer
    that is not a control character and not one of the bytes escape
    sequences are made of (ESC, '[', a digit, ';', 'm') is in the span of a
    run. *)
Theorem no_byte_lost (text : list byte) (fuel : nat) (st : State) (i : nat) :
  RenderAnsiText fuel text = Some st ->
  (i < length text)%nat ->
  ~ control (char_at text i) ->
  ~ sgr_syntax (char_at text i) ->
  drawn (drawList st) i.
Proof.
  intros Hret Hi Hctl Hsgr.
  destruct (RenderAnsiText_layout text fuel st Hret) as [_ Hacc].
  destruct (Hacc i Hi) as [Hd|[Hc|Hs]]; [exact Hd|contradiction|contradiction].
Qed.

(** X16.  On a buffer without the marker [ESC '['] the call returns after
    one iteration per byte, and the bytes drawn are exactly the bytes that
    are not control characters (a lone ESC among them). *)
Theorem marker_free_draws_all_kept (text : list byte) (fuel : nat) :
  (forall i, esc_startb text i = false) ->
  (length text <= fuel)%nat ->
  exists st,
    RenderAnsiText fuel text = Some st /\
    forall i, drawn (drawList st) i
              <-> (i < length text)%nat /\ kept (char_at text i).
Proof.
  intros Hfree Hfuel.
  assert (Hrun : run fuel text (Literal, initial)
                 = Some (set_ptr (length text) initial)).
  { apply (run_plain text (length text)); auto. }
  assert (Hret : RenderAnsiText fuel text
                 = Some (end_of_text text
                           (final_segment text
                              (set_ptr (length text) initial)))).
  { unfold RenderAnsiText. now rewrite Hrun. }
  eexists. split; [exact Hret|].
  destruct (RenderAnsiText_layout text fuel _ Hret) as [_ Hacc].
  destruct (run_scan_ok text fuel (Literal, initial) _ Hrun
              (initial_scan_ok text)) as [Hscan _].
  pose proof (final_segment_spans text _ Hscan) as Hspans.
  rewrite end_of_text_drawList in *.
  intros i. split.
  - intros (cmd & Hin & Hi).
    rewrite Forall_forall in Hspans.
    destruct (Hspans cmd Hin) as [Hb Hk].
    split; [lia|]. now apply Hk.
  - intros [Hi Hk].
    assert (Hcov : forall k, (k < length text)%nat ->
              drawn (drawList (final_segment text
                                 (set_ptr (length text) initial))) k
              \/ control (char_at text k)).
    { unfold final_segment. cbn [segmentStart ptr set_ptr initial].
      destruct (Nat.ltb_spec 0 (length text)) as [Hpos|Hzero]; [|lia].
      intros k Hlt.
      destruct (renderTextSegment_layout text 0 0 (length text)
                  (set_ptr (length text) initial) ltac:(lia))
        as (_ & _ & Hcov); [cbn; lia|].
      apply Hcov. lia. }
    destruct (Hcov i Hi) as [Hd|[Hlow Hne]]; [exact Hd|].
    destruct Hk as [Hge|Hesc]; [lia|contradiction].
Qed.

End Layout.

(** ** The lines: where the runs and the cursor are, vertically *)

Lemma newlines_before_S (text : list byte) :
  forall k : nat,
  (k < length text)%nat ->
  newlines_before text (S k)
  = (newlines_before text k
     + if Byte.eqb (char_at text k) LF then 1 else 0)%nat.
Proof.
  unfold newlines_before, char_at.
  induction text as [|c text IH]; intros k Hk; cbn [length] in Hk; [lia|].
  destruct k as [|k].
  - cbn [firstn count_occ nth].
    destruct (Byte.byte_eq_dec c LF) as [->|Hne].
    + reflexivity.
    + now rewrite byte_eqb_neq.
  - change (firstn (S (S k)) (c :: text)) with (c :: firstn (S k) text).
    change (firstn (S k) (c :: text)) with (c :: firstn k text).
    cbn [count_occ nth].
    rewrite (IH k) by lia.
    destruct (Byte.byte_eq_dec c LF); lia.
Qed.

Lemma newlines_before_same (text : list byte) (p : nat) :
  forall q : nat,
  (p <= q <= length text)%nat ->
  (forall i, (p <= i < q)%nat -> Byte.eqb (char_at text i) LF = false) ->
  newlines_before text q = newlines_before text p.
Proof.
  induction q as [|q IH]; intros Hq Hno.
  - now replace p with 0%nat by lia.
  - destruct (Nat.eq_dec p (S q)) as [->|Hne]; [reflexivity|].
    rewrite newlines_before_S by lia.
    rewrite (Hno q) by lia. rewrite Nat.add_0_r.
    apply IH; [lia|]. intros i Hi. apply Hno. lia.
Qed.

Lemma sgr_byte_not_LF (c : byte) : sgr_byte c -> Byte.eqb c LF = false.
Proof.
  intros [H| ->]; [|reflexivity].
  apply byte_eqb_neq. intros ->. discriminate H.
Qed.

Section Lines.

Context {gui : ImGui}.

Lemma line_y_same (text : list byte) (p q : nat) :
  newlines_before text q = newlines_before text p ->
  line_y text q = line_y text p.
Proof. unfold line_y. now intros ->. Qed.

Lemma line_y_newline (text : list byte) (k : nat) :
  (k < length text)%nat -> char_at text k = LF ->
  line_y text (S k) == line_y text k + lineHeight.
Proof.
  intros Hk Hc. unfold line_y. rewrite newlines_before_S by assumption.
  rewrite Hc. change (Byte.eqb LF LF) with true.
  rewrite Nat2Z.inj_add, inject_Z_plus. change (inject_Z (Z.of_nat 1)) with 1.
  ring.
Qed.

Lemma emit_pending_y (text : list byte) (a b : nat) (st : State) :
  ImVec2.y (pos (emit_pending text a b st)) = ImVec2.y (pos st).
Proof. unfold emit_pending. now destruct (a <? b)%nat. Qed.

Lemma emit_pending_on_line (text : list byte) (a b : nat) (st : State) :
  ImVec2.y (pos st) == line_y text a ->
  Forall (on_line text) (drawList st) ->
  Forall (on_line text) (drawList (emit_pending text a b st)).
Proof.
  intros Hy Hdl. rewrite emit_pending_drawList.
  destruct (a <? b)%nat; [|exact Hdl].
  apply Forall_app. split; [exact Hdl|].
  constructor; [exact Hy|constructor].
Qed.

(** The inner loop of [renderTextSegment]: the pen goes down one line
    height at every ['\n'] and at nothing else. *)
Lemma renderTextSegment_loop_lines (text rest : list byte) :
  forall (segStart current : nat) (st : State),
  (forall k, (k < length rest)%nat ->
     nth k rest x00 = char_at text (current + k)) ->
  (segStart <= current)%nat ->
  (current + length rest <= length text)%nat ->
  ImVec2.y (pos st) == line_y text segStart ->
  newlines_before text current = newlines_before text segStart ->
  Forall (on_line text) (drawList st) ->
  ImVec2.y (pos (renderTextSegment_loop text rest segStart current st))
  == line_y text (current + length rest) /\
  Forall (on_line text)
    (drawList (renderTextSegment_loop text rest segStart current st)).
Proof.
  induction rest as [|c rest IH];
    intros segStart current st Hrest Hle Hend Hy Hnl Hdl;
    cbn [renderTextSegment_loop length] in *.
  - rewrite Nat.add_0_r, emit_pending_y, (line_y_same text segStart current Hnl).
    split; [exact Hy|]. now apply emit_pending_on_line.
  - assert (Hc : c = char_at text current).
    { specialize (Hrest 0%nat ltac:(lia)). cbn [nth] in Hrest.
      now rewrite Nat.add_0_r in Hrest. }
    assert (Hrest' : forall k, (k < length rest)%nat ->
                       nth k rest x00 = char_at text (S current + k)).
    { intros k Hk. specialize (Hrest (S k) ltac:(lia)). cbn [nth] in Hrest.
      rewrite Hrest. f_equal. lia. }
    replace (current + S (length rest))%nat
      with (S current + length rest)%nat by lia.
    assert (Hnext : forall st1,
               drawList st1
               = drawList (emit_pending text segStart current st) ->
               ImVec2.y (pos st1) == line_y text (S current) ->
               ImVec2.y (pos (renderTextSegment_loop text rest (S current)
                                (S current) st1))
               == line_y text (S current + length rest) /\
               Forall (on_line text)
                 (drawList (renderTextSegment_loop text rest (S current)
                              (S current) st1))).
    { intros st1 Hst1 Hy1. apply IH; auto; try lia.
      rewrite Hst1. now apply emit_pending_on_line. }
    assert (Hstay : Byte.eqb c LF = false ->
              line_y text (S current) = line_y text segStart).
    { intros Hno. apply line_y_same.
      rewrite newlines_before_S by lia. rewrite <- Hc, Hno. lia. }
    destruct (Byte.eqb c LF) eqn:HLF.
    { apply Hnext; [reflexivity|].
      apply Byte.byte_dec_bl in HLF.
      rewrite (line_y_newline text current) by (try lia; congruence).
      rewrite (line_y_same text segStart current Hnl).
      cbn [newline pos set_pos ImVec2.y]. rewrite emit_pending_y.
      now rewrite Hy. }
    destruct (Byte.eqb c CR).
    { apply Hnext; [reflexivity|]. rewrite (Hstay eq_refl).
      cbn [carriage_return pos set_pos ImVec2.y]. now rewrite emit_pending_y. }
    destruct (Byte.eqb c TAB).
    { apply Hnext; [reflexivity|]. rewrite (Hstay eq_refl).
      cbn [tab pos set_pos ImVec2.y]. now rewrite emit_pending_y. }
    destruct (Byte.eqb c BS).
    { apply Hnext; [reflexivity|]. rewrite (Hstay eq_refl).
      cbn [backspace pos set_pos ImVec2.y]. now rewrite emit_pending_y. }
    destruct ((uchar c <? 32)%Z && negb (Byte.eqb c ESC)).
    { apply Hnext; [reflexivity|]. rewrite (Hstay eq_refl).
      now rewrite emit_pending_y. }
    apply IH; auto; try lia.
    rewrite newlines_before_S by lia. rewrite <- Hc, HLF. lia.
Qed.

Lemma renderTextSegment_lines (text : list byte) (a b : nat) (st : State) :
  (a <= b <= length text)%nat ->
  ImVec2.y (pos st) == line_y text a ->
  Forall (on_line text) (drawList st) ->
  ImVec2.y (pos (renderTextSegment text a b st)) == line_y text b /\
  Forall (on_line text) (drawList (renderTextSegment text a b st)).
Proof.
  intros Hab Hy Hdl. unfold renderTextSegment.
  destruct (Nat.ltb_spec a b) as [Hlt|Hge].
  - pose proof (renderTextSegment_loop_lines text (span text a b) a a st)
      as H.
    rewrite span_length in H by lia.
    replace (a + (b - a))%nat with b in H by lia.
    apply H; auto; try lia. intros k Hk. now apply span_nth.
  - replace b with a by lia. now split.
Qed.

Lemma initial_lines_ok (text : list byte) : lines_ok text (Literal, initial).
Proof.
  unfold lines_ok, settled, line_y, newlines_before.
  cbn [fst snd initial segmentStart ptr pos drawList firstn count_occ].
  split; [lia|]. split; [|constructor].
  change (inject_Z (Z.of_nat 0)) with 0. ring.
Qed.

Lemma step_lines_ok (text : list byte) (cfg cfg' : Mode * State) :
  step text cfg = Some cfg' -> lines_ok text cfg -> lines_ok text cfg'.
Proof.
  destruct cfg as [[|] st]; unfold step, lines_ok, settled;
    cbn [fst snd]; intros Hstep (Hle & Hy & Hdl).
  - destruct (Nat.ltb_spec (ptr st) (length text)) as [Hlt|_];
      [|discriminate].
    destruct (Byte.eqb (char_at text (ptr st)) ESC
              && looking_at text (S (ptr st)) LBRACKET) eqn:Hm.
    + pose proof (esc_startb_inside text (ptr st) Hm) as (Hin & HE & HB).
      assert (Hseg : exists st1,
                 (if (segmentStart st <? ptr st)%nat
                  then renderTextSegment text (segmentStart st) (ptr st) st
                  else st) = st1 /\
                 ptr st1 = ptr st /\
                 ImVec2.y (pos st1) == line_y text (ptr st) /\
                 Forall (on_line text) (drawList st1)).
      { destruct (Nat.ltb_spec (segmentStart st) (ptr st)) as [Hseg|Hseg].
        - eexists. split; [reflexivity|].
          destruct (renderTextSegment_same_scan text (segmentStart st)
                      (ptr st) st) as (Hp & _).
          split; [exact Hp|].
          apply renderTextSegment_lines; auto; lia.
        - exists st. split; [reflexivity|]. split; [reflexivity|].
          replace (ptr st) with (segmentStart st) by lia.
          split; assumption. }
      destruct Hseg as (st1 & Hst1 & Hp1 & Hy1 & Hdl1).
      rewrite Hst1 in Hstep.
      inversion Hstep; subst cfg'; clear Hstep.
      cbn [fst snd ptr set_ptr pos drawList]. rewrite Hp1.
      split; [lia|]. split; [|exact Hdl1].
      rewrite (line_y_same text (ptr st) (ptr st + 2)); [exact Hy1|].
      apply newlines_before_same; [lia|].
      intros i Hi.
      destruct (Nat.eq_dec i (ptr st)) as [->|Hne].
      * now rewrite HE.
      * replace i with (S (ptr st)) by lia. now rewrite HB.
    + inversion Hstep; subst cfg'; clear Hstep.
      cbn [fst snd ptr set_ptr pos drawList segmentStart].
      split; [lia|]. split; assumption.
  - destruct ((ptr st <? length text)%nat
              && negb (Byte.eqb (char_at text (ptr st)) LOWER_M)) eqn:Hloop.
    + inversion Hstep; subst cfg'; clear Hstep. cbn [fst snd].
      pose proof (escape_iteration_passes text st) as [Hge Hpass].
      pose proof (escape_iteration_frame text st) as (_ & Hpos & Hd & Hfr).
      rewrite Hpos, Hd. split; [lia|]. split; [|exact Hdl].
      rewrite (line_y_same text (ptr st) (ptr (escape_iteration text st)));
        [exact Hy|].
      apply newlines_before_same; [lia|].
      intros i Hi. apply sgr_byte_not_LF, Hpass. lia.
    + inversion Hstep; subst cfg'; clear Hstep.
      cbn [fst snd ptr segmentStart set_segmentStart pos drawList].
      destruct (looking_at text (ptr st) LOWER_M) eqn:Hlook.
      * apply looking_at_true in Hlook. destruct Hlook as [Hl Hc].
        cbn [ptr set_ptr pos drawList]. split; [lia|].
        split; [|exact Hdl].
        rewrite (line_y_same text (ptr st) (S (ptr st))); [exact Hy|].
        apply newlines_before_same; [lia|].
        intros i Hi. replace i with (ptr st) by lia. now rewrite Hc.
      * split; [lia|]. split; assumption.
Qed.

Lemma run_lines_ok (text : list byte) (fuel : nat) :
  forall (cfg : Mode * State) (st : State),
  run fuel text cfg = Some st -> lines_ok text cfg ->
  lines_ok text (Literal, st) /\ ptr st = length text.
Proof.
  assert (Hend : forall (cfg : Mode * State) (st : State),
            step text cfg = None -> Some (snd cfg) = Some st ->
            lines_ok text cfg ->
            lines_ok text (Literal, st) /\ ptr st = length text).
  { intros [mode s] st Hnone Heq Hok. inversion Heq; subst st; clear Heq.
    destruct (step_None_Literal text (mode, s) Hnone) as [Hmode Hge].
    cbn [fst snd] in *. subst mode. split; [exact Hok|].
    destruct Hok as (Hle & _). cbn [snd] in Hle. lia. }
  induction fuel as [|fuel IH]; intros cfg st; cbn [run];
    destruct (step text cfg) as [cfg'|] eqn:Hstep; try discriminate;
    try (now apply Hend).
  intros Hrun Hok. apply (IH cfg' st Hrun).
  now apply (step_lines_ok text cfg cfg').
Qed.

Lemma end_of_text_y (text : list byte) (st : State) :
  ImVec2.y (pos (end_of_text text st))
  = if ends_in_bare_newline text
    then ImVec2.y (pos st) + lineHeight
    else ImVec2.y (pos st).
Proof.
  unfold end_of_text, ends_in_bare_newline.
  destruct (0 <? length text)%nat; [|reflexivity].
  destruct (Byte.eqb (char_at text (length text - 1)) LF).
  - cbn [andb pos set_pos ImVec2.x ImVec2.y].
    now destruct ((length text =? 1)%nat
                  || negb (Byte.eqb (char_at text (length text - 2)) CR)).
  - cbn [andb]. now destruct (Byte.eqb (char_at text (length text - 1)) CR).
Qed.

(** X17.  Every run is drawn on the line of its first byte: one line
    height below the origin for every ['\n'] of the buffer before it,
    wherever that ['\n'] is.  The cursor handed back is on the line of the
    end of the buffer, and one more line down when the buffer ends in a
    ['\n'] that no ['\r'] precedes: that ['\n'] is counted twice. *)
Theorem runs_on_their_lines (text : list byte) (fuel : nat) (st : State) :
  RenderAnsiText fuel text = Some st ->
  Forall (fun cmd => ImVec2.y (cmd_pos cmd) == line_y text (text_begin cmd))
    (drawList st) /\
  ImVec2.y (pos st)
  == line_y text (length text)
     + (if ends_in_bare_newline text then lineHeight else 0).
Proof.
  unfold RenderAnsiText.
  destruct (run fuel text (Literal, initial)) as [s|] eqn:Hrun;
    [|discriminate].
  intros Heq. inversion Heq; subst st; clear Heq.
  destruct (run_lines_ok text fuel (Literal, initial) s Hrun
              (initial_lines_ok text)) as ((Hle & Hy & Hdl) & Hptr).
  unfold settled in *. cbn [fst snd] in *.
  assert (Hfinal : ImVec2.y (pos (final_segment text s))
                   == line_y text (length text) /\
                   Forall (on_line text) (drawList (final_segment text s))).
  { unfold final_segment.
    destruct (Nat.ltb_spec (segmentStart s) (ptr s)) as [Hseg|Hseg].
    - rewrite <- Hptr. apply renderTextSegment_lines; auto; lia.
    - replace (length text) with (segmentStart s) by lia. now split. }
  destruct Hfinal as [Hyf Hdlf].
  rewrite end_of_text_drawList, end_of_text_y.
  split; [exact Hdlf|].
  destruct (ends_in_bare_newline text); rewrite Hyf; ring.
Qed.

End Lines.

(** ** The columns: the left margin *)

Section Columns.

Context {gui : ImGui}.

Lemma emit_pending_at_margin (text : list byte) (a b : nat) (st : State) :
  (line_start text a -> ImVec2.x (pos st) = ImVec2.x startPos) ->
  Forall (at_margin text) (drawList st) ->
  Forall (at_margin text) (drawList (emit_pending text a b st)).
Proof.
  intros Hx Hdl. rewrite emit_pending_drawList.
  destruct (a <? b)%nat; [|exact Hdl].
  apply Forall_app. split; [exact Hdl|].
  constructor; [exact Hx|constructor].
Qed.

(** The inner loop of [renderTextSegment]: behind a ['\n'] or a ['\r'] the
    pen is at the left margin. *)
Lemma renderTextSegment_loop_margin (text rest : list byte) :
  forall (segStart current : nat) (st : State),
  (forall k, (k < length rest)%nat ->
     nth k rest x00 = char_at text (current + k)) ->
  (line_start text segStart -> ImVec2.x (pos st) = ImVec2.x startPos) ->
  Forall (at_margin text) (drawList st) ->
  Forall (at_margin text)
    (drawList (renderTextSegment_loop text rest segStart current st)).
Proof.
  induction rest as [|c rest IH]; intros segStart current st Hrest Hx Hdl;
    cbn [renderTextSegment_loop length] in *.
  - now apply emit_pending_at_margin.
  - assert (Hc : c = char_at text current).
    { specialize (Hrest 0%nat ltac:(lia)). cbn [nth] in Hrest.
      now rewrite Nat.add_0_r in Hrest. }
    assert (Hrest' : forall k, (k < length rest)%nat ->
                       nth k rest x00 = char_at text (S current + k)).
    { intros k Hk. specialize (Hrest (S k) ltac:(lia)). cbn [nth] in Hrest.
      rewrite Hrest. f_equal. lia. }
    assert (Hnext : forall st1,
               drawList st1
               = drawList (emit_pending text segStart current st) ->
               (c = LF \/ c = CR ->
                ImVec2.x (pos st1) = ImVec2.x startPos) ->
               Forall (at_margin text)
                 (drawList (renderTextSegment_loop text rest (S current)
                              (S current) st1))).
    { intros st1 Hst1 Hx1. apply IH; auto.
      - intros [Hz|Hbreak]; [discriminate Hz|].
        apply Hx1. replace (S current - 1)%nat with current in Hbreak by lia.
        rewrite <- Hc in Hbreak. exact Hbreak.
      - rewrite Hst1. now apply emit_pending_at_margin. }
    destruct (Byte.eqb c LF) eqn:HLF.
    { apply Hnext; [reflexivity|]. intros _. reflexivity. }
    destruct (Byte.eqb c CR) eqn:HCR.
    { apply Hnext; [reflexivity|]. intros _. reflexivity. }
    assert (Hno : c = LF \/ c = CR -> False).
    { intros [->| ->]; discriminate. }
    destruct (Byte.eqb c TAB).
    { apply Hnext; [reflexivity|]. intros H. destruct (Hno H). }
    destruct (Byte.eqb c BS).
    { apply Hnext; [reflexivity|]. intros H. destruct (Hno H). }
    destruct ((uchar c <? 32)%Z && negb (Byte.eqb c ESC)).
    { apply Hnext; [reflexivity|]. intros H. destruct (Hno H). }
    apply IH; auto.
Qed.

Lemma renderTextSegment_margin (text : list byte) (a b : nat) (st : State) :
  (b <= length text)%nat ->
  (line_start text a -> ImVec2.x (pos st) = ImVec2.x startPos) ->
  Forall (at_margin text) (drawList st) ->
  Forall (at_margin text) (drawList (renderTextSegment text a b st)).
Proof.
  intros Hb Hx Hdl. unfold renderTextSegment.
  destruct (Nat.ltb_spec a b) as [Hlt|Hge]; [|exact Hdl].
  apply renderTextSegment_loop_margin; auto.
  intros k Hk. rewrite span_length in Hk by lia. now apply span_nth.
Qed.

Lemma initial_margin_ok (text : list byte) :
  margin_ok text (Literal, initial).
Proof.
  unfold margin_ok, settled. cbn. split; [lia|]. split; [auto|constructor].
Qed.

Lemma step_margin_ok (text : list byte) (cfg cfg' : Mode * State) :
  step text cfg = Some cfg' -> margin_ok text cfg -> margin_ok text cfg'.
Proof.
  destruct cfg as [[|] st]; unfold step, margin_ok, settled;
    cbn [fst snd]; intros Hstep (Hle & Hx & Hdl).
  - destruct (Nat.ltb_spec (ptr st) (length text)) as [Hlt|_];
      [|discriminate].
    destruct (Byte.eqb (char_at text (ptr st)) ESC
              && looking_at text (S (ptr st)) LBRACKET) eqn:Hm.
    + pose proof (esc_startb_inside text (ptr st) Hm) as (Hin & HE & HB).
      assert (Hseg : exists st1,
                 (if (segmentStart st <? ptr st)%nat
                  then renderTextSegment text (segmentStart st) (ptr st) st
                  else st) = st1 /\
                 ptr st1 = ptr st /\
                 Forall (at_margin text) (drawList st1)).
      { destruct (Nat.ltb_spec (segmentStart st) (ptr st)) as [Hseg|Hseg].
        - eexists. split; [reflexivity|].
          destruct (renderTextSegment_same_scan text (segmentStart st)
                      (ptr st) st) as (Hp & _).
          split; [exact Hp|].
          apply renderTextSegment_margin; auto; [lia|].
          apply Hx; [reflexivity|lia].
        - exists st. split; [reflexivity|]. split; [reflexivity|exact Hdl]. }
      destruct Hseg as (st1 & Hst1 & Hp1 & Hdl1).
      rewrite Hst1 in Hstep.
      inversion Hstep; subst cfg'; clear Hstep.
      cbn [fst snd ptr set_ptr pos drawList]. rewrite Hp1.
      split; [lia|]. split; [intros Hmode; discriminate Hmode|exact Hdl1].
    + inversion Hstep; subst cfg'; clear Hstep.
      cbn [fst snd ptr set_ptr pos drawList segmentStart].
      split; [lia|]. split; assumption.
  - destruct ((ptr st <? length text)%nat
              && negb (Byte.eqb (char_at text (ptr st)) LOWER_M)) eqn:Hloop.
    + inversion Hstep; subst cfg'; clear Hstep. cbn [fst snd].
      pose proof (escape_iteration_frame text st) as (_ & _ & Hd & Hfr).
      rewrite Hd. split; [lia|].
      split; [intros Hmode; discriminate Hmode|exact Hdl].
    + inversion Hstep; subst cfg'; clear Hstep.
      cbn [fst snd ptr segmentStart set_segmentStart pos drawList].
      destruct (looking_at text (ptr st) LOWER_M) eqn:Hlook.
      * apply looking_at_true in Hlook. destruct Hlook as [Hl Hc].
        cbn [ptr set_ptr pos drawList]. split; [lia|].
        split; [|exact Hdl].
        intros _ _ [Hz|Hbreak]; [discriminate Hz|].
        replace (S (ptr st) - 1)%nat with (ptr st) in Hbreak by lia.
        rewrite Hc in Hbreak. destruct Hbreak; discriminate.
      * split; [lia|]. split; [|exact Hdl].
        intros _ Hin. exfalso.
        unfold looking_at in Hlook.
        apply andb_false_iff in Hloop, Hlook.
        destruct Hloop as [Hloop|Hloop].
        -- apply Nat.ltb_ge in Hloop. lia.
        -- apply negb_false_iff in Hloop.
           destruct Hlook as [Hlook|Hlook]; [|congruence].
           apply Nat.ltb_ge in Hlook. lia.
Qed.

Lemma run_margin_ok (text : list byte) (fuel : nat) :
  forall (cfg : Mode * State) (st : State),
  run fuel text cfg = Some st -> margin_ok text cfg ->
  margin_ok text (Literal, st) /\ ptr st = length text.
Proof.
  assert (Hend : forall (cfg : Mode * State) (st : State),
            step text cfg = None -> Some (snd cfg) = Some st ->
            margin_ok text cfg ->
            margin_ok text (Literal, st) /\ ptr st = length text).
  { intros [mode s] st Hnone Heq Hok. inversion Heq; subst st; clear Heq.
    destruct (step_None_Literal text (mode, s) Hnone) as [Hmode Hge].
    cbn [fst snd] in *. subst mode. split; [exact Hok|].
    destruct Hok as (Hle & _). cbn [snd] in Hle. lia. }
  induction fuel as [|fuel IH]; intros cfg st; cbn [run];
    destruct (step text cfg) as [cfg'|] eqn:Hstep; try discriminate;
    try (now apply Hend).
  intros Hrun Hok. apply (IH cfg' st Hrun).
  now apply (step_margin_ok text cfg cfg').
Qed.

(** X19.  A run that begins with the first byte of the buffer, or right
    behind a ['\n'] or a ['\r'], is drawn at the left margin, the x of the
    cursor at the start of the call: ['\r'] makes the text behind it
    overprint its line from the margin on. *)
Theorem line_starts_at_margin (text : list byte) (fuel : nat) (st : State) :
  RenderAnsiText fuel text = Some st ->
  Forall (fun cmd =>
            line_start text (text_begin cmd) ->
            ImVec2.x (cmd_pos cmd) = ImVec2.x startPos)
    (drawList st).
Proof.
  unfold RenderAnsiText.
  destruct (run fuel text (Literal, initial)) as [s|] eqn:Hrun;
    [|discriminate].
  intros Heq. inversion Heq; subst st; clear Heq.
  destruct (run_margin_ok text fuel (Literal, initial) s Hrun
              (initial_margin_ok text)) as ((Hle & Hx & Hdl) & Hptr).
  unfold settled in *. cbn [fst snd] in *.
  rewrite end_of_text_drawList. unfold final_segment.
  destruct (Nat.ltb_spec (segmentStart s) (ptr s)) as [Hseg|Hseg];
    [|exact Hdl].
  apply renderTextSegment_margin; auto; [lia|].
  apply Hx; [reflexivity|lia].
Qed.

End Columns.

(** ** The further properties on concrete buffers

    ["a\n"], then [ESC "[31m"], then ["b"]. *)


Lemma returns_within_linear_fuel_witness :
  exists st,
    RenderAnsiText 100 [x61; LF; ESC; LBRACKET; x33; x31; LOWER_M; x62]
    = Some st /\
    RenderAnsiText 16 [x61; LF; ESC; LBRACKET; x33; x31; LOWER_M; x62]
    = Some st.
Proof.
  destruct (RenderAnsiText 100
              [x61; LF; ESC; LBRACKET; x33; x31; LOWER_M; x62])
    as [st|] eqn:Hret; [|vm_compute in Hret; discriminate Hret].
  exists st. split; [reflexivity|].
  exact (returns_within_linear_fuel _ 100 st Hret).
Defined.

Lemma spans_in_buffer_order_witness :
  exists st,
    RenderAnsiText 16 [x61; LF; ESC; LBRACKET; x33; x31; LOWER_M; x62]
    = Some st /\
    ordered 0 (drawList st) 8.
Proof.
  destruct (RenderAnsiText 16
              [x61; LF; ESC; LBRACKET; x33; x31; LOWER_M; x62])
    as [st|] eqn:Hret; [|vm_compute in Hret; discriminate Hret].
  exists st. split; [reflexivity|].
  exact (spans_in_buffer_order _ 16 st Hret).
Defined.

Lemma no_byte_lost_witness :
  exists st,
    RenderAnsiText 16 [x61; LF; ESC; LBRACKET; x33; x31; LOWER_M; x62]
    = Some st /\
    drawn (drawList st) 7.
Proof.
  destruct (RenderAnsiText 16
              [x61; LF; ESC; LBRACKET; x33; x31; LOWER_M; x62])
    as [st|] eqn:Hret; [|vm_compute in Hret; discriminate Hret].
  exists st. split; [reflexivity|].
  apply (no_byte_lost _ 16 st 7 Hret).
  - cbn [length]. lia.
  - intros [H _]. cbv in H. discriminate H.
  - intros [H|[H|[[H|H]|H]]]; cbv in H; discriminate H.
Defined.

Lemma marker_free_draws_all_kept_witness :
  exists st,
    RenderAnsiText 3 [x61; TAB; x62] = Some st /\
    forall i, drawn (drawList st) i
              <-> (i < 3)%nat /\ kept (char_at [x61; TAB; x62] i).
Proof.
  apply (marker_free_draws_all_kept [x61; TAB; x62] 3); [|cbn [length]; lia].
  intros i. destruct (esc_startb [x61; TAB; x62] i) eqn:Hi; [|reflexivity].
  pose proof (esc_startb_inside _ i Hi) as (Hlt & HE & _).
  cbn [length] in Hlt.
  destruct i as [|[|i]]; try lia; cbv in HE; discriminate HE.
Defined.

Lemma runs_on_their_lines_witness :
  exists st,
    RenderAnsiText 16 [x61; LF; ESC; LBRACKET; x33; x31; LOWER_M; x62]
    = Some st /\
    Forall (fun cmd =>
              ImVec2.y (cmd_pos cmd)
              == line_y [x61; LF; ESC; LBRACKET; x33; x31; LOWER_M; x62]
                   (text_begin cmd))
      (drawList st).
Proof.
  destruct (RenderAnsiText 16
              [x61; LF; ESC; LBRACKET; x33; x31; LOWER_M; x62])
    as [st|] eqn:Hret; [|vm_compute in Hret; discriminate Hret].
  exists st. split; [reflexivity|].
  exact (proj1 (runs_on_their_lines _ 16 st Hret)).
Defined.

Lemma line_starts_at_margin_witness :
  exists st,
    RenderAnsiText 16 [x61; LF; ESC; LBRACKET; x33; x31; LOWER_M; x62]
    = Some st /\
    Forall (fun cmd =>
              line_start [x61; LF; ESC; LBRACKET; x33; x31; LOWER_M; x62]
                (text_begin cmd) ->
              ImVec2.x (cmd_pos cmd) = 100)
      (drawList st).
Proof.
  destruct (RenderAnsiText 16
              [x61; LF; ESC; LBRACKET; x33; x31; LOWER_M; x62])
    as [st|] eqn:Hret; [|vm_compute in Hret; discriminate Hret].
  exists st. split; [reflexivity|].
  exact (line_starts_at_margin _ 16 st Hret).
Defined.

(** ** A whole escape sequence: its codes, one after the other *)

Section Sequences.

Context {gui : ImGui}.

Lemma apply_code_set_ptr (text : list byte) (code : Z) (p : nat)
  (st : State) :
  code <> 38%Z ->
  apply_code text code (set_ptr p st) = set_ptr p (apply_code text code st).
Proof.
  intros H38. unfold apply_code.
  destruct (code =? 0)%Z; [reflexivity|].
  destruct (code =? 1)%Z; [reflexivity|].
  destruct (code =? 22)%Z; [reflexivity|].
  destruct ((30 <=? code) && (code <=? 37))%Z; [reflexivity|].
  destruct ((90 <=? code) && (code <=? 97))%Z; [reflexivity|].
  destruct (Z.eqb_spec code 38) as [Heq|_]; [contradiction|reflexivity].
Qed.

Lemma fold_codes_set_ptr (text : list byte) (dss : list (list byte))
  (p : nat) :
  forall st : State,
  Forall (fun ds => decimal_value ds <> 38%Z) dss ->
  fold_left (fun s ds => apply_code text (decimal_value ds) s) dss
    (set_ptr p st)
  = set_ptr p
      (fold_left (fun s ds => apply_code text (decimal_value ds) s) dss st).
Proof.
  induction dss as [|ds dss IH]; intros st Hall; cbn [fold_left].
  - reflexivity.
  - inversion Hall as [|? ? H38 Hall']; subst.
    rewrite apply_code_set_ptr by assumption. now apply IH.
Qed.

Lemma set_ptr_set_ptr (p q : nat) (st : State) :
  set_ptr q (set_ptr p st) = set_ptr q st.
Proof. reflexivity. Qed.

(** The escape loop at an [m]: it ends, and the next literal segment
    starts behind the [m]. *)
Lemma exit_at_m (text rest : list byte) (st : State) :
  skipn (ptr st) text = LOWER_M :: rest ->
  step text (InEscape, st)
  = Some (Literal, set_segmentStart (S (ptr st)) (set_ptr (S (ptr st)) st)).
Proof.
  intros Hskip. unfold step.
  rewrite (skipn_cons_char_at _ _ _ _ Hskip).
  change (Byte.eqb LOWER_M LOWER_M) with true.
  cbn [negb]. rewrite andb_false_r.
  rewrite (looking_at_cons _ _ _ LOWER_M _ Hskip).
  change (Byte.eqb LOWER_M LOWER_M) with true. reflexivity.
Qed.

(** One iteration on a code other than 38 that [tail] follows. *)
Lemma one_code (text ds tail : list byte) (st : State) :
  skipn (ptr st) text = ds ++ tail ->
  Forall (fun d => is_digit d = true) ds ->
  (decimal_value ds <= INT_MAX)%Z ->
  decimal_value ds <> 38%Z ->
  no_digit_ahead tail ->
  match ds ++ tail with
  | c :: _ => c <> LOWER_M
  | [] => False
  end ->
  step text (InEscape, st)
  = Some (InEscape,
          let st1 := set_ptr (ptr st + length ds)
                       (apply_code text (decimal_value ds) st) in
          if looking_at text (ptr st1) SEMI then set_ptr (S (ptr st1)) st1
          else st1).
Proof.
  intros Hskip Hds Hfit H38 Htail Hhead. unfold step.
  destruct (ds ++ tail) as [|c l] eqn:Hl; [contradiction|].
  rewrite (skipn_cons_char_at _ _ _ _ Hskip).
  pose proof (skipn_cons_bound _ _ _ _ Hskip) as Hlt.
  apply Nat.ltb_lt in Hlt. rewrite Hlt.
  rewrite (byte_eqb_neq c LOWER_M Hhead). cbn [negb andb].
  rewrite <- Hl in Hskip.
  rewrite (escape_iteration_code text ds tail st Hskip Hds Htail Hfit).
  now rewrite apply_code_set_ptr by assumption.
Qed.

(** X20.  The codes of an escape sequence are applied from left to right,
    each by the if-chain on its value, an empty code before a [;] counting
    as 0: from behind the marker, on the codes [dss] (none of them 38, the
    last one not empty) joined by [;] and closed by [m], the escape loop
    makes one iteration per code and one more step over the [m]; the
    state is then that of the chain folded over the codes, and the next
    literal segment starts behind the [m]. *)
Theorem codes_applied_in_order (text : list byte) (dss : list (list byte))
  (rest : list byte) :
  forall st : State,
  skipn (ptr st) text = join_codes dss ++ LOWER_M :: rest ->
  Forall (fun ds => Forall (fun d => is_digit d = true) ds) dss ->
  Forall (fun ds => (decimal_value ds <= INT_MAX)%Z) dss ->
  Forall (fun ds => decimal_value ds <> 38%Z) dss ->
  last dss [x30] <> [] ->
  let q := (ptr st + length (join_codes dss) + 1)%nat in
  iterate (S (length dss)) text (InEscape, st)
  = Some (Literal,
          set_segmentStart q
            (set_ptr q
               (fold_left (fun s ds => apply_code text (decimal_value ds) s)
                  dss st))).
Proof.
  induction dss as [|ds dss IH]; intros st Hskip Hdig Hfit H38 Hlast q.
  - cbn [length iterate]. cbn [join_codes app] in Hskip.
    rewrite (exit_at_m text rest st Hskip). cbn [fold_left].
    unfold q. cbn [join_codes length].
    replace (ptr st + 0 + 1)%nat with (S (ptr st)) by lia. reflexivity.
  - inversion Hdig as [|? ? Hds Hdig']; subst.
    inversion Hfit as [|? ? Hf Hfit']; subst.
    inversion H38 as [|? ? Hn Hn']; subst.
    change (iterate (S (length (ds :: dss))) text (InEscape, st))
      with (match step text (InEscape, st) with
            | None => None
            | Some cfg' => iterate (S (length dss)) text cfg'
            end).
    assert (Hstep : exists p1,
               step text (InEscape, st)
               = Some (InEscape,
                       set_ptr p1 (apply_code text (decimal_value ds) st)) /\
               skipn p1 text = join_codes dss ++ LOWER_M :: rest /\
               (p1 + length (join_codes dss)
                = ptr st + length (join_codes (ds :: dss)))%nat /\
               last dss [x30] <> []).
    { destruct dss as [|d2 dss'].
      - cbn [join_codes last] in *.
        exists (ptr st + length ds)%nat.
        rewrite (one_code text ds (LOWER_M :: rest) st Hskip Hds Hf Hn).
        + cbv zeta. cbn [ptr set_ptr].
          rewrite (looking_at_cons _ _ _ SEMI _
                     (skipn_app_add text ds _ _ Hskip)).
          change (Byte.eqb LOWER_M SEMI) with false.
          split; [reflexivity|]. split.
          * exact (skipn_app_add text ds _ _ Hskip).
          * split; [cbn [length]; lia|discriminate].
        + reflexivity.
        + destruct ds as [|d ds']; [contradiction|].
          inversion Hds as [|? ? Hd _]; subst. cbn [app].
          intros ->. discriminate Hd.
      - change (join_codes (ds :: d2 :: dss'))
          with (ds ++ SEMI :: join_codes (d2 :: dss')) in *.
        rewrite <- app_assoc in Hskip. cbn [app] in Hskip.
        exists (S (ptr st + length ds)).
        rewrite (one_code text ds _ st Hskip Hds Hf Hn).
        + cbv zeta. cbn [ptr set_ptr].
          rewrite (looking_at_cons _ _ _ SEMI _
                     (skipn_app_add text ds _ _ Hskip)).
          change (Byte.eqb SEMI SEMI) with true.
          split; [reflexivity|]. split.
          * exact (skipn_cons_S _ _ _ _ (skipn_app_add text ds _ _ Hskip)).
          * split; [rewrite length_app; cbn [length]; lia|exact Hlast].
        + reflexivity.
        + destruct ds as [|d ds']; cbn [app]; [discriminate|].
          inversion Hds as [|? ? Hd _]; subst.
          intros ->. discriminate Hd. }
    destruct Hstep as (p1 & Hstep & Hskip1 & Hlen & Hlast1).
    rewrite Hstep.
    rewrite (IH (set_ptr p1 (apply_code text (decimal_value ds) st)));
      auto.
    cbn [fold_left ptr set_ptr].
    rewrite fold_codes_set_ptr by assumption.
    rewrite set_ptr_set_ptr.
    unfold q. rewrite <- Hlen. reflexivity.
Qed.

End Sequences.

Lemma codes_applied_in_order_witness :
  iterate 3 (ESC :: bytes_of_string "[1;31m") (InEscape, set_ptr 2 initial)
  = Some (Literal,
          mkState 7 7 (ansi256ToRgb 1) true (ImVec2.make 100 50) []).
Proof.
  rewrite (codes_applied_in_order (ESC :: bytes_of_string "[1;31m")
             [[x31]; [x33; x31]] [] (set_ptr 2 initial) eq_refl).
  - reflexivity.
  - repeat constructor.
  - repeat constructor; vm_compute; discriminate.
  - repeat constructor; vm_compute; discriminate.
  - discriminate.
Defined.

(** ** Which bytes are drawn *)

Lemma ordered_drawn_bound (dl : list DrawCmd) (i : nat) :
  forall lo hi : nat,
  ordered lo dl hi -> drawn dl i -> (lo <= i < hi)%nat.
Proof.
  induction dl as [|cmd dl IH]; intros lo hi Hord (c & Hin & Hi).
  - destruct Hin.
  - cbn [ordered] in Hord. destruct Hord as (H1 & H2 & H3).
    assert (Hhi : forall l h, ordered l dl h -> (l <= h)%nat).
    { clear. induction dl as [|c dl IH]; intros l h; cbn [ordered].
      - auto.
      - intros (H1 & H2 & H3). specialize (IH _ _ H3). lia. }
    pose proof (Hhi _ _ H3) as Hle.
    destruct Hin as [->|Hin]; [lia|].
    assert (Hd : drawn dl i) by (exists c; split; assumption).
    specialize (IH _ _ H3 Hd). lia.
Qed.

Lemma drawn_app_within (dl new : list DrawCmd) (a b i : nat) :
  Forall (span_within a b) new ->
  drawn (dl ++ new) i -> drawn dl i \/ (a <= i < b)%nat.
Proof.
  intros Hnew (cmd & Hin & Hi). apply in_app_or in Hin.
  destruct Hin as [Hin|Hin].
  - left. exists cmd. split; assumption.
  - right. rewrite Forall_forall in Hnew.
    destruct (Hnew cmd Hin) as [H1 H2]. lia.
Qed.

Section Coverage.

Context {gui : ImGui}.

(** A literal segment without marker, rendered: the cover extends to its
    end. *)
Lemma segment_covered (text : list byte) (s p : nat) (st : State) :
  covered_upto text (drawList st) s ->
  (s <= p <= length text)%nat ->
  (forall i, (s <= i < p)%nat -> esc_startb text i = false) ->
  covered_upto text
    (drawList (if (s <? p)%nat then renderTextSegment text s p st else st))
    p.
Proof.
  intros (Hord & Hcov & Hdrawn & Hseq) Hsp Hfree.
  assert (Hlit : forall i, (s <= i < p)%nat -> ~ escaped text i).
  { intros i Hi (m & j & Hc & Hmi).
    destruct (Nat.lt_ge_cases m s) as [Hlow|Hhigh].
    - specialize (Hseq m j i Hc Hlow Hmi ltac:(lia)). lia.
    - destruct Hc as (Hm & _). rewrite Hfree in Hm by lia. discriminate Hm. }
  assert (Hseq' : forall m j i, closing text m j -> (m < p)%nat ->
                    (m <= i <= j)%nat -> (i < length text)%nat ->
                    (i < p)%nat).
  { intros m j i Hc Hm Hmi Hi.
    destruct (Nat.lt_ge_cases m s) as [Hlow|Hhigh].
    - specialize (Hseq m j i Hc Hlow Hmi Hi). lia.
    - destruct Hc as (Hc & _). rewrite Hfree in Hc by lia. discriminate Hc. }
  destruct (Nat.ltb_spec s p) as [Hlt|Hge].
  - destruct (renderTextSegment_layout text 0 s p st ltac:(lia) Hord)
      as (Ho & Hmono & Hnew).
    destruct (renderTextSegment_within text s p st ltac:(lia))
      as (new & Hdl & Hwithin).
    split; [exact Ho|]. split; [|split; [|exact Hseq']].
    + intros i Hi. destruct (Nat.lt_ge_cases i s) as [Hlow|Hhigh].
      * destruct (Hcov i Hlow) as [Hd|Hother]; [left; auto|right; exact Hother].
      * destruct (Hnew i ltac:(lia)) as [Hd|Hc];
          [left; exact Hd|right; left; exact Hc].
    + intros i Hd. rewrite Hdl in Hd.
      destruct (drawn_app_within _ _ s p i Hwithin Hd) as [Hold|Hin];
        [now apply Hdrawn|now apply Hlit].
  - replace p with s by lia. repeat split; assumption.
Qed.

(** An escape sequence, passed: the cover extends behind its [m]. *)
Lemma sequence_covered (text : list byte) (dl : list DrawCmd) (m0 p : nat) :
  covered_upto text dl m0 ->
  closing text m0 p ->
  covered_upto text dl (if (p <? length text)%nat then S p else p).
Proof.
  intros (Hord & Hcov & Hdrawn & Hseq) Hclose.
  pose proof Hclose as (Hm0 & Hp & Hsgr & Hend).
  pose proof (esc_startb_inside text m0 Hm0) as (Hin & HE & HB).
  set (s' := if (p <? length text)%nat then S p else p).
  assert (Hs' : (p <= s' <= length text)%nat /\
                ((p < length text)%nat -> s' = S p)).
  { unfold s'. destruct (Nat.ltb_spec p (length text)); split; lia. }
  destruct Hs' as [Hs' Hs'S].
  split; [apply (ordered_weaken _ 0 m0); auto; lia|].
  split; [|split; [exact Hdrawn|]].
  - intros i Hi. destruct (Nat.lt_ge_cases i m0) as [Hlow|Hhigh].
    + now apply Hcov.
    + right. right. exists m0, p. split; [exact Hclose|].
      destruct (Nat.lt_ge_cases p (length text)); [rewrite Hs'S in Hi|]; lia.
  - intros m j i Hc Hm Hmi Hi.
    destruct (Nat.lt_trichotomy m m0) as [Hlow|[->|Hhigh]].
    + specialize (Hseq m j i Hc Hlow Hmi Hi). lia.
    + destruct (Nat.lt_ge_cases p (length text)) as [Hlt|Hge]; [|lia].
      rewrite (Hs'S Hlt).
      destruct (Nat.lt_ge_cases p j) as [Hpj|Hjp]; [|lia].
      exfalso. destruct Hc as (_ & _ & Hsgr' & _).
      assert (Hs : sgr_byte (char_at text p)) by (apply Hsgr'; lia).
      apply sgr_byte_not_m in Hs. rewrite (Hend Hlt) in Hs. discriminate Hs.
    + exfalso. destruct Hc as (Hc & _).
      apply esc_startb_inside in Hc. destruct Hc as (_ & HEm & _).
      destruct (Nat.eq_dec m (S m0)) as [->|Hne1].
      { rewrite HB in HEm. discriminate HEm. }
      destruct (Nat.lt_ge_cases m p) as [Hmp|Hpm].
      { apply (sgr_byte_not_ESC (char_at text m)); [|exact HEm].
        apply Hsgr. lia. }
      destruct (Nat.lt_ge_cases p (length text)) as [Hlt|Hge]; [|lia].
      rewrite (Hs'S Hlt) in Hm. replace m with p in HEm by lia.
      rewrite (Hend Hlt) in HEm. discriminate HEm.
Qed.

Lemma initial_cover_ok (text : list byte) : cover_ok text (Literal, initial).
Proof.
  exists 0%nat. cbn [fst snd initial ptr segmentStart drawList].
  split; [lia|]. split; [|split; [reflexivity|intros i Hi; lia]].
  split; [cbn; lia|]. split; [intros i Hi; lia|].
  split; [intros i (cmd & [] & _)|intros m j i _ Hm; lia].
Qed.

Lemma step_cover_ok (text : list byte) (cfg cfg' : Mode * State) :
  step text cfg = Some cfg' -> cover_ok text cfg -> cover_ok text cfg'.
Proof.
  destruct cfg as [[|] st]; unfold step, cover_ok; cbn [fst snd];
    intros Hstep (s & Hle & Hcov & Hmode).
  - destruct Hmode as [-> Hfree].
    destruct (Nat.ltb_spec (ptr st) (length text)) as [Hlt|_];
      [|discriminate].
    destruct (Byte.eqb (char_at text (ptr st)) ESC
              && looking_at text (S (ptr st)) LBRACKET) eqn:Hm.
    + pose proof (esc_startb_inside text (ptr st) Hm) as (Hin & HE & HB).
      pose proof (segment_covered text (segmentStart st) (ptr st) st Hcov
                    ltac:(lia) Hfree) as Hcov'.
      assert (Hp : ptr (if (segmentStart st <? ptr st)%nat
                        then renderTextSegment text (segmentStart st)
                               (ptr st) st
                        else st) = ptr st).
      { destruct (segmentStart st <? ptr st)%nat; [|reflexivity].
        now destruct (renderTextSegment_same_scan text (segmentStart st)
                        (ptr st) st). }
      inversion Hstep; subst cfg'; clear Hstep.
      exists (ptr st). cbn [fst snd ptr set_ptr drawList]. rewrite Hp.
      split; [lia|]. split; [exact Hcov'|].
      split; [exact Hm|]. split; [lia|]. intros i Hi. lia.
    + inversion Hstep; subst cfg'; clear Hstep.
      exists (segmentStart st).
      cbn [fst snd ptr set_ptr drawList segmentStart].
      split; [lia|]. split; [exact Hcov|]. split; [reflexivity|].
      intros i Hi. destruct (Nat.eq_dec i (ptr st)) as [->|Hne].
      * exact Hm.
      * apply Hfree. lia.
  - destruct Hmode as (Hm0 & Hge & Hsgr).
    destruct ((ptr st <? length text)%nat
              && negb (Byte.eqb (char_at text (ptr st)) LOWER_M)) eqn:Hloop.
    + inversion Hstep; subst cfg'; clear Hstep.
      pose proof (escape_iteration_passes text st) as [Hadv Hpass].
      pose proof (escape_iteration_frame text st) as (_ & _ & Hdl & Hfr).
      exists s. cbn [fst snd]. rewrite Hdl.
      split; [lia|]. split; [exact Hcov|]. split; [exact Hm0|].
      split; [lia|]. intros i Hi.
      destruct (Nat.lt_ge_cases i (ptr st)); [apply Hsgr|apply Hpass]; lia.
    + inversion Hstep; subst cfg'; clear Hstep.
      assert (Hclose : closing text s (ptr st)).
      { split; [exact Hm0|]. split; [lia|]. split; [exact Hsgr|].
        intros Hlt. apply andb_false_iff in Hloop.
        destruct Hloop as [Hloop|Hloop].
        - apply Nat.ltb_ge in Hloop. lia.
        - apply negb_false_iff in Hloop. now apply Byte.byte_dec_bl. }
      pose proof (sequence_covered text (drawList st) s (ptr st) Hcov Hclose)
        as Hcov'.
      assert (Hnext : (if looking_at text (ptr st) LOWER_M
                       then set_ptr (S (ptr st)) st else st)
                      = set_ptr (if (ptr st <? length text)%nat
                                 then S (ptr st) else ptr st) st).
      { unfold looking_at.
        destruct (Nat.ltb_spec (ptr st) (length text)) as [Hlt|Hge'].
        - destruct Hclose as (_ & _ & _ & Hend). rewrite (Hend Hlt).
          reflexivity.
        - cbn [andb]. now destruct st. }
      rewrite Hnext.
      exists (if (ptr st <? length text)%nat then S (ptr st) else ptr st).
      cbn [fst snd ptr segmentStart set_segmentStart set_ptr drawList].
      split; [destruct (Nat.ltb_spec (ptr st) (length text)); lia|].
      split; [exact Hcov'|]. split; [reflexivity|]. intros i Hi. lia.
Qed.

Lemma run_cover_ok (text : list byte) (fuel : nat) :
  forall (cfg : Mode * State) (st : State),
  run fuel text cfg = Some st -> cover_ok text cfg ->
  cover_ok text (Literal, st) /\ ptr st = length text.
Proof.
  assert (Hend : forall (cfg : Mode * State) (st : State),
            step text cfg = None -> Some (snd cfg) = Some st ->
            cover_ok text cfg ->
            cover_ok text (Literal, st) /\ ptr st = length text).
  { intros [mode s] st Hnone Heq Hok. inversion Heq; subst st; clear Heq.
    destruct (step_None_Literal text (mode, s) Hnone) as [Hmode Hge].
    cbn [fst snd] in *. subst mode. split; [exact Hok|].
    destruct Hok as (s0 & Hle & _). cbn [snd] in Hle. lia. }
  induction fuel as [|fuel IH]; intros cfg st; cbn [run];
    destruct (step text cfg) as [cfg'|] eqn:Hstep; try discriminate;
    try (now apply Hend).
  intros Hrun Hok. apply (IH cfg' st Hrun).
  now apply (step_cover_ok text cfg cfg').
Qed.

Lemma iterate_cover_ok (text : list byte) (n : nat) :
  forall cfg cfg' : Mode * State,
  iterate n text cfg = Some cfg' -> cover_ok text cfg -> cover_ok text cfg'.
Proof.
  induction n as [|n IH]; intros cfg cfg'; cbn [iterate].
  - intros Heq. inversion Heq; subst. auto.
  - destruct (step text cfg) as [cfg1|] eqn:Hstep; [|discriminate].
    intros Hit Hok. apply (IH cfg1 cfg' Hit).
    now apply (step_cover_ok text cfg cfg1).
Qed.

(** No byte of an escape sequence is drawn, at any iteration and when the
    call returns. *)
Lemma iterate_not_escaped (text : list byte) (n : nat) (mode : Mode)
  (st : State) (i : nat) :
  iterate n text (Literal, initial) = Some (mode, st) ->
  drawn (drawList st) i -> ~ escaped text i.
Proof.
  intros Hit.
  destruct (iterate_cover_ok text n (Literal, initial) (mode, st) Hit
              (initial_cover_ok text)) as (s & _ & (_ & _ & Hdrawn & _) & _).
  apply Hdrawn.
Qed.

Lemma RenderAnsiText_not_escaped (text : list byte) (fuel : nat)
  (st : State) (i : nat) :
  RenderAnsiText fuel text = Some st ->
  drawn (drawList st) i -> ~ escaped text i.
Proof.
  unfold RenderAnsiText.
  destruct (run fuel text (Literal, initial)) as [s|] eqn:Hrun;
    [|discriminate].
  intros Heq. inversion Heq; subst st; clear Heq.
  rewrite end_of_text_drawList.
  destruct (run_cover_ok text fuel (Literal, initial) s Hrun
              (initial_cover_ok text))
    as ((s0 & Hle & Hcov & Hs0 & Hfree) & Hptr).
  cbn [fst snd] in *. subst s0.
  pose proof (segment_covered text (segmentStart s) (ptr s) s Hcov
                ltac:(lia) Hfree) as (_ & _ & Hdrawn & _).
  unfold final_segment. apply Hdrawn.
Qed.

(** X21.  Which bytes are drawn: when the call returns, a byte lies in the
    span of an [AddText] exactly when it is in the buffer, is not a control
    character (below 0x20, ESC apart), and does not lie in an escape
    sequence, from its ESC to its [m] or to the end of the buffer. *)
Theorem drawn_iff_kept_and_not_escaped (text : list byte) (fuel : nat)
  (st : State) :
  RenderAnsiText fuel text = Some st ->
  forall i,
    drawn (drawList st) i
    <-> (i < length text)%nat /\ kept (char_at text i) /\ ~ escaped text i.
Proof.
  unfold RenderAnsiText.
  destruct (run fuel text (Literal, initial)) as [s|] eqn:Hrun;
    [|discriminate].
  intros Heq. inversion Heq; subst st; clear Heq.
  rewrite end_of_text_drawList.
  destruct (run_cover_ok text fuel (Literal, initial) s Hrun
              (initial_cover_ok text))
    as ((s0 & Hle & Hcov & Hs0 & Hfree) & Hptr).
  cbn [fst snd] in *. subst s0.
  pose proof (segment_covered text (segmentStart s) (ptr s) s Hcov
                ltac:(lia) Hfree) as (_ & Hall & Hdrawn & _).
  destruct (run_scan_ok text fuel (Literal, initial) s Hrun
              (initial_scan_ok text)) as [Hscan _].
  pose proof (final_segment_spans text s Hscan) as Hspans.
  unfold final_segment in *.
  intros i. split.
  - intros Hd. pose proof Hd as (cmd & Hin & Hi).
    rewrite Forall_forall in Hspans.
    destruct (Hspans cmd Hin) as [Hb Hk].
    split; [lia|]. split; [now apply Hk|now apply Hdrawn].
  - intros (Hi & Hk & Hne).
    destruct (Hall i ltac:(lia)) as [Hd|[[Hlow Hesc]|He]];
      [exact Hd| |contradiction].
    destruct Hk as [Hge|Hesc']; [lia|contradiction].
Qed.

End Coverage.

Lemma drawn_iff_kept_and_not_escaped_witness :
  exists st,
    RenderAnsiText 16 [x61; LF; ESC; LBRACKET; x33; x31; LOWER_M; x62]
    = Some st /\
    forall i,
      drawn (drawList st) i
      <-> (i < 8)%nat /\
          kept (char_at [x61; LF; ESC; LBRACKET; x33; x31; LOWER_M; x62] i)
          /\ ~ escaped [x61; LF; ESC; LBRACKET; x33; x31; LOWER_M; x62] i.
Proof.
  destruct (RenderAnsiText 16
              [x61; LF; ESC; LBRACKET; x33; x31; LOWER_M; x62])
    as [st|] eqn:Hret; [|vm_compute in Hret; discriminate Hret].
  exists st. split; [reflexivity|].
  exact (drawn_iff_kept_and_not_escaped _ 16 st Hret).
Defined.

(** ** The flow of the runs: an escape sequence does not move the pen *)

Lemma neighbours_snoc (dl : list DrawCmd) (c' : DrawCmd)
  (P : DrawCmd -> DrawCmd -> Prop) :
  (forall l1 c1 c2 l2, dl = l1 ++ c1 :: c2 :: l2 -> P c1 c2) ->
  (forall l c, dl = l ++ [c] -> P c c') ->
  forall l1 c1 c2 l2, dl ++ [c'] = l1 ++ c1 :: c2 :: l2 -> P c1 c2.
Proof.
  intros Hin Hlast l1 c1 c2 l2 Heq.
  destruct l2 as [|y l2].
  - change (l1 ++ [c1; c2]) with (l1 ++ [c1] ++ [c2]) in Heq.
    rewrite app_assoc in Heq. apply app_inj_tail in Heq.
    destruct Heq as [Hdl <-]. now apply (Hlast l1).
  - assert (Hne : y :: l2 <> []) by discriminate.
    destruct (exists_last Hne) as (l2' & a & Hl). rewrite Hl in Heq.
    change (l1 ++ c1 :: c2 :: l2' ++ [a])
      with (l1 ++ (c1 :: c2 :: l2') ++ [a]) in Heq.
    rewrite app_assoc in Heq. apply app_inj_tail in Heq.
    destruct Heq as [Hdl _]. now apply (Hin l1 c1 c2 l2').
Qed.

Section Flow.

Context {gui : ImGui}.

(** A larger bound asks less of the pen. *)
Lemma flow_at_later (text : list byte) (dl : list DrawCmd) (p : ImVec2)
  (bound bound' : nat) :
  flow_at text dl p bound -> (bound <= bound')%nat ->
  flow_at text dl p bound'.
Proof.
  intros (Hn & Hend & Hlast) Hle. split; [exact Hn|]. split.
  - eapply Forall_impl; [|exact Hend]. cbv beta. intros cmd H. lia.
  - intros l c Hdl Hno. apply (Hlast l c Hdl).
    intros i Hi. apply Hno. lia.
Qed.

(** Behind a control character the pen is free. *)
Lemma flow_at_control (text : list byte) (dl : list DrawCmd) (p p' : ImVec2)
  (bound current : nat) :
  flow_at text dl p bound -> (bound <= current)%nat ->
  control (char_at text current) ->
  flow_at text dl p' (S current).
Proof.
  intros (Hn & Hend & _) Hle Hctl. split; [exact Hn|]. split.
  - eapply Forall_impl; [|exact Hend]. cbv beta. intros cmd H. lia.
  - intros l c Hdl Hno. exfalso. apply (Hno current); [|exact Hctl].
    rewrite Forall_forall in Hend.
    assert (Hin : In c dl) by (rewrite Hdl; apply in_or_app; right; now left).
    specialize (Hend c Hin). cbv beta in Hend. lia.
Qed.

Lemma emit_pending_flow (text : list byte) (a b : nat) (st : State) :
  (a <= b)%nat ->
  flow_at text (drawList st) (pos st) a ->
  flow_at text (drawList (emit_pending text a b st))
    (pos (emit_pending text a b st)) b.
Proof.
  intros Hab Hflow. unfold emit_pending.
  destruct (Nat.ltb_spec a b) as [Hlt|Hge].
  - destruct Hflow as (Hn & Hend & Hlast).
    cbn [draw set_pos pos drawList]. split; [|split].
    + apply neighbours_snoc; [exact Hn|].
      intros l c Hdl Hno. cbn [cmd_pos text_begin] in *.
      now apply (Hlast l c Hdl).
    + apply Forall_app. split.
      * eapply Forall_impl; [|exact Hend]. cbv beta. intros cmd H. lia.
      * constructor; [cbn; lia|constructor].
    + intros l c Hdl _. apply app_inj_tail in Hdl. destruct Hdl as [_ <-].
      reflexivity.
  - replace b with a by lia. exact Hflow.
Qed.

(** The inner loop of [renderTextSegment]: a run is drawn where the pen
    is, and the pen then stands behind it. *)
Lemma renderTextSegment_loop_flow (text rest : list byte) :
  forall (segStart current : nat) (st : State),
  (forall k, (k < length rest)%nat ->
     nth k rest x00 = char_at text (current + k)) ->
  (segStart <= current)%nat ->
  flow_at text (drawList st) (pos st) segStart ->
  flow_at text
    (drawList (renderTextSegment_loop text rest segStart current st))
    (pos (renderTextSegment_loop text rest segStart current st))
    (current + length rest).
Proof.
  induction rest as [|c rest IH]; intros segStart current st Hrest Hle Hflow;
    cbn [renderTextSegment_loop length].
  - rewrite Nat.add_0_r. now apply emit_pending_flow.
  - assert (Hc : c = char_at text current).
    { specialize (Hrest 0%nat ltac:(cbn [length]; lia)). cbn [nth] in Hrest.
      now rewrite Nat.add_0_r in Hrest. }
    assert (Hrest' : forall k, (k < length rest)%nat ->
                       nth k rest x00 = char_at text (S current + k)).
    { intros k Hk. specialize (Hrest (S k) ltac:(cbn [length]; lia)).
      cbn [nth] in Hrest. rewrite Hrest. f_equal. lia. }
    replace (current + S (length rest))%nat
      with (S current + length rest)%nat by lia.
    assert (Hnext : forall st1,
               drawList st1
               = drawList (emit_pending text segStart current st) ->
               control c ->
               flow_at text
                 (drawList (renderTextSegment_loop text rest (S current)
                              (S current) st1))
                 (pos (renderTextSegment_loop text rest (S current)
                         (S current) st1))
                 (S current + length rest)).
    { intros st1 Hst1 Hctl. apply IH; auto. rewrite Hst1.
      apply (flow_at_control text _
               (pos (emit_pending text segStart current st)) _ current
               current); [|lia|now rewrite <- Hc].
      now apply emit_pending_flow. }
    destruct (Byte.eqb c LF) eqn:HLF.
    { apply Hnext; [reflexivity|].
      apply Byte.byte_dec_bl in HLF. rewrite HLF.
      split; [reflexivity|discriminate]. }
    destruct (Byte.eqb c CR) eqn:HCR.
    { apply Hnext; [reflexivity|].
      apply Byte.byte_dec_bl in HCR. rewrite HCR.
      split; [reflexivity|discriminate]. }
    destruct (Byte.eqb c TAB) eqn:HTAB.
    { apply Hnext; [reflexivity|].
      apply Byte.byte_dec_bl in HTAB. rewrite HTAB.
      split; [reflexivity|discriminate]. }
    destruct (Byte.eqb c BS) eqn:HBS.
    { apply Hnext; [reflexivity|].
      apply Byte.byte_dec_bl in HBS. rewrite HBS.
      split; [reflexivity|discriminate]. }
    destruct ((uchar c <? 32)%Z && negb (Byte.eqb c ESC)) eqn:Hctl.
    { apply Hnext; [reflexivity|]. now apply control_of_test. }
    apply IH; auto.
Qed.

Lemma segment_flow (text : list byte) (s p : nat) (st : State) :
  (s <= p <= length text)%nat ->
  flow_at text (drawList st) (pos st) s ->
  flow_at text
    (drawList (if (s <? p)%nat then renderTextSegment text s p st else st))
    (pos (if (s <? p)%nat then renderTextSegment text s p st else st))
    p.
Proof.
  intros Hsp Hflow. destruct (Nat.ltb_spec s p) as [Hlt|Hge].
  - unfold renderTextSegment.
    destruct (Nat.ltb_spec s p) as [_|Hge]; [|lia].
    pose proof (renderTextSegment_loop_flow text (span text s p) s s st) as H.
    rewrite span_length in H by lia.
    replace (s + (p - s))%nat with p in H by lia.
    apply H; auto. intros k Hk. now apply span_nth.
  - replace p with s by lia. exact Hflow.
Qed.

Lemma initial_flow_ok (text : list byte) : flow_ok text (Literal, initial).
Proof.
  unfold flow_ok, settled. cbn [fst snd initial ptr segmentStart drawList pos].
  split; [lia|]. split; [|split; [constructor|]].
  - intros l1 c1 c2 l2 H. destruct l1; discriminate H.
  - intros l c H. destruct l; discriminate H.
Qed.

Lemma step_flow_ok (text : list byte) (cfg cfg' : Mode * State) :
  step text cfg = Some cfg' -> flow_ok text cfg -> flow_ok text cfg'.
Proof.
  destruct cfg as [[|] st]; unfold step, flow_ok, settled;
    cbn [fst snd]; intros Hstep (Hle & Hflow).
  - destruct (Nat.ltb_spec (ptr st) (length text)) as [Hlt|_];
      [|discriminate].
    destruct (Byte.eqb (char_at text (ptr st)) ESC
              && looking_at text (S (ptr st)) LBRACKET) eqn:Hm.
    + pose proof (esc_startb_inside text (ptr st) Hm) as (Hin & HE & HB).
      pose proof (segment_flow text (segmentStart st) (ptr st) st
                    ltac:(lia) Hflow) as Hflow'.
      assert (Hp : ptr (if (segmentStart st <? ptr st)%nat
                        then renderTextSegment text (segmentStart st)
                               (ptr st) st
                        else st) = ptr st).
      { destruct (segmentStart st <? ptr st)%nat; [|reflexivity].
        now destruct (renderTextSegment_same_scan text (segmentStart st)
                        (ptr st) st). }
      inversion Hstep; subst cfg'; clear Hstep.
      cbn [fst snd ptr set_ptr drawList pos]. rewrite Hp.
      split; [lia|]. apply (flow_at_later text _ _ (ptr st)); [exact Hflow'|lia].
    + inversion Hstep; subst cfg'; clear Hstep.
      cbn [fst snd ptr set_ptr drawList pos segmentStart].
      split; [lia|exact Hflow].
  - destruct ((ptr st <? length text)%nat
              && negb (Byte.eqb (char_at text (ptr st)) LOWER_M)) eqn:Hloop.
    + inversion Hstep; subst cfg'; clear Hstep. cbn [fst snd].
      pose proof (escape_iteration_frame text st) as (_ & Hpos & Hdl & Hfr).
      rewrite Hpos, Hdl. split; [lia|].
      apply (flow_at_later text _ _ (ptr st)); [exact Hflow|lia].
    + inversion Hstep; subst cfg'; clear Hstep.
      cbn [fst snd ptr segmentStart set_segmentStart pos drawList].
      destruct (looking_at text (ptr st) LOWER_M) eqn:Hlook.
      * apply looking_at_true in Hlook. destruct Hlook as [Hl Hc].
        cbn [ptr set_ptr pos drawList]. split; [lia|].
        apply (flow_at_later text _ _ (ptr st)); [exact Hflow|lia].
      * split; [lia|exact Hflow].
Qed.

Lemma run_flow_ok (text : list byte) (fuel : nat) :
  forall (cfg : Mode * State) (st : State),
  run fuel text cfg = Some st -> flow_ok text cfg ->
  flow_ok text (Literal, st) /\ ptr st = length text.
Proof.
  assert (Hend : forall (cfg : Mode * State) (st : State),
            step text cfg = None -> Some (snd cfg) = Some st ->
            flow_ok text cfg ->
            flow_ok text (Literal, st) /\ ptr st = length text).
  { intros [mode s] st Hnone Heq Hok. inversion Heq; subst st; clear Heq.
    destruct (step_None_Literal text (mode, s) Hnone) as [Hmode Hge].
    cbn [fst snd] in *. subst mode. split; [exact Hok|].
    destruct Hok as (Hle & _). cbn [snd] in Hle. lia. }
  induction fuel as [|fuel IH]; intros cfg st; cbn [run];
    destruct (step text cfg) as [cfg'|] eqn:Hstep; try discriminate;
    try (now apply Hend).
  intros Hrun Hok. apply (IH cfg' st Hrun).
  now apply (step_flow_ok text cfg cfg').
Qed.

(** X22.  An escape sequence does not move the pen: of two runs that are
    neighbours in the draw list, with no control character between their
    spans in the buffer, the second is drawn on the line of the first,
    right of it by the measured width of its span. *)
Theorem runs_follow_each_other (text : list byte) (fuel : nat) (st : State)
  (l1 l2 : list DrawCmd) (c1 c2 : DrawCmd) :
  RenderAnsiText fuel text = Some st ->
  drawList st = l1 ++ c1 :: c2 :: l2 ->
  (forall i, (text_end c1 <= i < text_begin c2)%nat ->
     ~ control (char_at text i)) ->
  cmd_pos c2
  = ImVec2.make
      (ImVec2.x (cmd_pos c1)
       + ImVec2.x (CalcTextSize (span text (text_begin c1) (text_end c1))))
      (ImVec2.y (cmd_pos c1)).
Proof.
  unfold RenderAnsiText.
  destruct (run fuel text (Literal, initial)) as [s|] eqn:Hrun;
    [|discriminate].
  intros Heq. inversion Heq; subst st; clear Heq.
  rewrite end_of_text_drawList.
  destruct (run_flow_ok text fuel (Literal, initial) s Hrun
              (initial_flow_ok text)) as ((Hle & Hflow) & Hptr).
  unfold settled in *. cbn [fst snd] in *.
  pose proof (segment_flow text (segmentStart s) (ptr s) s ltac:(lia) Hflow)
    as (Hn & _ & _).
  unfold final_segment. intros Hdl Hno.
  now apply (Hn l1 c1 c2 l2 Hdl).
Qed.

End Flow.

Lemma runs_follow_each_other_witness :
  exists st c1 c2,
    RenderAnsiText 16 [x61; x62; ESC; LBRACKET; x33; x31; LOWER_M; x63]
    = Some st /\
    drawList st = [c1; c2] /\
    cmd_pos c1 = ImVec2.make 100 50 /\
    cmd_pos c2 = ImVec2.make (100 + inject_Z (8 * 2)) 50.
Proof.
  destruct (RenderAnsiText 16
              [x61; x62; ESC; LBRACKET; x33; x31; LOWER_M; x63])
    as [st|] eqn:Hret; [|vm_compute in Hret; discriminate Hret].
  pose proof Hret as Hst. vm_compute in Hst.
  inversion Hst as [Hst']. rewrite <- Hst' in Hret.
  eexists. eexists. eexists.
  split; [reflexivity|]. split; [reflexivity|]. split; [reflexivity|].
  refine (runs_follow_each_other _ 16 _ [] [] _ _ Hret eq_refl _).
  cbn [text_end text_begin]. intros i Hi [Hlow Hne].
  assert (Hcases : i = 2%nat \/ i = 3%nat \/ i = 4%nat \/ i = 5%nat
                   \/ i = 6%nat) by lia.
  destruct Hcases as [->|[->|[->|[->| ->]]]];
    [apply Hne; reflexivity| | | |]; cbv in Hlow; discriminate Hlow.
Defined.

(** ** The colours of the runs: a control character does not change the
    colour *)

Section Colours.

Context {gui : ImGui}.

Lemma colour_at_later (text : list byte) (dl : list DrawCmd) (col : ImU32)
  (bound bound' : nat) :
  colour_at text dl col bound -> (bound <= bound')%nat ->
  colour_at text dl col bound'.
Proof.
  intros (Hn & Hhead & Hend & Hlast & Hnil) Hle.
  split; [exact Hn|]. split; [exact Hhead|]. split; [|split].
  - eapply Forall_impl; [|exact Hend]. cbv beta. intros cmd H. lia.
  - intros l c Hdl Hfree. apply (Hlast l c Hdl).
    intros i Hi. apply Hfree. lia.
  - intros Hdl Hfree. apply (Hnil Hdl). intros i Hi. apply Hfree. lia.
Qed.

(** Behind a marker the colour is free. *)
Lemma colour_at_marker (text : list byte) (dl : list DrawCmd)
  (col col' : ImU32) (bound m bound' : nat) :
  colour_at text dl col bound -> (bound <= m < bound')%nat ->
  esc_startb text m = true ->
  colour_at text dl col' bound'.
Proof.
  intros (Hn & Hhead & Hend & _ & _) Hle Hm.
  split; [exact Hn|]. split; [exact Hhead|]. split; [|split].
  - eapply Forall_impl; [|exact Hend]. cbv beta. intros cmd H. lia.
  - intros l c Hdl Hfree. exfalso.
    rewrite Forall_forall in Hend.
    assert (Hin : In c dl) by (rewrite Hdl; apply in_or_app; right; now left).
    specialize (Hend c Hin). cbv beta in Hend.
    rewrite (Hfree m) in Hm by lia. discriminate Hm.
  - intros _ Hfree. exfalso. rewrite (Hfree m) in Hm by lia. discriminate Hm.
Qed.

Lemma emit_pending_colour (text : list byte) (a b : nat) (st : State) :
  (a <= b)%nat ->
  colour_at text (drawList st) (currentColor st) a ->
  colour_at text (drawList (emit_pending text a b st))
    (currentColor (emit_pending text a b st)) b.
Proof.
  intros Hab Hcol. unfold emit_pending.
  destruct (Nat.ltb_spec a b) as [Hlt|Hge].
  - destruct Hcol as (Hn & Hhead & Hend & Hlast & Hnil).
    cbn [draw set_pos currentColor drawList].
    split; [|split; [|split; [|split]]].
    + apply (neighbours_snoc (drawList st) _
               (fun c1 c2 =>
                  marker_free text (text_end c1) (text_begin c2) ->
                  cmd_col c2 = cmd_col c1)); [exact Hn|].
      intros l c Hdl Hfree. cbn [cmd_col text_begin] in *.
      now apply (Hlast l c Hdl).
    + intros c l Hdl Hfree.
      destruct (drawList st) as [|c0 dl0] eqn:Hdl0.
      * cbn [app] in Hdl. inversion Hdl; subst c l.
        cbn [cmd_col text_begin] in *. now apply Hnil.
      * cbn [app] in Hdl. inversion Hdl; subst c l.
        now apply (Hhead c0 dl0).
    + apply Forall_app. split.
      * eapply Forall_impl; [|exact Hend]. cbv beta. intros cmd H. lia.
      * constructor; [cbn; lia|constructor].
    + intros l c Hdl _. apply app_inj_tail in Hdl. destruct Hdl as [_ <-].
      reflexivity.
    + intros Hdl. destruct (drawList st); discriminate Hdl.
  - replace b with a by lia. exact Hcol.
Qed.

(** The inner loop of [renderTextSegment] draws every run in the one
    colour it is entered with. *)
Lemma renderTextSegment_loop_colour (text rest : list byte) :
  forall (segStart current : nat) (st : State),
  (segStart <= current)%nat ->
  colour_at text (drawList st) (currentColor st) segStart ->
  colour_at text
    (drawList (renderTextSegment_loop text rest segStart current st))
    (currentColor (renderTextSegment_loop text rest segStart current st))
    (current + length rest).
Proof.
  induction rest as [|c rest IH]; intros segStart current st Hle Hcol;
    cbn [renderTextSegment_loop length].
  - rewrite Nat.add_0_r. now apply emit_pending_colour.
  - replace (current + S (length rest))%nat
      with (S current + length rest)%nat by lia.
    assert (Hnext : forall st1,
               drawList st1
               = drawList (emit_pending text segStart current st) ->
               currentColor st1
               = currentColor (emit_pending text segStart current st) ->
               colour_at text
                 (drawList (renderTextSegment_loop text rest (S current)
                              (S current) st1))
                 (currentColor (renderTextSegment_loop text rest (S current)
                                  (S current) st1))
                 (S current + length rest)).
    { intros st1 Hdl1 Hcol1. apply IH; auto. rewrite Hdl1, Hcol1.
      apply (colour_at_later text _ _ current); [|lia].
      now apply emit_pending_colour. }
    destruct (Byte.eqb c LF); [now apply Hnext|].
    destruct (Byte.eqb c CR); [now apply Hnext|].
    destruct (Byte.eqb c TAB); [now apply Hnext|].
    destruct (Byte.eqb c BS); [now apply Hnext|].
    destruct ((uchar c <? 32)%Z && negb (Byte.eqb c ESC));
      [now apply Hnext|].
    apply IH; auto.
Qed.

Lemma segment_colour (text : list byte) (s p : nat) (st : State) :
  (s <= p)%nat ->
  colour_at text (drawList st) (currentColor st) s ->
  colour_at text
    (drawList (if (s <? p)%nat then renderTextSegment text s p st else st))
    (currentColor
       (if (s <? p)%nat then renderTextSegment text s p st else st))
    p.
Proof.
  intros Hsp Hcol. destruct (Nat.ltb_spec s p) as [Hlt|Hge].
  - unfold renderTextSegment.
    destruct (Nat.ltb_spec s p) as [_|Hge]; [|lia].
    pose proof (renderTextSegment_loop_colour text (span text s p) s s st
                  (le_n s) Hcol) as H.
    apply (colour_at_later text _ _ _ p) in H; [exact H|].
    unfold span. rewrite length_firstn. lia.
  - replace p with s by lia. exact Hcol.
Qed.

Lemma initial_colour_ok (text : list byte) : colour_ok text (Literal, initial).
Proof.
  unfold colour_ok, settled.
  cbn [fst snd initial ptr segmentStart drawList currentColor].
  split; [lia|]. split; [|split; [|split; [constructor|split]]].
  - intros l1 c1 c2 l2 H. destruct l1; discriminate H.
  - intros c l H. discriminate H.
  - intros l c H. destruct l; discriminate H.
  - reflexivity.
Qed.

Lemma step_colour_ok (text : list byte) (cfg cfg' : Mode * State) :
  step text cfg = Some cfg' -> colour_ok text cfg -> colour_ok text cfg'.
Proof.
  destruct cfg as [[|] st]; unfold step, colour_ok, settled;
    cbn [fst snd]; intros Hstep (Hle & Hcol).
  - destruct (Nat.ltb_spec (ptr st) (length text)) as [Hlt|_];
      [|discriminate].
    destruct (Byte.eqb (char_at text (ptr st)) ESC
              && looking_at text (S (ptr st)) LBRACKET) eqn:Hm.
    + pose proof (esc_startb_inside text (ptr st) Hm) as (Hin & HE & HB).
      pose proof (segment_colour text (segmentStart st) (ptr st) st
                    ltac:(lia) Hcol) as Hcol'.
      assert (Hp : ptr (if (segmentStart st <? ptr st)%nat
                        then renderTextSegment text (segmentStart st)
                               (ptr st) st
                        else st) = ptr st).
      { destruct (segmentStart st <? ptr st)%nat; [|reflexivity].
        now destruct (renderTextSegment_same_scan text (segmentStart st)
                        (ptr st) st). }
      inversion Hstep; subst cfg'; clear Hstep.
      cbn [fst snd ptr set_ptr drawList]. rewrite Hp.
      split; [lia|]. intros col.
      apply (colour_at_marker text _ _ col (ptr st) (ptr st) (ptr st + 2)
               Hcol'); [lia|exact Hm].
    + inversion Hstep; subst cfg'; clear Hstep.
      cbn [fst snd ptr set_ptr drawList currentColor segmentStart].
      split; [lia|exact Hcol].
  - destruct ((ptr st <? length text)%nat
              && negb (Byte.eqb (char_at text (ptr st)) LOWER_M)) eqn:Hloop.
    + inversion Hstep; subst cfg'; clear Hstep. cbn [fst snd].
      pose proof (escape_iteration_frame text st) as (_ & _ & Hdl & Hfr).
      rewrite Hdl. split; [lia|]. intros col.
      apply (colour_at_later text _ _ (ptr st)); [apply Hcol|lia].
    + inversion Hstep; subst cfg'; clear Hstep.
      cbn [fst snd ptr segmentStart set_segmentStart currentColor drawList].
      destruct (looking_at text (ptr st) LOWER_M) eqn:Hlook.
      * apply looking_at_true in Hlook. destruct Hlook as [Hl Hc].
        cbn [ptr set_ptr currentColor drawList]. split; [lia|].
        apply (colour_at_later text _ _ (ptr st)); [apply Hcol|lia].
      * split; [lia|apply Hcol].
Qed.

Lemma run_colour_ok (text : list byte) (fuel : nat) :
  forall (cfg : Mode * State) (st : State),
  run fuel text cfg = Some st -> colour_ok text cfg ->
  colour_ok text (Literal, st) /\ ptr st = length text.
Proof.
  assert (Hend : forall (cfg : Mode * State) (st : State),
            step text cfg = None -> Some (snd cfg) = Some st ->
            colour_ok text cfg ->
            colour_ok text (Literal, st) /\ ptr st = length text).
  { intros [mode s] st Hnone Heq Hok. inversion Heq; subst st; clear Heq.
    destruct (step_None_Literal text (mode, s) Hnone) as [Hmode Hge].
    cbn [fst snd] in *. subst mode. split; [exact Hok|].
    destruct Hok as (Hle & _). cbn [snd] in Hle. lia. }
  induction fuel as [|fuel IH]; intros cfg st; cbn [run];
    destruct (step text cfg) as [cfg'|] eqn:Hstep; try discriminate;
    try (now apply Hend).
  intros Hrun Hok. apply (IH cfg' st Hrun).
  now apply (step_colour_ok text cfg cfg').
Qed.

(** X23.  A control character does not change the colour: of two runs that
    are neighbours in the draw list, with no marker [ESC '['] between
    their spans in the buffer, the second has the colour of the first, on
    whatever lines they are; and the first run has the default colour when
    no marker precedes it. *)
Theorem runs_keep_colour (text : list byte) (fuel : nat) (st : State) :
  RenderAnsiText fuel text = Some st ->
  (forall l1 c1 c2 l2,
     drawList st = l1 ++ c1 :: c2 :: l2 ->
     (forall i, (text_end c1 <= i < text_begin c2)%nat ->
        esc_startb text i = false) ->
     cmd_col c2 = cmd_col c1) /\
  (forall c l,
     drawList st = c :: l ->
     (forall i, (i < text_begin c)%nat -> esc_startb text i = false) ->
     cmd_col c = DEFAULT_COLOR).
Proof.
  unfold RenderAnsiText.
  destruct (run fuel text (Literal, initial)) as [s|] eqn:Hrun;
    [|discriminate].
  intros Heq. inversion Heq; subst st; clear Heq.
  rewrite end_of_text_drawList.
  destruct (run_colour_ok text fuel (Literal, initial) s Hrun
              (initial_colour_ok text)) as ((Hle & Hcol) & Hptr).
  unfold settled in *. cbn [fst snd] in *.
  pose proof (segment_colour text (segmentStart s) (ptr s) s ltac:(lia) Hcol)
    as (Hn & Hhead & _).
  unfold final_segment. split.
  - intros l1 c1 c2 l2 Hdl Hfree. now apply (Hn l1 c1 c2 l2 Hdl).
  - intros c l Hdl Hfree. apply (Hhead c l Hdl).
    intros i Hi. apply Hfree. lia.
Qed.

End Colours.

Lemma runs_keep_colour_witness :
  exists st c1 c2 c3,
    RenderAnsiText 20
      [ESC; LBRACKET; x33; x31; LOWER_M; x61; LF; x62; TAB; x63]
    = Some st /\
    drawList st = [c1; c2; c3] /\
    cmd_col c2 = cmd_col c1 /\ cmd_col c3 = cmd_col c2.
Proof.
  destruct (RenderAnsiText 20
              [ESC; LBRACKET; x33; x31; LOWER_M; x61; LF; x62; TAB; x63])
    as [st|] eqn:Hret; [|vm_compute in Hret; discriminate Hret].
  pose proof Hret as Hst. vm_compute in Hst.
  inversion Hst as [Hst']. rewrite <- Hst' in Hret.
  destruct (runs_keep_colour _ 20 _ Hret) as [Hn _].
  eexists. eexists. eexists. eexists.
  split; [reflexivity|]. split; [reflexivity|]. split.
  - refine (Hn [] _ _ [_] eq_refl _).
    cbn [text_end text_begin]. intros i Hi.
    replace i with 6%nat by lia. reflexivity.
  - refine (Hn [_] _ _ [] eq_refl _).
    cbn [text_end text_begin]. intros i Hi.
    replace i with 8%nat by lia. reflexivity.
Defined.

(** * The spans of the runs and the escape sequences *)

Section ClaimSpans.

Context {gui : ImGui}.

(** C8 (amended).  The span of every [AddText] is non-empty, lies in the
    buffer, holds no byte below 0x20 other than ESC, and never crosses an
    escape-sequence boundary: it holds no marker [ESC '['] and no byte of
    an escape sequence, from its ESC to its [m] or to the end of the
    buffer; an iteration draws inside the literal segment pending between
    two escape sequences, and the escape loop draws nothing.  A lone ESC
    stays in the span around it: [renderTextSegment] steps over it as over
    a printable byte, and the pen advances by the measured width of the
    span that holds it. *)
Theorem C8_spans (text : list byte) :
  (forall n mode st,
     iterate n text (Literal, initial) = Some (mode, st) ->
     Forall (span_ok text) (drawList st)) /\
  (forall fuel st,
     RenderAnsiText fuel text = Some st ->
     Forall (span_ok text) (drawList st)) /\
  (forall n mode st cmd i,
     iterate n text (Literal, initial) = Some (mode, st) ->
     In cmd (drawList st) ->
     (text_begin cmd <= i < text_end cmd)%nat ->
     ~ escaped text i) /\
  (forall fuel st cmd i,
     RenderAnsiText fuel text = Some st ->
     In cmd (drawList st) ->
     (text_begin cmd <= i < text_end cmd)%nat ->
     ~ escaped text i) /\
  (forall n mode st cfg',
     iterate n text (Literal, initial) = Some (mode, st) ->
     step text (mode, st) = Some cfg' ->
     exists new,
       drawList (snd cfg') = drawList st ++ new /\
       Forall (span_within (segmentStart st) (ptr st)) new /\
       (mode = InEscape -> new = [])) /\
  (forall rest segStart current st,
     renderTextSegment_loop text (ESC :: rest) segStart current st
     = renderTextSegment_loop text rest segStart (S current) st) /\
  (text <> [] -> Forall kept text ->
   (forall i, (i < length text)%nat -> esc_startb text i = false) ->
   exists st,
     RenderAnsiText (length text) text = Some st /\
     drawList st = [AddText startPos DEFAULT_COLOR 0 (length text)] /\
     pos st = ImVec2.make
                (ImVec2.x startPos + ImVec2.x (CalcTextSize text))
                (ImVec2.y startPos)).
Proof.
  split; [|split; [|split; [|split; [|split; [|split]]]]].
  - intros n mode st Hit.
    apply (iterate_scan_ok text n (Literal, initial) (mode, st) Hit).
    apply initial_scan_ok.
  - intros fuel st H. unfold RenderAnsiText in H.
    destruct (run fuel text (Literal, initial)) as [st0|] eqn:Hrun;
      [|discriminate].
    inversion H; subst st. rewrite end_of_text_drawList.
    apply final_segment_spans.
    apply (run_scan_ok text fuel (Literal, initial) st0 Hrun).
    apply initial_scan_ok.
  - intros n mode st cmd i Hit Hin Hi.
    apply (iterate_not_escaped text n mode st i Hit).
    exists cmd. now split.
  - intros fuel st cmd i Hret Hin Hi.
    apply (RenderAnsiText_not_escaped text fuel st i Hret).
    exists cmd. now split.
  - intros n mode st cfg' Hit Hstep.
    apply (step_draws_within text mode st cfg'); [|assumption].
    apply (iterate_scan_ok text n (Literal, initial) (mode, st) Hit).
    apply initial_scan_ok.
  - reflexivity.
  - intros Hne Hkept Hesc.
    rewrite (RenderAnsiText_kept text (length text)); auto.
    eexists. split; [reflexivity|]. split; reflexivity.
Qed.

End ClaimSpans.

(** C8: in ["a" ESC "b"] the lone ESC, a byte below 0x20, is inside the one
    span drawn, and the pen ends 24 units right of the origin, not the 16
    of ["ab"]. *)
Lemma C8_counterexample :
  exists (st st' : State) (cmd : DrawCmd) (i : nat),
    RenderAnsiText (gui := monospace) 3 [x61; ESC; x62] = Some st /\
    In cmd (drawList st) /\
    (text_begin cmd <= i < text_end cmd)%nat /\
    (uchar (char_at [x61; ESC; x62] i) < 32)%Z /\
    RenderAnsiText (gui := monospace) 2 [x61; x62] = Some st' /\
    ImVec2.x (pos st) = 124 /\
    ImVec2.x (pos st') = 116.
Proof.
  eexists. eexists. eexists. exists 1%nat.
  split; [vm_compute; reflexivity|].
  split; [left; reflexivity|].
  split; [cbn; lia|].
  split; [reflexivity|].
  split; [vm_compute; reflexivity|].
  split; reflexivity.
Qed.

Lemma C8_witness :
  exists st,
    RenderAnsiText (gui := monospace) 9
      ([x61; ESC; x62; LF] ++ ESC :: bytes_of_string "[1mc") = Some st /\
    Forall
      (span_ok ([x61; ESC; x62; LF] ++ ESC :: bytes_of_string "[1mc"))
      (drawList st) /\
    forall cmd i,
      In cmd (drawList st) ->
      (text_begin cmd <= i < text_end cmd)%nat ->
      ~ escaped ([x61; ESC; x62; LF] ++ ESC :: bytes_of_string "[1mc") i.
Proof.
  destruct (RenderAnsiText (gui := monospace) 9
              ([x61; ESC; x62; LF] ++ ESC :: bytes_of_string "[1mc"))
    as [st|] eqn:Hret; [|vm_compute in Hret; discriminate Hret].
  exists st. split; [reflexivity|].
  destruct (C8_spans (gui := monospace)
              ([x61; ESC; x62; LF] ++ ESC :: bytes_of_string "[1mc"))
    as (_ & Hspans & _ & Hescaped & _).
  split.
  - exact (Hspans 9%nat st Hret).
  - intros cmd i. exact (Hescaped 9%nat st cmd i Hret).
Defined.
